(** * The agreement bot's policy manager (agreementbot/policy_manager.go)

    A shallow embedding of the policy cache of the agreement bot and the
    properties of its mutation and query operations.

    Modelling decisions.
    - Go maps are [gmap]s.  The inner maps of [OrgPolicies] are reference
      values in Go ([GetAllBusinessPolicyEntriesForOrg] hands one out), so
      they live in a store [heap] and [OrgPolicies] maps an org to the
      location of its policy map.
    - [ServedPolicies] is the content of the map that [pm.ServedPolicies]
      refers to.  [setServedBusinessPolicies] keeps the very map it is given
      (its comment says copy; line 251 makes none), so the caller still
      holds that map, and a later write of the caller to it changes the
      triplets the manager reads.  Such a write is the step [caller_writes].
      The states reached with these steps are [reachable_shared]; the states
      reached while the caller leaves the map alone are [reachable].
    - A [*BusinessPolicyEntry] stored in a policy map may be nil: the slot
      type is [option BusinessPolicyEntry], [None] being nil.  The entry
      itself is held by value in its slot, and an update in place rewrites
      the slot.
    - The iteration order of [range] over a map is not specified by Go and
      may differ from one loop to the next.  Every loop whose order can be
      observed draws its order from [shuffle], indexed by a counter [tick]
      of the draws made so far; the results hold for every [shuffle] that
      permutes.  The same counter indexes the readings of the wall clock.
      A loop that only searches returns the same value in every order and
      is an [existsb] or a lookup.
    - Go's [range] does not produce an entry that was deleted before the loop
      reached it: the body of a loop that deletes from the map it ranges over
      first looks whether its key is still there.
    - Sending on [eventChannel] appends to the list of messages sent.
    - An [error] is a value of the inductive type [error]; the text of the
      message is not modelled.  A function returns it with the state it has
      reached: nothing is undone.
    - The two mutexes and the log are not modelled: the development is
      sequential. *)

From stdpp Require Import gmap strings list fin_maps fin_sets sorting.
From Stdlib Require Import ZArith.
From Stdlib.Strings Require Import Byte.

Set Warnings "-clear-no-such-hyp".

#[global] Instance byte_eq_dec : EqDecision Byte.byte := Byte.byte_eq_dec.

Abbreviation bytes := (list Byte.byte).
Abbreviation loc := positive.

(** ** Messages of the events package *)

Inductive EventId := CHANGED_POLICY | DELETED_POLICY.

(** [events.NewPolicyChangedMessage(id, policyFileName, policyName, org, policy)]
    and [events.NewPolicyDeletedMessage] with the same arguments. *)
Inductive Message :=
  | NewPolicyChangedMessage (id : EventId) (file name org policyString : string)
  | NewPolicyDeletedMessage (id : EventId) (file name org policyString : string).

(** The fields of [exchange.ServedBusinessPolicy] the manager reads. *)
Record ServedBusinessPolicy := {
  BusinessPolOrg : string;
  BusinessPol : string;
  NodeOrg : string
}.

(** The errors the manager builds; [cause] is the wrapped error. *)
Inductive error :=
  | MarshalError
  | ValidateError
  | ConvertError
  | OrgNotFound (org : string)
  | HashError (org : string) (cause : error)
  | UpdateEntryError (polId org : string) (cause : error)
  | CreateEntryError (cause : error).

(** A Go result pair [(value, error)]. *)
Inductive res (A : Type) :=
  | Ok (a : A)
  | Err (e : error).
Arguments Ok {A} a.
Arguments Err {A} e.

(** [json.Marshal] at the types the manager hashes. *)
Class JsonMarshal (A : Type) := json_Marshal : A → option bytes.

Section PolicyManager.

(** ** The collaborators outside this file *)

(** [businesspolicy.BusinessPolicy], [exchange.ExchangeBusinessPolicy],
    [externalpolicy.ExternalPolicy] and [policy.Policy]. *)
Context {BusinessPolicy ExchangeBusinessPolicy ExternalPolicy policy_Policy : Type}.
Context `{!JsonMarshal BusinessPolicy, !JsonMarshal ExternalPolicy}.

(** [exPol.GetBusinessPolicy()] *)
Variable GetBusinessPolicy : ExchangeBusinessPolicy → BusinessPolicy.
(** [pol.Validate()]: [true] when the returned error is nil. *)
Variable Validate : BusinessPolicy → bool.
(** [pol.GenPolicyFromBusinessPolicy(polId)]: [None] on error. *)
Variable GenPolicyFromBusinessPolicy : BusinessPolicy → string → option policy_Policy.
(** [policy.GenPolicyFromExternalPolicy(p, svcId)]: [None] on error. *)
Variable GenPolicyFromExternalPolicy : ExternalPolicy → string → option policy_Policy.
(** [policy.MarshalPolicy(p)]: [None] on error. *)
Variable MarshalPolicy : policy_Policy → option string.
(** [p.Header.Name] *)
Variable Header_Name : policy_Policy → string.
(** [exchange.GetId(id)]: the id without its org qualifier. *)
Variable GetId : string → string.
(** [sha3.Sum256] *)
Variable sha3_Sum256 : bytes → bytes.
(** [time.Now().Unix()] at the n-th draw. *)
Variable time_Now_Unix : nat → Z.
(** The order in which the n-th draw enumerates a map's entries. *)
Variable shuffle : nat → ∀ A : Type, list A → list A.

(** ** Policy entries *)

Record ServicePolicyEntry := {
  spPolicy : policy_Policy;
  spUpdated : Z;
  spHash : bytes
}.

Record BusinessPolicyEntry := {
  Policy : policy_Policy;
  Updated : Z;
  Hash : bytes;
  ServicePolicies : gmap string ServicePolicyEntry
}.

(** [uint64(x)] of an int64. *)
Definition uint64 (x : Z) : Z := x mod 2 ^ 64.

(** hash the business policy or the service policy gotten from the exchange *)
Definition hashPolicy {A} `{!JsonMarshal A} (p : A) : res bytes :=
  match json_Marshal p with
  | None => Err MarshalError
  | Some ps => Ok (sha3_Sum256 ps)
  end.

(** [now] is the reading of the clock the constructor takes. *)
Definition NewServicePolicyEntry (p : ExternalPolicy) (svcId : string) (now : Z)
    : res ServicePolicyEntry :=
  match hashPolicy p with
  | Err e => Err e
  | Ok hash =>
      match GenPolicyFromExternalPolicy p svcId with
      | None => Err ConvertError
      | Some pPolicy =>
          Ok {| spPolicy := pPolicy; spUpdated := uint64 now; spHash := hash |}
      end
  end.

Definition NewBusinessPolicyEntry (pol : BusinessPolicy) (polId : string) (now : Z)
    : res BusinessPolicyEntry :=
  match hashPolicy pol with
  | Err e => Err e
  | Ok hash =>
      if negb (Validate pol) then Err ValidateError
      else match GenPolicyFromBusinessPolicy pol polId with
           | None => Err ConvertError
           | Some pPolicy =>
               Ok {| Policy := pPolicy; Updated := uint64 now; Hash := hash;
                     ServicePolicies := ∅ |}
           end
  end.

(** Add a service policy to a BusinessPolicyEntry.  A nil [svcPolicy] is
    [None]. The entry is returned with the error, as the receiver is
    updated in place. *)
Definition AddServicePolicy (p : BusinessPolicyEntry) (svcPolicy : option ExternalPolicy)
    (svcId : string) (now : Z) : BusinessPolicyEntry * option error :=
  match svcPolicy with
  | None => (p, None)
  | Some sp =>
      if bool_decide (svcId = "") then (p, None)
      else match NewServicePolicyEntry sp svcId now with
           | Err e => (p, Some e)
           | Ok pSE =>
               ({| Policy := Policy p; Updated := Updated p; Hash := Hash p;
                   ServicePolicies := <[svcId := pSE]> (ServicePolicies p) |}, None)
           end
  end.

Definition DeleteAllServicePolicies (pe : BusinessPolicyEntry) (org : string)
    : BusinessPolicyEntry :=
  {| Policy := Policy pe; Updated := Updated pe; Hash := Hash pe; ServicePolicies := ∅ |}.

(** [UpdateEntry] writes three fields of its receiver before it validates:
    the receiver after the call is the first component, on both paths. *)
Definition UpdateEntry (p : BusinessPolicyEntry) (pol : BusinessPolicy) (polId : string)
    (newHash : bytes) (now : Z) : BusinessPolicyEntry * res policy_Policy :=
  let p1 := {| Policy := Policy p; Updated := uint64 now; Hash := newHash;
               ServicePolicies := ∅ |} in
  if negb (Validate pol) then (p1, Err ValidateError)
  else match GenPolicyFromBusinessPolicy pol polId with
       | None => (p1, Err ConvertError)
       | Some pPolicy =>
           ({| Policy := pPolicy; Updated := Updated p1; Hash := Hash p1;
               ServicePolicies := ServicePolicies p1 |}, Ok pPolicy)
       end.

(** ** The manager and the store *)

Record State := {
  ServedPolicies : gmap string ServedBusinessPolicy;
  OrgPolicies : gmap string loc;
  heap : gmap loc (gmap string (option BusinessPolicyEntry));
  eventChannel : list Message;
  tick : nat
}.

Definition set_ServedPolicies (f : gmap string ServedBusinessPolicy → gmap string ServedBusinessPolicy)
    (s : State) : State :=
  {| ServedPolicies := f (ServedPolicies s); OrgPolicies := OrgPolicies s; heap := heap s;
     eventChannel := eventChannel s; tick := tick s |}.
Definition set_OrgPolicies (f : gmap string loc → gmap string loc) (s : State) : State :=
  {| ServedPolicies := ServedPolicies s; OrgPolicies := f (OrgPolicies s); heap := heap s;
     eventChannel := eventChannel s; tick := tick s |}.
Definition set_heap (f : gmap loc (gmap string (option BusinessPolicyEntry)) →
                         gmap loc (gmap string (option BusinessPolicyEntry)))
    (s : State) : State :=
  {| ServedPolicies := ServedPolicies s; OrgPolicies := OrgPolicies s; heap := f (heap s);
     eventChannel := eventChannel s; tick := tick s |}.
Definition set_eventChannel (f : list Message → list Message) (s : State) : State :=
  {| ServedPolicies := ServedPolicies s; OrgPolicies := OrgPolicies s; heap := heap s;
     eventChannel := f (eventChannel s); tick := tick s |}.
Definition set_tick (f : nat → nat) (s : State) : State :=
  {| ServedPolicies := ServedPolicies s; OrgPolicies := OrgPolicies s; heap := heap s;
     eventChannel := eventChannel s; tick := f (tick s) |}.

Arguments set_ServedPolicies _ _ /.
Arguments set_OrgPolicies _ _ /.
Arguments set_heap _ _ /.
Arguments set_eventChannel _ _ /.
Arguments set_tick _ _ /.

(** A computation on the manager: it returns a value and the state it
    leaves.  An error is a returned value, as in Go: the state changes made
    before it stay. *)
Definition M (A : Type) : Type := State → A * State.

Definition ret {A} (a : A) : M A := λ s, (a, s).
Definition bind {A B} (c : M A) (k : A → M B) : M B :=
  λ s, let '(a, s') := c s in k a s'.
Definition get : M State := λ s, (s, s).
Definition gets {A} (f : State → A) : M A := λ s, (f s, s).
Definition modify (f : State → State) : M unit := λ s, (tt, f s).

Notation "x ←ₘ c ; k" := (bind c (λ x, k))
  (at level 20, c at level 100, k at level 200, right associativity,
   format "'[v' x  ←ₘ  c ; '/' k ']'").
Notation "c ;;ₘ k" := (bind c (λ _, k))
  (at level 100, k at level 200, right associativity).

(** [pm.eventChannel <- msg] *)
Definition send (msg : Message) : M unit := modify (set_eventChannel (λ ch, ch ++ [msg])).

(** One draw of the clock. *)
Definition time_Now : M Z :=
  λ s, (time_Now_Unix (tick s), set_tick S s).

(** The entries of [m] in the order this [range] loop visits them. *)
Definition range {V} (m : gmap string V) : M (list (string * V)) :=
  λ s, (shuffle (tick s) _ (map_to_list m), set_tick S s).

(** A loop over [l] whose body may return from the enclosing function with
    an error; [None] from the body goes on with the next element. *)
Fixpoint for_range {A} (body : A → M (option error)) (l : list A) : M (option error) :=
  match l with
  | [] => ret None
  | x :: l' =>
      λ s, match body x s with
           | (Some e, s') => (Some e, s')
           | (None, s') => for_range body l' s'
           end
  end.

(** [make(map[string]*BusinessPolicyEntry)]: a new, empty policy map. *)
Definition make_policy_map : M loc :=
  λ s, let l := fresh (dom (heap s)) in (l, set_heap <[l := ∅]> s).

Definition NewPolicyManager : State :=
  {| ServedPolicies := ∅; OrgPolicies := ∅; heap := ∅; eventChannel := []; tick := 0 |}.

Definition hasOrg (org : string) (s : State) : bool :=
  bool_decide (is_Some (OrgPolicies s !! org)).

(** The contents of [pm.OrgPolicies[org]]; for an org that is not a key Go
    yields the nil map, which reads as the empty one. *)
Definition orgMap (s : State) (org : string) : gmap string (option BusinessPolicyEntry) :=
  match OrgPolicies s !! org with
  | Some l => default ∅ (heap s !! l)
  | None => ∅
  end.

Definition hasBusinessPolicy (org polName : string) (s : State) : bool :=
  if hasOrg org s then bool_decide (is_Some (orgMap s org !! polName)) else false.

(** The returned value is the map reference held under [org], nil ([None])
    for an org that is not a key. *)
Definition GetAllBusinessPolicyEntriesForOrg (org : string) : M (option loc) :=
  gets (λ s, if hasOrg org s then OrgPolicies s !! org else None).

Definition GetAllPolicyOrgs : M (list string) :=
  orgs ←ₘ (s ←ₘ get; range (OrgPolicies s));
  ret (foldl (λ orgs '(org, _), orgs ++ [org]) [] orgs).

(** [pm.ServedPolicies = servedPols].  The source announces a copy of the
    given map and makes none: from here on the manager and the caller hold
    the same map, whose content is now [servedPols]. *)
Definition setServedBusinessPolicies (servedPols : gmap string ServedBusinessPolicy) : M unit :=
  modify (set_ServedPolicies (λ _, servedPols)).

(** A step of the caller, not of the manager: the caller writes to the map
    it has handed to [SetCurrentBusinessPolicies], and the content of
    [pm.ServedPolicies] becomes [servedPols]. *)
Definition caller_writes (servedPols : gmap string ServedBusinessPolicy) (s : State) : State :=
  set_ServedPolicies (λ _, servedPols) s.

Definition serves (polOrg polName : string) (sp : ServedBusinessPolicy) : bool :=
  bool_decide (BusinessPolOrg sp = polOrg)
  && (bool_decide (BusinessPol sp = polName) || bool_decide (BusinessPol sp = "*")).

(** chek if the agbot serves the given business policy or not.  The loop
    returns [true] at the first match: its result is that of [existsb]
    whatever the order. *)
Definition serveBusinessPolicy (polOrg polName : string) (s : State) : bool :=
  existsb (serves polOrg polName) (map_to_list (ServedPolicies s)).*2.

(** check if the agbot service the given org or not. *)
Definition serveOrg (polOrg : string) (s : State) : bool :=
  existsb (λ sp, bool_decide (BusinessPolOrg sp = polOrg)) (map_to_list (ServedPolicies s)).*2.

(** return an array of node orgs for the given served policy org and policy. *)
Definition GetServedNodeOrgs (polOrg polName : string) : M (list string) :=
  sps ←ₘ (s ←ₘ get; range (ServedPolicies s));
  ret (foldl (λ node_orgs '(_, sp),
         if serves polOrg polName sp then
           let node_org := NodeOrg sp in
           (* the default node org is the policy org *)
           let node_org := if bool_decide (node_org = "") then BusinessPolOrg sp else node_org in
           node_orgs ++ [node_org]
         else node_orgs) [] sps).

(** The body of the two deletion loops: a nil entry sends nothing, and so
    does an entry whose policy does not marshal. *)
Definition send_deleted (org : string) (pe : option BusinessPolicyEntry) : M unit :=
  match pe with
  | None => ret tt
  | Some pe =>
      match MarshalPolicy (Policy pe) with
      | None => ret tt
      | Some policyString =>
          send (NewPolicyDeletedMessage DELETED_POLICY "" (Header_Name (Policy pe)) org policyString)
      end
  end.

(** When an org is removed from the list of supported orgs and business
    policies, remove the org from the PolicyManager.  The outer loop of the
    source looks for the key [org_in] and leaves at it: it is the lookup. *)
Definition deleteOrg (org_in : string) : M (option error) :=
  s ←ₘ get;
  match OrgPolicies s !! org_in with
  | Some l =>
      ps ←ₘ range (default ∅ (heap s !! l));
      for_range (λ '(polName, pe), send_deleted org_in pe ;;ₘ ret None) ps
  | None => ret None
  end ;;ₘ
  (* Get rid of the org map *)
  has ←ₘ gets (hasOrg org_in);
  (if has then modify (set_OrgPolicies (delete org_in)) else ret tt) ;;ₘ
  ret None.

(** When a business policy is removed from the exchange, remove it from the
    PolicyManager and send a PolicyDeletedMessage. *)
Definition deleteBusinessPolicy (org polName : string) : M (option error) :=
  s ←ₘ get;
  (if hasOrg org s then
     match OrgPolicies s !! org, orgMap s org !! polName with
     | Some l, Some pe =>
         send_deleted org pe ;;ₘ
         modify (set_heap (<[l := delete polName (orgMap s org)]>))
     | _, _ => ret tt
     end
   else ret tt) ;;ₘ
  ret None.

(** [pm.OrgPolicies[org][name] = pe].  The org is a key wherever the manager
    stores (a store into the nil map of a missing org would panic). *)
Definition store_entry (org name : string) (pe : option BusinessPolicyEntry) : M unit :=
  λ s, match OrgPolicies s !! org with
       | Some l => (tt, set_heap (<[l := <[name := pe]> (orgMap s org)]>) s)
       | None => (tt, s)
       end.

(** The body of the first loop of [SetCurrentBusinessPolicies]: If we have
    encountered a new org in the served policy list, create a map of
    policies for it. *)
Definition add_served_org (served : ServedBusinessPolicy) : M (option error) :=
  has ←ₘ gets (hasOrg (BusinessPolOrg served));
  (if negb has then
     l ←ₘ make_policy_map;
     modify (set_OrgPolicies <[BusinessPolOrg served := l]>)
   else ret tt) ;;ₘ
  ret None.

(** The body of its second loop.  Go does not visit a key that was deleted
    before the loop reached it: the body first looks whether [org] is still
    a key. *)
Definition drop_unserved_org (org : string) : M (option error) :=
  live ←ₘ gets (hasOrg org);
  if negb live then ret None
  else
    served ←ₘ gets (serveOrg org);
    if negb served then deleteOrg org else ret None.

(** Given a list of policy_org/policy/node_org triplets that this agbot is
    supposed to serve, save that list and convert it to map of maps. *)
Definition SetCurrentBusinessPolicies (servedPols : gmap string ServedBusinessPolicy)
    : M (option error) :=
  s ←ₘ get;
  (* Exit early if nothing to do *)
  if bool_decide (size (ServedPolicies s) = 0) && bool_decide (size servedPols = 0)
  then ret None
  else
    setServedBusinessPolicies servedPols ;;ₘ
    (* Create a new map of maps *)
    (s ←ₘ get;
     if bool_decide (size (OrgPolicies s) = 0)
     then modify (set_OrgPolicies (λ _, ∅)) else ret tt) ;;ₘ
    sps ←ₘ range servedPols;
    r ←ₘ for_range (λ '(_, served), add_served_org served) sps;
    match r with
    | Some e => ret (Some e)
    | None =>
        orgs ←ₘ (s ←ₘ get; range (OrgPolicies s));
        for_range (λ '(org, _), drop_unserved_org org) orgs
    end.

(** The body of the second loop of [UpdatePolicies]. *)
Definition reconcile (org : string) (polId : string) (exPol : ExchangeBusinessPolicy)
    : M (option error) :=
  let pol := GetBusinessPolicy exPol in
  served ←ₘ gets (serveBusinessPolicy org (GetId polId));
  if negb served then ret None
  else
    s ←ₘ get;
    r ←ₘ match (if hasBusinessPolicy org (GetId polId) s
                then orgMap s org !! GetId polId else None) with
         | Some (Some pe) =>
             (* The PolicyEntry is already there, so check if the policy
                definition has changed. *)
             match hashPolicy pol with
             | Err err => ret (Err (HashError org err))
             | Ok newHash =>
                 if negb (bool_decide (Hash pe = newHash)) then
                   now ←ₘ time_Now;
                   let '(pe', r) := UpdateEntry pe pol polId newHash now in
                   store_entry org (GetId polId) (Some pe') ;;ₘ
                   match r with
                   | Err err => ret (Err (UpdateEntryError polId org err))
                   | Ok newPol =>
                       match MarshalPolicy newPol with
                       | None => ret tt
                       | Some policyString =>
                           send (NewPolicyChangedMessage CHANGED_POLICY ""
                                   (Header_Name newPol) org policyString)
                       end ;;ₘ
                       ret (Ok false)
                   end
                 else ret (Ok false)
             end
         | _ => ret (Ok true)
         end;
    match r with
    | Err e => ret (Some e)
    | Ok need_new_entry =>
        (* If there's no BusinessPolicyEntry yet, create one *)
        if need_new_entry then
          now ←ₘ time_Now;
          match NewBusinessPolicyEntry pol polId now with
          | Err err => ret (Some (CreateEntryError err))
          | Ok newPE => store_entry org (GetId polId) (Some newPE) ;;ₘ ret None
          end
        else ret None
    end.

(** The body of the first loop of [UpdatePolicies].  As in the loop over
    the orgs, a policy that is no longer a key is not visited. *)
Definition prune (org : string) (definedPolicies : gmap string ExchangeBusinessPolicy)
    (polName : string) : M (option error) :=
  live ←ₘ gets (λ s, bool_decide (is_Some (orgMap s org !! polName)));
  if negb live then ret None
  else
    served ←ₘ gets (serveBusinessPolicy org polName);
    let need_delete :=
      negb (served && existsb (λ polId, bool_decide (GetId polId = polName))
                              (map_to_list definedPolicies).*1) in
    if need_delete then deleteBusinessPolicy org polName else ret None.

(** For each org that the agbot is supporting, take the set of business
    policies defined within the org and save them into the PolicyManager. *)
Definition UpdatePolicies (org : string) (definedPolicies : gmap string ExchangeBusinessPolicy)
    : M (option error) :=
  has ←ₘ gets (hasOrg org);
  (* Exit early on error *)
  if negb has then ret (Some (OrgNotFound org))
  else if bool_decide (size definedPolicies = 0) then deleteOrg org
  else
    names ←ₘ (s ←ₘ get; range (orgMap s org));
    r ←ₘ for_range (λ '(polName, _), prune org definedPolicies polName) names;
    match r with
    | Some e => ret (Some e)
    | None =>
        (* Now we just need to handle adding new business policies or update
           existing business policies *)
        defs ←ₘ range definedPolicies;
        for_range (λ '(polId, exPol), reconcile org polId exPol) defs
    end.

(** ** The vocabulary of the properties *)

(** The policy orgs that the triplets name. *)
Definition served_orgs (sps : gmap string ServedBusinessPolicy) : gset string :=
  list_to_set (BusinessPolOrg <$> (map_to_list sps).*2).

(** The triplets that serve policy [polName] of org [polOrg]. *)
Definition served_by (polOrg polName : string) (sp : ServedBusinessPolicy) : Prop :=
  BusinessPolOrg sp = polOrg ∧ (BusinessPol sp = polName ∨ BusinessPol sp = "*").

#[local] Instance served_by_dec polOrg polName sp : Decision (served_by polOrg polName sp).
Proof. unfold served_by. apply _. Defined.

(** The node org a triplet stands for under policy org [polOrg]. *)
Definition node_org_of (polOrg : string) (sp : ServedBusinessPolicy) : string :=
  if bool_decide (NodeOrg sp = "") then polOrg else NodeOrg sp.

(** The org a message is about. *)
Definition msg_org (m : Message) : string :=
  match m with
  | NewPolicyChangedMessage _ _ _ org _ => org
  | NewPolicyDeletedMessage _ _ _ org _ => org
  end.

(** The message, if any, that the deletion of entry [pe] of [org] sends. *)
Definition deleted_message (org : string) (pe : option BusinessPolicyEntry) : option Message :=
  pe ≫= λ pe, MarshalPolicy (Policy pe) ≫= λ policyString,
  Some (NewPolicyDeletedMessage DELETED_POLICY "" (Header_Name (Policy pe)) org policyString).

(** [s'] is [s] after the messages [evs] were sent and [n] draws made. *)
Definition sent (evs : list Message) (n : nat) (s : State) : State :=
  {| ServedPolicies := ServedPolicies s; OrgPolicies := OrgPolicies s; heap := heap s;
     eventChannel := eventChannel s ++ evs; tick := n + tick s |}.

(** Every policy map the manager refers to is allocated, and no two orgs
    share one. *)
Definition store_ok (s : State) : Prop :=
  (∀ org l, OrgPolicies s !! org = Some l → is_Some (heap s !! l))
  ∧ (∀ o1 o2 l, OrgPolicies s !! o1 = Some l → OrgPolicies s !! o2 = Some l → o1 = o2).

(** [s'] is [s] with more orgs, each of them with a new, empty policy map. *)
Definition grows (s s' : State) : Prop :=
  ServedPolicies s' = ServedPolicies s
  ∧ eventChannel s' = eventChannel s
  ∧ OrgPolicies s ⊆ OrgPolicies s'
  ∧ heap s ⊆ heap s'
  ∧ (∀ k l, OrgPolicies s !! k = None → OrgPolicies s' !! k = Some l →
       heap s !! l = None ∧ heap s' !! l = Some ∅)
  ∧ (∀ l m, heap s' !! l = Some m → heap s !! l = Some m ∨ m = ∅).

(** The messages about org [X] among [evs]. *)
Definition about (X : string) (evs : list Message) : list Message :=
  filter (λ m, msg_org m = X) evs.

(** The definitions name policy [polName]: some id resolves to it. *)
Definition defined (definedPolicies : gmap string ExchangeBusinessPolicy) (polName : string)
    : Prop :=
  ∃ polId, is_Some (definedPolicies !! polId) ∧ GetId polId = polName.

(** The message a detected change of the policy of [org] sends. *)
Definition changed_message (org : string) (newPol : policy_Policy) : option Message :=
  MarshalPolicy newPol ≫= λ policyString,
  Some (NewPolicyChangedMessage CHANGED_POLICY "" (Header_Name newPol) org policyString).

(** [pm.OrgPolicies[org][name] = pe] as a change of the store. *)
Definition stored (l : loc) (name : string) (pe : BusinessPolicyEntry) (s : State) : State :=
  set_heap <[l := <[name := Some pe]> (default ∅ (heap s !! l))]> s.

(** What the steps of [UpdatePolicies] on the org whose policy map is at [l]
    may change: messages are sent, and entries of that policy map are
    deleted or replaced by entries that are not nil. *)
Definition updates (l : loc) (s s' : State) : Prop :=
  ServedPolicies s' = ServedPolicies s
  ∧ OrgPolicies s' = OrgPolicies s
  ∧ (∃ evs, eventChannel s' = eventChannel s ++ evs)
  ∧ (∀ l', l' ≠ l → heap s' !! l' = heap s !! l')
  ∧ (is_Some (heap s !! l) → is_Some (heap s' !! l))
  ∧ (∀ n, default ∅ (heap s' !! l) !! n = Some None →
          default ∅ (heap s !! l) !! n = Some None).

(** The invariant of the manager: the store is well formed, only served
    orgs are tracked, and no cached entry is nil. *)
Definition wf (s : State) : Prop :=
  store_ok s
  ∧ dom (OrgPolicies s) ⊆ served_orgs (ServedPolicies s)
  ∧ (∀ l m n, heap s !! l = Some m → m !! n ≠ Some None).

(** A client that holds the entry cached as [name] in the policy map at [l]
    may change its service policies through the two methods of the entry. *)
Inductive service_policies_changed (pe : BusinessPolicyEntry) : BusinessPolicyEntry → Prop :=
  | changed_by_AddServicePolicy svcPolicy svcId now :
      service_policies_changed pe (AddServicePolicy pe svcPolicy svcId now).1
  | changed_by_DeleteAllServicePolicies org :
      service_policies_changed pe (DeleteAllServicePolicies pe org).

(** The states the manager is in after any sequence of calls, from the
    state [NewPolicyManager] leaves, as long as the caller does not write to
    a map of triplets it has handed over. *)
Inductive reachable : State → Prop :=
  | reach_NewPolicyManager : reachable NewPolicyManager
  | reach_SetCurrentBusinessPolicies servedPols s :
      reachable s → reachable (SetCurrentBusinessPolicies servedPols s).2
  | reach_UpdatePolicies org definedPolicies s :
      reachable s → reachable (UpdatePolicies org definedPolicies s).2
  | reach_GetServedNodeOrgs polOrg polName s :
      reachable s → reachable (GetServedNodeOrgs polOrg polName s).2
  | reach_GetAllPolicyOrgs s :
      reachable s → reachable (GetAllPolicyOrgs s).2
  | reach_service_policies org l name pe pe' s :
      reachable s → OrgPolicies s !! org = Some l →
      orgMap s org !! name = Some (Some pe) → service_policies_changed pe pe' →
      reachable (stored l name pe' s).

(** The states the manager is in after any sequence of calls and of writes
    of the caller to the map of triplets.  (A write needs a map that was
    handed over; the relation allows it in every state, which makes the
    properties of all these states hold of more states than the code
    reaches, never of fewer.) *)
Inductive reachable_shared : State → Prop :=
  | shared_NewPolicyManager : reachable_shared NewPolicyManager
  | shared_SetCurrentBusinessPolicies servedPols s :
      reachable_shared s → reachable_shared (SetCurrentBusinessPolicies servedPols s).2
  | shared_UpdatePolicies org definedPolicies s :
      reachable_shared s → reachable_shared (UpdatePolicies org definedPolicies s).2
  | shared_GetServedNodeOrgs polOrg polName s :
      reachable_shared s → reachable_shared (GetServedNodeOrgs polOrg polName s).2
  | shared_GetAllPolicyOrgs s :
      reachable_shared s → reachable_shared (GetAllPolicyOrgs s).2
  | shared_service_policies org l name pe pe' s :
      reachable_shared s → OrgPolicies s !! org = Some l →
      orgMap s org !! name = Some (Some pe) → service_policies_changed pe pe' →
      reachable_shared (stored l name pe' s)
  | shared_caller_writes servedPols s :
      reachable_shared s → reachable_shared (caller_writes servedPols s).

(** No cached entry is nil. *)
Definition no_nil (s : State) : Prop :=
  ∀ l m n, heap s !! l = Some m → m !! n ≠ Some None.

(** Every tracked org is the policy org of a served triplet. *)
Definition tracked_served (s : State) : Prop :=
  dom (OrgPolicies s) ⊆ served_orgs (ServedPolicies s).

(** [SetCurrentBusinessPolicies] finds nothing to do and returns at once:
    the manager's triplets and the new ones are both empty. *)
Definition early_exit (servedPols : gmap string ServedBusinessPolicy) (s : State) : Prop :=
  ServedPolicies s = ∅ ∧ servedPols = ∅.

(** The deletion message of a cached entry whose policy marshals. *)
Definition deletion_of (org : string) (ev : Message)
    (cached : string * option BusinessPolicyEntry) : Prop :=
  ∃ pe policyString,
    cached.2 = Some pe ∧ MarshalPolicy (Policy pe) = Some policyString
    ∧ ev = NewPolicyDeletedMessage DELETED_POLICY "" (Header_Name (Policy pe)) org policyString.

(** A definition that leaves the manager as it is: the agent does not serve
    it, or it hashes to the hash of the entry cached under its name. *)
Definition quiet (org : string) (s : State) (polId : string) (exPol : ExchangeBusinessPolicy)
    : Prop :=
  serveBusinessPolicy org (GetId polId) s = true →
  ∃ pe, orgMap s org !! GetId polId = Some (Some pe)
        ∧ hashPolicy (GetBusinessPolicy exPol) = Ok (Hash pe).

(** [G] records a definition for the policy names of an org.  The cache
    reflects [G] when the hash of every cached entry is the hash of the
    definition recorded for its name. *)
Definition reflects (G : gmap string BusinessPolicy)
    (m : gmap string (option BusinessPolicyEntry)) : Prop :=
  ∀ n pe, m !! n = Some (Some pe) → ∃ d, G !! n = Some d ∧ hashPolicy d = Ok (Hash pe).

(** The record of the definitions presented last, after the loop over the
    definitions has handled [def].  A definition is presented when the agent
    serves its policy and it can be hashed: it is recorded whether the
    manager then accepts it (validates and converts it into the policy of
    the entry) or rejects it. *)
Definition present (org : string) (s : State) (G : gmap string BusinessPolicy)
    (def : string * ExchangeBusinessPolicy) : gmap string BusinessPolicy :=
  let pol := GetBusinessPolicy def.2 in
  if serveBusinessPolicy org (GetId def.1) s then
    match hashPolicy pol with
    | Ok _ => <[GetId def.1 := pol]> G
    | Err _ => G
    end
  else G.

(** The cache of [org] only loses entries. *)
Definition shrinks (org : string) (s s' : State) : Prop :=
  ServedPolicies s' = ServedPolicies s
  ∧ OrgPolicies s' = OrgPolicies s
  ∧ orgMap s' org ⊆ orgMap s org.

(** The policy is served and defined: the first loop of [UpdatePolicies]
    keeps it. *)
Definition kept (org : string) (definedPolicies : gmap string ExchangeBusinessPolicy)
    (s : State) (polName : string) : Prop :=
  serveBusinessPolicy org polName s = true ∧ defined definedPolicies polName.

(** Message [m] announces the policy that a served definition converts to. *)
Definition change_of (org : string) (definedPolicies : gmap string ExchangeBusinessPolicy)
    (s : State) (m : Message) : Prop :=
  ∃ polId exPol newPol,
    definedPolicies !! polId = Some exPol
    ∧ serveBusinessPolicy org (GetId polId) s = true
    ∧ Validate (GetBusinessPolicy exPol) = true
    ∧ GenPolicyFromBusinessPolicy (GetBusinessPolicy exPol) polId = Some newPol
    ∧ changed_message org newPol = Some m.

(** The steps of the second loop of [UpdatePolicies] send change messages
    only. *)
Definition announces (org : string) (definedPolicies : gmap string ExchangeBusinessPolicy)
    (s s' : State) : Prop :=
  ServedPolicies s' = ServedPolicies s
  ∧ OrgPolicies s' = OrgPolicies s
  ∧ ∃ chgs, eventChannel s' = eventChannel s ++ chgs
            ∧ Forall (change_of org definedPolicies s) chgs.

(** Every entry cached for [org] in [s'] is the entry cached under its name
    in [s], or an entry without service policies. *)
Definition keeps_or_renews (org : string) (s s' : State) : Prop :=
  OrgPolicies s' = OrgPolicies s
  ∧ ∀ n pe', orgMap s' org !! n = Some (Some pe') →
      orgMap s org !! n = Some (Some pe') ∨ ServicePolicies pe' = ∅.

(** The steps of the second loop of [UpdatePolicies] remove no policy from
    the cache of [org], and add served and defined policies only. *)
Definition caches_kept (org : string) (definedPolicies : gmap string ExchangeBusinessPolicy)
    (s s' : State) : Prop :=
  ServedPolicies s' = ServedPolicies s
  ∧ OrgPolicies s' = OrgPolicies s
  ∧ (∀ n, is_Some (orgMap s org !! n) → is_Some (orgMap s' org !! n))
  ∧ ∀ n, is_Some (orgMap s' org !! n) →
      is_Some (orgMap s org !! n) ∨ kept org definedPolicies s n.

(** Message [m] announces the policy that a definition converts to, and an
    entry was cached in [s] under the name of the definition, with another
    hash than the hash of the definition. *)
Definition redefinition_of (org : string) (definedPolicies : gmap string ExchangeBusinessPolicy)
    (s : State) (m : Message) : Prop :=
  ∃ polId exPol newPol pe,
    definedPolicies !! polId = Some exPol
    ∧ orgMap s org !! GetId polId = Some (Some pe)
    ∧ hashPolicy (GetBusinessPolicy exPol) ≠ Ok (Hash pe)
    ∧ GenPolicyFromBusinessPolicy (GetBusinessPolicy exPol) polId = Some newPol
    ∧ changed_message org newPol = Some m.

(** Message [m] is the deletion message of an entry cached in [s]. *)
Definition deletion_in (org : string) (s : State) (m : Message) : Prop :=
  ∃ n x, orgMap s org !! n = Some x ∧ deleted_message org x = Some m.

(** The definition cannot be ingested: it does not hash, does not validate
    or does not convert. *)
Definition unusable (polId : string) (exPol : ExchangeBusinessPolicy) : Prop :=
  (∃ err, hashPolicy (GetBusinessPolicy exPol) = Err err)
  ∨ Validate (GetBusinessPolicy exPol) = false
  ∨ GenPolicyFromBusinessPolicy (GetBusinessPolicy exPol) polId = None.

(** ** Reasoning about computations *)

(** Every enumeration order is a permutation of the map's entries. *)
Hypothesis shuffle_perm : ∀ n (A : Type) (l : list A), shuffle n A l ≡ₚ l.

Ltac munfold :=
  unfold setServedBusinessPolicies, send, store_entry, time_Now, range,
    make_policy_map in *;
  unfold bind, ret, get, gets, modify in *.

Lemma for_range_app {A} (body : A → M (option error)) l1 l2 s :
  for_range body (l1 ++ l2) s =
  match for_range body l1 s with
  | (Some e, s') => (Some e, s')
  | (None, s') => for_range body l2 s'
  end.
Proof.
  revert s. induction l1 as [|x l1 IH]; intros s; simpl; [done|].
  destruct (body x s) as [[e|] s']; [done|]. apply IH.
Qed.

(** A loop whose body does nothing on any element does nothing. *)
Lemma for_range_skip {A} (body : A → M (option error)) l s :
  (∀ x, x ∈ l → body x s = (None, s)) → for_range body l s = (None, s).
Proof.
  induction l as [|x l IH]; intros Hb; simpl; [done|].
  rewrite Hb by apply list_elem_of_here. apply IH. intros y Hy. apply Hb.
  by apply list_elem_of_further.
Qed.

Lemma hasOrg_true org s : hasOrg org s = true ↔ is_Some (OrgPolicies s !! org).
Proof. unfold hasOrg. by rewrite bool_decide_eq_true. Qed.

Lemma hasOrg_false org s : hasOrg org s = false ↔ OrgPolicies s !! org = None.
Proof. unfold hasOrg. by rewrite bool_decide_eq_false, eq_None_not_Some. Qed.

Lemma hasOrg_dom org s : hasOrg org s = true ↔ org ∈ dom (OrgPolicies s).
Proof. by rewrite hasOrg_true, elem_of_dom. Qed.

(** ** Served triplets *)

Lemma serveOrg_spec polOrg s :
  serveOrg polOrg s = true ↔ polOrg ∈ served_orgs (ServedPolicies s).
Proof.
  unfold serveOrg, served_orgs. rewrite existsb_exists, elem_of_list_to_set, list_elem_of_fmap.
  split.
  - intros (sp & Hin & Heq). apply bool_decide_eq_true in Heq.
    exists sp. split; [done|]. by apply list_elem_of_In.
  - intros (sp & -> & Hin). exists sp. split; [by apply list_elem_of_In|].
    by apply bool_decide_eq_true.
Qed.

Lemma serveBusinessPolicy_spec polOrg polName s :
  serveBusinessPolicy polOrg polName s = true ↔
  ∃ k sp, ServedPolicies s !! k = Some sp ∧ BusinessPolOrg sp = polOrg ∧
          (BusinessPol sp = polName ∨ BusinessPol sp = "*").
Proof.
  unfold serveBusinessPolicy, serves. rewrite existsb_exists. split.
  - intros (sp & Hin & Heq). apply list_elem_of_In, list_elem_of_fmap in Hin.
    destruct Hin as ([k sp'] & -> & Hin). apply elem_of_map_to_list in Hin.
    apply andb_true_iff in Heq as [H1 H2]. apply bool_decide_eq_true in H1.
    apply orb_true_iff in H2. rewrite !bool_decide_eq_true in H2. eauto.
  - intros (k & sp & Hk & Ho & Hn). exists sp. split.
    + apply list_elem_of_In, list_elem_of_fmap. exists (k, sp). split; [done|].
      by apply elem_of_map_to_list.
    + apply andb_true_iff. split; [by apply bool_decide_eq_true|].
      apply orb_true_iff. rewrite !bool_decide_eq_true. done.
Qed.

Lemma serves_spec polOrg polName sp :
  serves polOrg polName sp = true ↔ served_by polOrg polName sp.
Proof.
  unfold serves, served_by.
  by rewrite andb_true_iff, orb_true_iff, !bool_decide_eq_true.
Qed.

Lemma node_orgs_fold polOrg polName (sps : list (string * ServedBusinessPolicy)) acc :
  foldl (λ node_orgs '(_, sp),
     if serves polOrg polName sp then
       let node_org := NodeOrg sp in
       let node_org := if bool_decide (node_org = "") then BusinessPolOrg sp else node_org in
       node_orgs ++ [node_org]
     else node_orgs) acc sps
  = acc ++ (node_org_of polOrg <$> filter (served_by polOrg polName) sps.*2).
Proof.
  revert acc. induction sps as [|[k sp] sps IH]; intros acc; simpl.
  - by rewrite app_nil_r.
  - rewrite IH, filter_cons. destruct (serves polOrg polName sp) eqn:Hs.
    + apply serves_spec in Hs as Hs'. rewrite decide_True by done.
      destruct Hs' as [-> _]. by rewrite fmap_cons, <- app_assoc.
    + rewrite decide_False; [done|]. rewrite <- serves_spec. congruence.
Qed.

(** ** Deleting policies and orgs *)

Lemma deleted_message_org org pe m : deleted_message org pe = Some m → msg_org m = org.
Proof.
  unfold deleted_message. destruct pe as [pe|]; simpl; [|done].
  destruct (MarshalPolicy (Policy pe)); simpl; [|done]. by intros [= <-].
Qed.

Lemma sent_nil s : sent [] 0 s = s.
Proof. destruct s. unfold sent. simpl. by rewrite app_nil_r. Qed.

Lemma sent_sent evs1 n1 evs2 n2 s :
  sent evs2 n2 (sent evs1 n1 s) = sent (evs1 ++ evs2) (n2 + n1) s.
Proof. unfold sent. simpl. f_equal; [by rewrite app_assoc | lia]. Qed.

Lemma send_deleted_spec org pe s :
  send_deleted org pe s = (tt, sent (option_list (deleted_message org pe)) 0 s).
Proof.
  unfold send_deleted, deleted_message. destruct pe as [pe|]; simpl.
  - destruct (MarshalPolicy (Policy pe)); simpl; munfold; [done|]. by rewrite sent_nil.
  - munfold. by rewrite sent_nil.
Qed.

Lemma send_all_deleted org (ps : list (string * option BusinessPolicyEntry)) s :
  for_range (λ '(polName, pe), send_deleted org pe ;;ₘ ret None) ps s
  = (None, sent (omap (deleted_message org) ps.*2) 0 s).
Proof.
  revert s. induction ps as [|[n pe] ps IH]; intros s; simpl.
  - munfold. by rewrite sent_nil.
  - unfold bind at 1. rewrite send_deleted_spec. unfold ret at 1.
    rewrite IH, sent_sent. simpl. by destruct (deleted_message org pe).
Qed.

(** What [deleteOrg] does: it sends the deletion message of every entry of
    the org that has one, in the order of its enumeration, and drops the key. *)
Lemma deleteOrg_spec org s :
  ∃ evs n,
    deleteOrg org s = (None, set_OrgPolicies (delete org) (sent evs n s))
    ∧ evs ≡ₚ omap (deleted_message org) (map_to_list (orgMap s org)).*2.
Proof.
  pose proof send_all_deleted as Hsend.
  unfold deleteOrg, orgMap. munfold. unfold hasOrg.
  destruct (OrgPolicies s !! org) as [l|] eqn:Hl.
  - rewrite Hsend. simpl. rewrite Hl.
    rewrite bool_decide_eq_true_2 by eauto.
    eexists _, 1. split; [reflexivity|].
    apply omap_Permutation, fmap_Permutation, shuffle_perm.
  - simpl. rewrite Hl. rewrite bool_decide_eq_false_2 by (by intros [? ?]).
    exists [], 0. split; [|by rewrite map_to_list_empty].
    destruct s. simpl in *. rewrite app_nil_r. by rewrite delete_id.
Qed.

(** What [deleteBusinessPolicy] does to a policy that is cached. *)
Lemma deleteBusinessPolicy_cached org polName l pe s :
  OrgPolicies s !! org = Some l → orgMap s org !! polName = Some pe →
  deleteBusinessPolicy org polName s
  = (None, set_heap <[l := delete polName (orgMap s org)]>
             (sent (option_list (deleted_message org pe)) 0 s)).
Proof.
  intros Hl Hpe. unfold deleteBusinessPolicy. unfold bind, get, hasOrg.
  rewrite Hl, Hpe. rewrite bool_decide_eq_true_2 by eauto.
  rewrite send_deleted_spec. by munfold.
Qed.

(** ** Replacing the served triplets *)

Lemma grows_refl s : grows s s.
Proof.
  split; [done|]. split; [done|]. split; [done|]. split; [done|].
  split; [congruence|]. eauto.
Qed.

Lemma grows_trans s1 s2 s3 : grows s1 s2 → grows s2 s3 → grows s1 s3.
Proof.
  intros (Hs1 & He1 & Ho1 & Hh1 & Hn1 & Hm1) (Hs2 & He2 & Ho2 & Hh2 & Hn2 & Hm2).
  split; [congruence|]. split; [congruence|].
  split; [by etrans|]. split; [by etrans|].
  split; [|intros l m Hl; destruct (Hm2 l m Hl); eauto].
  intros k l Hk1 Hk3. destruct (OrgPolicies s2 !! k) as [l'|] eqn:Hk2.
  - assert (l' = l) as ->.
    { eapply lookup_weaken in Hk2; [|exact Ho2]. congruence. }
    destruct (Hn1 k l Hk1 Hk2) as [Hf He]. split; [done|].
    by eapply lookup_weaken.
  - destruct (Hn2 k l Hk2 Hk3) as [Hf He]. split; [|done].
    destruct (heap s1 !! l) eqn:Hl; [|done].
    eapply lookup_weaken in Hl; [|exact Hh1]. congruence.
Qed.

Lemma add_served_org_spec served s :
  store_ok s →
  ∃ s', add_served_org served s = (None, s') ∧ grows s s' ∧ store_ok s'
        ∧ dom (OrgPolicies s') = dom (OrgPolicies s) ∪ {[BusinessPolOrg served]}.
Proof.
  intros [Halloc Hinj]. unfold add_served_org. munfold.
  destruct (hasOrg (BusinessPolOrg served) s) eqn:Hh; simpl.
  - exists s. split; [done|]. split; [apply grows_refl|]. split; [done|].
    apply hasOrg_dom in Hh. set_solver.
  - apply hasOrg_false in Hh.
    pose proof (is_fresh (dom (heap s))) as Hfresh.
    apply not_elem_of_dom in Hfresh.
    set (l := fresh (dom (heap s))) in *.
    eexists. split; [reflexivity|]. simpl.
    split; [|split].
    + split; [done|]. split; [done|]. simpl.
      split; [by apply insert_subseteq|]. split; [by apply insert_subseteq|].
      split.
      * intros k l' Hk Hk'. rewrite lookup_insert in Hk'. case_decide; [|congruence].
        injection Hk' as <-. by rewrite lookup_insert_eq.
      * intros l' m. rewrite lookup_insert. case_decide; [|eauto].
        intros [= <-]. by right.
    + split; simpl.
      * intros org l' Ho. rewrite lookup_insert in Ho. case_decide.
        -- injection Ho as <-. rewrite lookup_insert_eq. eauto.
        -- apply Halloc in Ho. rewrite lookup_insert_ne; [done|].
           intros <-. rewrite Hfresh in Ho. by destruct Ho.
      * intros o1 o2 l' Ha Hb. rewrite lookup_insert in Ha, Hb.
        destruct (decide (BusinessPolOrg served = o1)) as [E1|E1],
                 (decide (BusinessPolOrg served = o2)) as [E2|E2].
        -- congruence.
        -- injection Ha as <-. apply Halloc in Hb. rewrite Hfresh in Hb. by destruct Hb.
        -- injection Hb as <-. apply Halloc in Ha. rewrite Hfresh in Ha. by destruct Ha.
        -- by eapply Hinj.
    + by rewrite dom_insert_L, (comm_L (∪)).
Qed.

Lemma add_orgs_spec (sps : list (string * ServedBusinessPolicy)) s :
  store_ok s →
  ∃ s', for_range (λ '(_, served), add_served_org served) sps s = (None, s')
        ∧ grows s s' ∧ store_ok s'
        ∧ dom (OrgPolicies s')
          = dom (OrgPolicies s) ∪ list_to_set (BusinessPolOrg <$> sps.*2).
Proof.
  revert s. induction sps as [|[k served] sps IH]; intros s Hok; simpl.
  - exists s. split; [done|]. split; [apply grows_refl|]. split; [done|]. set_solver.
  - destruct (add_served_org_spec served s Hok) as (s1 & -> & Hg1 & Hok1 & Hd1).
    destruct (IH s1 Hok1) as (s' & -> & Hg & Hok' & Hd).
    exists s'. split; [done|]. split; [by eapply grows_trans|]. split; [done|].
    rewrite Hd, Hd1. set_solver.
Qed.

#[local] Instance about_Permutation X : Proper ((≡ₚ) ==> (≡ₚ)) (about X).
Proof. intros l1 l2 Hl. unfold about. by rewrite Hl. Qed.

Lemma about_app X evs1 evs2 : about X (evs1 ++ evs2) = about X evs1 ++ about X evs2.
Proof. unfold about. apply filter_app. Qed.

Lemma about_deleted X org (pes : list (option BusinessPolicyEntry)) :
  about X (omap (deleted_message org) pes)
  = if decide (X = org) then omap (deleted_message org) pes else [].
Proof.
  unfold about. induction pes as [|pe pes IH]; simpl; [by case_decide|].
  destruct (deleted_message org pe) as [m|] eqn:Hm; [|done].
  apply deleted_message_org in Hm.
  change (list_omap _ _ (deleted_message org) pes) with (omap (deleted_message org) pes).
  rewrite filter_cons, IH.
  repeat case_decide; simplify_eq; done.
Qed.

Lemma drop_unserved_org_spec org s :
  (hasOrg org s = true ∧ serveOrg org s = false ∧
   ∃ evs n, drop_unserved_org org s = (None, set_OrgPolicies (delete org) (sent evs n s))
     ∧ evs ≡ₚ omap (deleted_message org) (map_to_list (orgMap s org)).*2)
  ∨ ((hasOrg org s = false ∨ serveOrg org s = true) ∧ drop_unserved_org org s = (None, s)).
Proof.
  unfold drop_unserved_org, bind, gets, ret.
  destruct (hasOrg org s) eqn:Hh; simpl; [|right; eauto].
  destruct (serveOrg org s) eqn:Hs; simpl; [right; eauto|].
  left. split; [done|]. split; [done|]. apply deleteOrg_spec.
Qed.

Lemma orgMap_frame s s' org :
  OrgPolicies s' !! org = OrgPolicies s !! org → heap s' = heap s →
  orgMap s' org = orgMap s org.
Proof. unfold orgMap. by intros -> ->. Qed.

(** The loop over the orgs deletes the orgs it visits that are not served,
    and sends for each of them the deletion messages of its entries. *)
Lemma drop_unserved_orgs_spec (ks : list (string * loc)) s :
  ∃ s' evs,
    for_range (λ '(org, _), drop_unserved_org org) ks s = (None, s')
    ∧ ServedPolicies s' = ServedPolicies s
    ∧ heap s' = heap s
    ∧ eventChannel s' = eventChannel s ++ evs
    ∧ (∀ k, OrgPolicies s' !! k =
            if decide (k ∈ ks.*1 ∧ k ∉ served_orgs (ServedPolicies s))
            then None else OrgPolicies s !! k)
    ∧ (∀ X, about X evs ≡ₚ
            if decide (X ∈ ks.*1 ∧ is_Some (OrgPolicies s !! X)
                       ∧ X ∉ served_orgs (ServedPolicies s))
            then omap (deleted_message X) (map_to_list (orgMap s X)).*2 else []).
Proof.
  revert s. induction ks as [|[org l] ks IH]; intros s; simpl.
  - exists s, []. rewrite app_nil_r. repeat split; done.
  - destruct (drop_unserved_org_spec org s)
      as [(Hh & Hs & evs1 & n & -> & Hevs1)|(Hcase & ->)].
    + destruct (IH (set_OrgPolicies (delete org) (sent evs1 n s)))
        as (s' & evs & -> & Hsp & Hhp & Hch & Hop & Hev).
      simpl in *. apply hasOrg_true in Hh.
      assert (org ∉ served_orgs (ServedPolicies s)) as Hns.
      { rewrite <- serveOrg_spec. congruence. }
      exists s', (evs1 ++ evs). split; [done|]. split; [done|]. split; [done|].
      split; [by rewrite Hch, app_assoc|]. split.
      * intros k. rewrite Hop.
        destruct (decide (k = org)) as [->|Hne];
          [rewrite lookup_delete_eq | rewrite lookup_delete_ne by done];
          repeat case_decide; try done; exfalso; set_solver.
      * intros X. rewrite about_app, Hevs1, about_deleted, (Hev X).
        destruct (decide (X = org)) as [->|Hne].
        -- rewrite lookup_delete_eq.
           rewrite (decide_False (P:=_ ∧ is_Some None ∧ _)).
           2:{ intros (_ & [? ?] & _). done. }
           rewrite decide_True by set_solver. by rewrite app_nil_r.
        -- rewrite lookup_delete_ne by done. simpl.
           rewrite (orgMap_frame s _ X); [| |done].
           2:{ simpl. by rewrite lookup_delete_ne. }
           repeat case_decide; try done; exfalso; set_solver.
    + destruct (IH s) as (s' & evs & -> & Hsp & Hhp & Hch & Hop & Hev).
      exists s', evs. split; [done|]. split; [done|]. split; [done|]. split; [done|].
      assert (OrgPolicies s !! org = None ∨ org ∈ served_orgs (ServedPolicies s)) as Hc.
      { destruct Hcase as [Hc|Hc]; [left; by apply hasOrg_false|right; by apply serveOrg_spec]. }
      split.
      * intros k. rewrite Hop.
        repeat case_decide; try done; [exfalso; set_solver|].
        destruct (decide (k = org)) as [->|Hne]; [|exfalso; set_solver].
        destruct Hc as [Hc|Hc]; [done|]. exfalso; set_solver.
      * intros X. rewrite Hev.
        repeat case_decide; try done; exfalso; [set_solver|].
        destruct (decide (X = org)) as [->|Hne]; [|set_solver].
        destruct Hc as [Hc|Hc]; [|set_solver].
        rewrite Hc in *. naive_solver.
Qed.

Lemma served_orgs_elem org sps :
  org ∈ served_orgs sps ↔ ∃ k sp, sps !! k = Some sp ∧ BusinessPolOrg sp = org.
Proof.
  unfold served_orgs. rewrite elem_of_list_to_set, list_elem_of_fmap. split.
  - intros (sp & -> & Hin). apply list_elem_of_fmap in Hin as ([k sp'] & -> & Hin).
    apply elem_of_map_to_list in Hin. eauto.
  - intros (k & sp & Hk & <-). exists sp. split; [done|].
    apply list_elem_of_fmap. exists (k, sp). split; [done|]. by apply elem_of_map_to_list.
Qed.

Lemma served_orgs_shuffle n (sps : gmap string ServedBusinessPolicy) :
  list_to_set (C:=gset string) (BusinessPolOrg <$> (shuffle n _ (map_to_list sps)).*2)
  = served_orgs sps.
Proof.
  unfold served_orgs. apply set_eq. intros org.
  rewrite !elem_of_list_to_set. by rewrite shuffle_perm.
Qed.

Lemma SetCurrentBusinessPolicies_nothing_to_do servedPols s :
  ServedPolicies s = ∅ → servedPols = ∅ →
  SetCurrentBusinessPolicies servedPols s = (None, s).
Proof.
  intros Hs ->. unfold SetCurrentBusinessPolicies. munfold. by rewrite Hs, map_size_empty.
Qed.

(** The statement under "Create a new map of maps" changes nothing: the
    map it replaces is empty. *)
Lemma create_map_of_maps_noop s :
  (if bool_decide (size (OrgPolicies s) = 0)
   then modify (set_OrgPolicies (λ _, ∅)) else ret tt) s = (tt, s).
Proof.
  case_bool_decide as Hz; [|done]. apply map_size_empty_iff in Hz.
  unfold modify. destruct s. simpl in *. by rewrite Hz.
Qed.

(** What a replacement of the served triplets does when it does not leave
    early. *)
Lemma SetCurrentBusinessPolicies_spec servedPols s :
  store_ok s → ¬ (ServedPolicies s = ∅ ∧ servedPols = ∅) →
  ∃ s' evs,
    SetCurrentBusinessPolicies servedPols s = (None, s')
    ∧ ServedPolicies s' = servedPols
    ∧ store_ok s'
    ∧ heap s ⊆ heap s'
    ∧ dom (OrgPolicies s') = served_orgs servedPols
    ∧ (∀ k l, OrgPolicies s !! k = Some l → k ∈ served_orgs servedPols →
              OrgPolicies s' !! k = Some l)
    ∧ (∀ k l, OrgPolicies s !! k = None → OrgPolicies s' !! k = Some l →
              heap s !! l = None ∧ heap s' !! l = Some ∅)
    ∧ (∀ l m, heap s' !! l = Some m → heap s !! l = Some m ∨ m = ∅)
    ∧ eventChannel s' = eventChannel s ++ evs
    ∧ (∀ X, about X evs ≡ₚ
            if decide (is_Some (OrgPolicies s !! X) ∧ X ∉ served_orgs servedPols)
            then omap (deleted_message X) (map_to_list (orgMap s X)).*2 else []).
Proof.
  intros Hok Hne.
  pose proof create_map_of_maps_noop as Hnoop.
  unfold SetCurrentBusinessPolicies. munfold.
  destruct (bool_decide (size (ServedPolicies s) = 0) && bool_decide (size servedPols = 0))
    eqn:Hb.
  { apply andb_true_iff in Hb as [H1 H2]. apply bool_decide_eq_true in H1, H2.
    apply map_size_empty_iff in H1, H2. tauto. }
  clear Hb Hne. cbv beta iota zeta. rewrite Hnoop. clear Hnoop.
  set (sb := set_ServedPolicies (λ _, servedPols) s).
  assert (ServedPolicies sb = servedPols ∧ OrgPolicies sb = OrgPolicies s
          ∧ heap sb = heap s ∧ eventChannel sb = eventChannel s) as (Hb1 & Hb2 & Hb3 & Hb4).
  { done. }
  assert (store_ok (set_tick S sb)) as Hokb.
  { destruct Hok as [Ha Hi]. split; simpl; eauto. }
  destruct (add_orgs_spec (shuffle (tick sb) _ (map_to_list servedPols)) _ Hokb)
    as (s1 & Hrun1 & (Hg1 & Hg2 & Hg3 & Hg4 & Hg5 & Hg6) & Hok1 & Hdom1).
  rewrite served_orgs_shuffle in Hdom1.
  destruct (drop_unserved_orgs_spec
              (shuffle (tick s1) _ (map_to_list (OrgPolicies s1))) (set_tick S s1))
    as (s' & evs & Hrun2 & Hsp & Hhp & Hch & Hop & Hev).
  exists s', evs.
  split.
  { by rewrite Hrun1, Hrun2. }
  clear Hrun1 Hrun2. clearbody sb.
  simpl in *. rewrite Hg1, Hb1 in *.
  assert (∀ k, k ∈ (shuffle (tick s1) _ (map_to_list (OrgPolicies s1))).*1
               ↔ k ∈ dom (OrgPolicies s1)) as Hks.
  { intros k. rewrite shuffle_perm, elem_of_dom, list_elem_of_fmap. split.
    - intros ([k' l] & -> & Hin). apply elem_of_map_to_list in Hin. eauto.
    - intros [l Hl]. exists (k, l). split; [done|]. by apply elem_of_map_to_list. }
  split; [done|]. split.
  { destruct Hok1 as [Ha Hi]. split.
    - intros org l. rewrite Hop, Hhp. case_decide; [done|]. apply Ha.
    - intros o1 o2 l. rewrite !Hop. repeat case_decide; try done. apply Hi. }
  split; [by rewrite Hhp, <- Hb3|]. split.
  { apply set_eq. intros k. rewrite elem_of_dom, Hop.
    case_decide as Hc; rewrite Hks in Hc.
    - split; [by intros [? ?]|tauto].
    - rewrite <- elem_of_dom, Hdom1, Hb2. rewrite Hdom1, Hb2 in Hc.
      rewrite elem_of_union in *.
      destruct (decide (k ∈ served_orgs servedPols)); tauto. }
  split.
  { intros k l Hk Hin. rewrite Hop. rewrite decide_False by tauto.
    eapply lookup_weaken; [|exact Hg3]. by rewrite Hb2. }
  split.
  { intros k l Hk. rewrite Hop. case_decide; [done|]. intros Hl.
    rewrite <- Hb3, Hhp. apply (Hg5 k); [by rewrite Hb2|done]. }
  split.
  { intros l m. rewrite Hhp, <- Hb3. apply Hg6. }
  split; [by rewrite Hch, Hg2, Hb4|].
  intros X. rewrite Hev.
  assert (is_Some (OrgPolicies s !! X) → orgMap (set_tick S s1) X = orgMap s X) as Hm.
  { intros [l Hl]. unfold orgMap. simpl. rewrite Hl.
    destruct Hok as [Ha _]. destruct (Ha X l Hl) as [m Hm].
    rewrite <- Hb2 in Hl. eapply lookup_weaken in Hl; [|exact Hg3]. rewrite Hl.
    rewrite Hm. rewrite <- Hb3 in Hm. eapply lookup_weaken in Hm; [|exact Hg4].
    by rewrite Hm. }
  rewrite <- Hb2 in Hm. simpl in Hm. rewrite ?Hg1, ?Hb1 in Hm.
  assert (∀ k, is_Some (OrgPolicies sb !! k) → is_Some (OrgPolicies s1 !! k)) as Hmono.
  { intros k [l Hl]. exists l. by eapply lookup_weaken. }
  clear Hop Hev Hg6 Hg5 Hg4 Hg3 Hokb Hok1.
  destruct (decide (_ ∧ is_Some (OrgPolicies s1 !! X) ∧ _)) as [(H1 & H2 & H3)|Hn1];
    destruct (decide (is_Some (OrgPolicies s !! X) ∧ _)) as [(H4 & H5)|Hn2]; try done.
  - rewrite <- Hb2 in H4. by rewrite Hm.
  - exfalso. apply Hn2. split; [|done]. rewrite <- Hb2. apply elem_of_dom.
    apply elem_of_dom in H2. rewrite Hdom1, elem_of_union in H2. tauto.
  - exfalso. apply Hn1. rewrite <- Hb2 in H4. apply Hmono in H4.
    rewrite Hks, elem_of_dom. done.
Qed.

(** ** Updating the policies of an org *)

Lemma defined_spec definedPolicies polName :
  existsb (λ polId, bool_decide (GetId polId = polName)) (map_to_list definedPolicies).*1 = true
  ↔ defined definedPolicies polName.
Proof.
  unfold defined. rewrite existsb_exists. split.
  - intros (polId & Hin & Heq). apply bool_decide_eq_true in Heq.
    apply list_elem_of_In, list_elem_of_fmap in Hin as ([k ex] & -> & Hin).
    apply elem_of_map_to_list in Hin. eauto.
  - intros (polId & [ex Hex] & Heq). exists polId. split.
    + apply list_elem_of_In, list_elem_of_fmap. exists (polId, ex). split; [done|].
      by apply elem_of_map_to_list.
    + by apply bool_decide_eq_true.
Qed.

(** [prune] leaves a policy that is served and defined. *)
Lemma prune_keeps org definedPolicies polName s :
  serveBusinessPolicy org polName s = true → defined definedPolicies polName →
  prune org definedPolicies polName s = (None, s).
Proof.
  intros Hs Hd. apply defined_spec in Hd. unfold prune. munfold.
  destruct (bool_decide _); simpl; [|done]. by rewrite Hs, Hd.
Qed.

(** [prune] does not visit a policy that is not cached any more. *)
Lemma prune_gone org definedPolicies polName s :
  orgMap s org !! polName = None → prune org definedPolicies polName s = (None, s).
Proof.
  intros Hn. unfold prune. munfold. rewrite Hn.
  by rewrite bool_decide_eq_false_2 by (by intros [? ?]).
Qed.

(** [prune] deletes a cached policy that is not served or not defined. *)
Lemma prune_deletes org definedPolicies polName l pe s :
  OrgPolicies s !! org = Some l → orgMap s org !! polName = Some pe →
  ¬ (serveBusinessPolicy org polName s = true ∧ defined definedPolicies polName) →
  prune org definedPolicies polName s
  = (None, set_heap <[l := delete polName (orgMap s org)]>
             (sent (option_list (deleted_message org pe)) 0 s)).
Proof.
  intros Hl Hpe Hn. rewrite <- defined_spec in Hn.
  pose proof (deleteBusinessPolicy_cached org polName l pe s Hl Hpe) as Hdel.
  unfold prune. munfold. rewrite Hpe. rewrite bool_decide_eq_true_2 by eauto. simpl.
  destruct (serveBusinessPolicy org polName s) eqn:Hs; simpl; [|done].
  destruct (existsb _ _) eqn:Hd; simpl; [tauto|done].
Qed.

Lemma orgMap_tracked s org l : OrgPolicies s !! org = Some l → orgMap s org = default ∅ (heap s !! l).
Proof. unfold orgMap. by intros ->. Qed.

(** The agent does not serve the policy: the definition is skipped. *)
Lemma reconcile_unserved org polId exPol s :
  serveBusinessPolicy org (GetId polId) s = false →
  reconcile org polId exPol s = (None, s).
Proof. intros Hs. unfold reconcile. munfold. by rewrite Hs. Qed.

(** The definition hashes to the hash of the cached entry: nothing to do. *)
Lemma reconcile_unchanged org polId exPol l pe s :
  serveBusinessPolicy org (GetId polId) s = true →
  OrgPolicies s !! org = Some l → orgMap s org !! GetId polId = Some (Some pe) →
  hashPolicy (GetBusinessPolicy exPol) = Ok (Hash pe) →
  reconcile org polId exPol s = (None, s).
Proof.
  intros Hs Hl Hpe Hh. unfold reconcile, hasBusinessPolicy, hasOrg. munfold.
  rewrite Hs. simpl. rewrite Hl, Hpe, Hh.
  by rewrite !bool_decide_eq_true_2 by eauto.
Qed.

(** The definition of a cached entry cannot be hashed. *)
Lemma reconcile_hash_error org polId exPol l pe e s :
  serveBusinessPolicy org (GetId polId) s = true →
  OrgPolicies s !! org = Some l → orgMap s org !! GetId polId = Some (Some pe) →
  hashPolicy (GetBusinessPolicy exPol) = Err e →
  reconcile org polId exPol s = (Some (HashError org e), s).
Proof.
  intros Hs Hl Hpe Hh. unfold reconcile, hasBusinessPolicy, hasOrg. munfold.
  rewrite Hs. simpl. rewrite Hl, Hpe, Hh.
  by rewrite !bool_decide_eq_true_2 by eauto.
Qed.

(** The definition hashes to another hash than that of the cached entry:
    the entry is updated in place, and a change message sent when the
    update succeeds and the new policy marshals. *)
Lemma reconcile_changed org polId exPol l pe h s :
  serveBusinessPolicy org (GetId polId) s = true →
  OrgPolicies s !! org = Some l → orgMap s org !! GetId polId = Some (Some pe) →
  hashPolicy (GetBusinessPolicy exPol) = Ok h → h ≠ Hash pe →
  reconcile org polId exPol s =
  let upd := UpdateEntry pe (GetBusinessPolicy exPol) polId h (time_Now_Unix (tick s)) in
  let s' := stored l (GetId polId) upd.1 (set_tick S s) in
  match upd.2 with
  | Err e => (Some (UpdateEntryError polId org e), s')
  | Ok newPol => (None, sent (option_list (changed_message org newPol)) 0 s')
  end.
Proof.
  intros Hs Hl Hpe Hh Hne. unfold reconcile, hasBusinessPolicy, hasOrg, stored. munfold.
  rewrite Hs. simpl. rewrite Hl, Hpe, Hh.
  rewrite !bool_decide_eq_true_2 by eauto. simpl.
  rewrite bool_decide_eq_false_2 by done. simpl.
  destruct (UpdateEntry pe (GetBusinessPolicy exPol) polId h (time_Now_Unix (tick s)))
    as [pe' [newPol|e]] eqn:Hu; simpl; rewrite Hl; simpl.
  - rewrite (orgMap_tracked _ _ l) by done. simpl. unfold changed_message.
    destruct (MarshalPolicy newPol); simpl; [done|].
    unfold sent. simpl. by rewrite app_nil_r.
  - by rewrite (orgMap_tracked _ _ l) by done.
Qed.

(** No entry is cached under the name: one is created from the definition. *)
Lemma reconcile_new org polId exPol l s :
  serveBusinessPolicy org (GetId polId) s = true →
  OrgPolicies s !! org = Some l →
  (orgMap s org !! GetId polId = None ∨ orgMap s org !! GetId polId = Some None) →
  reconcile org polId exPol s =
  match NewBusinessPolicyEntry (GetBusinessPolicy exPol) polId (time_Now_Unix (tick s)) with
  | Err e => (Some (CreateEntryError e), set_tick S s)
  | Ok newPE => (None, stored l (GetId polId) newPE (set_tick S s))
  end.
Proof.
  intros Hs Hl Hpe. unfold reconcile, hasBusinessPolicy, hasOrg, stored. munfold.
  rewrite Hs. simpl. rewrite Hl. rewrite (bool_decide_eq_true_2 (is_Some (Some l))) by eauto.
  assert ((if bool_decide (is_Some (orgMap s org !! GetId polId))
           then orgMap s org !! GetId polId else None) = None
          ∨ (if bool_decide (is_Some (orgMap s org !! GetId polId))
             then orgMap s org !! GetId polId else None) = Some None) as [->| ->].
  { destruct Hpe as [-> | ->]; [left|right].
    - by rewrite bool_decide_eq_false_2 by (by intros [? ?]).
    - by rewrite bool_decide_eq_true_2 by eauto. }
  all: destruct (NewBusinessPolicyEntry _ _ _) as [newPE|e]; simpl; [|done].
  all: rewrite Hl; simpl; by rewrite (orgMap_tracked _ _ l) by done.
Qed.

(** A relation that every step of a loop extends holds between the state
    before the loop and the state it is left in, with or without an error. *)
Lemma for_range_rel {A} (R : State → State → Prop) `{!Reflexive R, !Transitive R}
    (body : A → M (option error)) l s :
  (∀ x s0, x ∈ l → R s s0 → R s0 (body x s0).2) →
  R s (for_range body l s).2.
Proof.
  intros Hb.
  assert (∀ s0, R s s0 → R s (for_range body l s0).2) as Haux; [|by apply Haux].
  induction l as [|x l IH]; intros s0 Hs; simpl; [done|].
  pose proof (Hb x s0 (list_elem_of_here _ _) Hs) as Hx.
  destruct (body x s0) as [[e|] s1]; simpl in *; [by etrans|].
  apply IH; [|by etrans]. intros y s2 Hy. apply Hb. by apply list_elem_of_further.
Qed.

#[local] Instance updates_refl l : Reflexive (updates l).
Proof. intros s. unfold updates. split_and!; try done. by exists []; rewrite app_nil_r. Qed.

#[local] Instance updates_trans l : Transitive (updates l).
Proof.
  intros s1 s2 s3 (Ha1 & Hb1 & [e1 Hc1] & Hd1 & He1 & Hf1) (Ha2 & Hb2 & [e2 Hc2] & Hd2 & He2 & Hf2).
  unfold updates. split_and!; try congruence; eauto.
  - exists (e1 ++ e2). by rewrite Hc2, Hc1, app_assoc.
  - intros l' Hl'. by rewrite Hd2, Hd1.
Qed.

Lemma updates_sent l evs n s : updates l s (sent evs n s).
Proof. unfold updates. simpl. split_and!; eauto. Qed.

Lemma updates_set_tick l f s : updates l s (set_tick f s).
Proof. unfold updates. simpl. split_and!; eauto. by exists []; rewrite app_nil_r. Qed.

Lemma updates_stored l name pe s : updates l s (stored l name pe s).
Proof.
  unfold updates, stored. simpl. split_and!; try done.
  - by exists []; rewrite app_nil_r.
  - intros l' Hl'. by rewrite lookup_insert_ne.
  - rewrite lookup_insert_eq. eauto.
  - intros n. rewrite lookup_insert_eq. simpl. rewrite lookup_insert.
    case_decide; [done|]. done.
Qed.

Lemma updates_deleted l name m s :
  m = default ∅ (heap s !! l) → updates l s (set_heap <[l := delete name m]> s).
Proof.
  intros ->. unfold updates. simpl. split_and!; try done.
  - by exists []; rewrite app_nil_r.
  - intros l' Hl'. by rewrite lookup_insert_ne.
  - rewrite lookup_insert_eq. eauto.
  - intros n. rewrite lookup_insert_eq. simpl. rewrite lookup_delete.
    case_decide; [done|]. done.
Qed.

Lemma prune_updates org definedPolicies polName l s :
  OrgPolicies s !! org = Some l →
  (prune org definedPolicies polName s).1 = None
  ∧ updates l s (prune org definedPolicies polName s).2.
Proof.
  intros Hl. destruct (orgMap s org !! polName) as [pe|] eqn:Hpe.
  2:{ by rewrite prune_gone. }
  destruct (serveBusinessPolicy org polName s) eqn:Hs.
  - destruct (existsb (λ polId, bool_decide (GetId polId = polName))
                (map_to_list definedPolicies).*1) eqn:Hd.
    + apply defined_spec in Hd. by rewrite prune_keeps.
    + rewrite (prune_deletes _ _ _ l pe); [|done|done|].
      2:{ rewrite <- defined_spec. intros [_ ?]. congruence. }
      split; [done|]. cbv beta iota delta [snd]. etrans; [apply (updates_sent l)|].
      apply updates_deleted. simpl. by apply orgMap_tracked.
  - rewrite (prune_deletes _ _ _ l pe); [|done|done|].
    2:{ intros [? _]. congruence. }
    split; [done|]. cbv beta iota delta [snd]. etrans; [apply (updates_sent l)|].
    apply updates_deleted. simpl. by apply orgMap_tracked.
Qed.

Lemma reconcile_updates org polId exPol l s :
  OrgPolicies s !! org = Some l → updates l s (reconcile org polId exPol s).2.
Proof.
  intros Hl. destruct (serveBusinessPolicy org (GetId polId) s) eqn:Hs.
  2:{ by rewrite reconcile_unserved. }
  destruct (orgMap s org !! GetId polId) as [[pe|]|] eqn:Hpe.
  - destruct (hashPolicy (GetBusinessPolicy exPol)) as [h|e] eqn:Hh.
    2:{ by erewrite reconcile_hash_error. }
    destruct (decide (h = Hash pe)) as [->|Hne].
    { by erewrite reconcile_unchanged. }
    erewrite reconcile_changed by done. cbv zeta.
    destruct (UpdateEntry _ _ _ _ _) as [pe' [newPol|e]]; cbv beta iota delta [fst snd].
    + etrans; [apply (updates_set_tick l)|]. etrans; [apply updates_stored|].
      apply updates_sent.
    + etrans; [apply (updates_set_tick l)|]. apply updates_stored.
  - erewrite reconcile_new by eauto.
    destruct (NewBusinessPolicyEntry _ _ _); cbv beta iota delta [snd];
      [|apply updates_set_tick].
    etrans; [apply (updates_set_tick l)|]. apply updates_stored.
  - erewrite reconcile_new by eauto.
    destruct (NewBusinessPolicyEntry _ _ _); cbv beta iota delta [snd];
      [|apply updates_set_tick].
    etrans; [apply (updates_set_tick l)|]. apply updates_stored.
Qed.

(** The two loops of [UpdatePolicies] on a tracked org with definitions. *)
Lemma UpdatePolicies_loops org definedPolicies s :
  is_Some (OrgPolicies s !! org) → definedPolicies ≠ ∅ →
  UpdatePolicies org definedPolicies s =
  match for_range (λ '(polName, _), prune org definedPolicies polName)
          (shuffle (tick s) _ (map_to_list (orgMap s org))) (set_tick S s) with
  | (Some e, s1) => (Some e, s1)
  | (None, s1) =>
      for_range (λ '(polId, exPol), reconcile org polId exPol)
        (shuffle (tick s1) _ (map_to_list definedPolicies)) (set_tick S s1)
  end.
Proof.
  intros Hl Hne. unfold UpdatePolicies, hasOrg. munfold.
  rewrite bool_decide_eq_true_2 by done. simpl.
  rewrite bool_decide_eq_false_2 by (by rewrite map_size_empty_iff).
  by destruct (for_range _ _ _) as [[e|] s1].
Qed.

Lemma UpdatePolicies_not_found org definedPolicies s :
  OrgPolicies s !! org = None →
  UpdatePolicies org definedPolicies s = (Some (OrgNotFound org), s).
Proof.
  intros Hno. apply hasOrg_false in Hno. unfold UpdatePolicies. munfold. by rewrite Hno.
Qed.

Lemma UpdatePolicies_no_definitions org s :
  is_Some (OrgPolicies s !! org) → UpdatePolicies org ∅ s = deleteOrg org s.
Proof.
  intros Hl. unfold UpdatePolicies, hasOrg. munfold.
  rewrite bool_decide_eq_true_2 by done. simpl. by rewrite map_size_empty.
Qed.

Lemma UpdatePolicies_updates org definedPolicies l s :
  OrgPolicies s !! org = Some l → definedPolicies ≠ ∅ →
  updates l s (UpdatePolicies org definedPolicies s).2.
Proof.
  intros Hl Hne. rewrite UpdatePolicies_loops by eauto.
  pose proof (for_range_rel (updates l)
    (λ '(polName, _), prune org definedPolicies polName)
    (shuffle (tick s) _ (map_to_list (orgMap s org))) (set_tick S s)) as H1.
  destruct (for_range _ _ (set_tick S s)) as [r1 s1].
  assert (updates l s s1) as Hu1.
  { etrans; [apply (updates_set_tick l S)|]. apply H1.
    intros [n x] s0 _ (_ & Ho & _). apply prune_updates. by rewrite Ho. }
  destruct r1 as [e|]; [done|].
  etrans; [exact Hu1|]. etrans; [apply (updates_set_tick l S)|].
  apply for_range_rel; [apply _..|].
  intros [polId exPol] s0 _ (_ & Ho & _). apply reconcile_updates.
  rewrite Ho. simpl. destruct Hu1 as (_ & -> & _). done.
Qed.

(** ** The states of the manager *)

Lemma wf_new : wf NewPolicyManager.
Proof. split; [|split]; [split|..]; simpl; try done; set_solver. Qed.

Lemma updates_wf l s s' : updates l s s' → wf s → wf s'.
Proof.
  intros (Hsp & Hop & _ & Hh & Hal & Hnil) ([Ha Hi] & Hd & Hn).
  split; [split|split].
  - intros org l'. rewrite Hop. intros Ho. destruct (decide (l' = l)) as [->|Hne].
    + apply Hal. eauto.
    + rewrite Hh by done. eauto.
  - intros o1 o2 l'. rewrite Hop. apply Hi.
  - by rewrite Hop, Hsp.
  - intros l' m n Hm Hmn. destruct (decide (l' = l)) as [->|Hne].
    + specialize (Hnil n). rewrite Hm in Hnil. specialize (Hnil Hmn).
      destruct (heap s !! l) as [m0|] eqn:Hm0; simpl in Hnil; [|done].
      by eapply Hn.
    + rewrite Hh in Hm by done. by eapply Hn.
Qed.

Lemma deleteOrg_wf org s : wf s → wf (deleteOrg org s).2.
Proof.
  intros ([Ha Hi] & Hd & Hn). destruct (deleteOrg_spec org s) as (evs & n & -> & _).
  split; [split|split]; simpl.
  - intros o l Ho. apply lookup_delete_Some in Ho as [_ Ho]. eauto.
  - intros o1 o2 l H1 H2. apply lookup_delete_Some in H1 as [_ H1], H2 as [_ H2]. eauto.
  - rewrite dom_delete_L. set_solver.
  - done.
Qed.

Lemma UpdatePolicies_wf org definedPolicies s :
  wf s → wf (UpdatePolicies org definedPolicies s).2.
Proof.
  intros Hwf. destruct (OrgPolicies s !! org) as [l|] eqn:Hl.
  - destruct (decide (definedPolicies = ∅)) as [->|Hne].
    + rewrite UpdatePolicies_no_definitions by eauto. by apply deleteOrg_wf.
    + eapply updates_wf; [|done]. by apply UpdatePolicies_updates.
  - by rewrite UpdatePolicies_not_found.
Qed.

Lemma SetCurrentBusinessPolicies_wf servedPols s :
  wf s → wf (SetCurrentBusinessPolicies servedPols s).2.
Proof.
  intros (Hok & Hd & Hn).
  destruct (decide (ServedPolicies s = ∅ ∧ servedPols = ∅)) as [[H1 H2]|Hne].
  { by rewrite SetCurrentBusinessPolicies_nothing_to_do. }
  destruct (SetCurrentBusinessPolicies_spec servedPols s Hok Hne)
    as (s' & evs & -> & Hsp & Hok' & _ & Hdom & _ & _ & Hheap & _).
  split; [done|]. split; simpl.
  - by rewrite Hdom, Hsp.
  - intros l m n Hm. destruct (Hheap l m Hm) as [Hm'| ->]; [by eapply Hn|].
    by rewrite lookup_empty.
Qed.

Lemma reachable_wf s : reachable s → wf s.
Proof.
  induction 1 as [|servedPols s _ IH|org defs s _ IH|polOrg polName s _ IH|s _ IH
                  |org l name pe pe' s _ IH Hl Hpe Hch].
  - apply wf_new.
  - by apply SetCurrentBusinessPolicies_wf.
  - by apply UpdatePolicies_wf.
  - eapply updates_wf; [|exact IH]. apply (updates_set_tick 1%positive).
  - eapply updates_wf; [|exact IH]. apply (updates_set_tick 1%positive).
  - eapply updates_wf; [|exact IH]. apply updates_stored.
Qed.

(** ** The states of the manager when the caller writes to the triplets *)

Lemma updates_sound l s s' :
  updates l s s' → store_ok s ∧ no_nil s → store_ok s' ∧ no_nil s'.
Proof.
  intros (Hsp & Hop & _ & Hh & Hal & Hnil) ([Ha Hi] & Hn).
  split; [split|].
  - intros org l'. rewrite Hop. intros Ho. destruct (decide (l' = l)) as [->|Hne].
    + apply Hal. eauto.
    + rewrite Hh by done. eauto.
  - intros o1 o2 l'. rewrite Hop. apply Hi.
  - intros l' m n Hm Hmn. destruct (decide (l' = l)) as [->|Hne].
    + specialize (Hnil n). rewrite Hm in Hnil. specialize (Hnil Hmn).
      destruct (heap s !! l) as [m0|] eqn:Hm0; simpl in Hnil; [|done].
      by eapply Hn.
    + rewrite Hh in Hm by done. by eapply Hn.
Qed.

Lemma deleteOrg_sound org s :
  store_ok s ∧ no_nil s → store_ok (deleteOrg org s).2 ∧ no_nil (deleteOrg org s).2.
Proof.
  intros ([Ha Hi] & Hn). destruct (deleteOrg_spec org s) as (evs & n & -> & _).
  split; [split|]; simpl.
  - intros o l Ho. apply lookup_delete_Some in Ho as [_ Ho]. eauto.
  - intros o1 o2 l H1 H2. apply lookup_delete_Some in H1 as [_ H1], H2 as [_ H2]. eauto.
  - done.
Qed.

Lemma UpdatePolicies_sound org definedPolicies s :
  store_ok s ∧ no_nil s →
  store_ok (UpdatePolicies org definedPolicies s).2
  ∧ no_nil (UpdatePolicies org definedPolicies s).2.
Proof.
  intros Hs. destruct (OrgPolicies s !! org) as [l|] eqn:Hl.
  - destruct (decide (definedPolicies = ∅)) as [->|Hne].
    + rewrite UpdatePolicies_no_definitions by eauto. by apply deleteOrg_sound.
    + eapply updates_sound; [|done]. by apply UpdatePolicies_updates.
  - by rewrite UpdatePolicies_not_found.
Qed.

Lemma SetCurrentBusinessPolicies_sound servedPols s :
  store_ok s ∧ no_nil s →
  store_ok (SetCurrentBusinessPolicies servedPols s).2
  ∧ no_nil (SetCurrentBusinessPolicies servedPols s).2.
Proof.
  intros (Hok & Hn).
  destruct (decide (ServedPolicies s = ∅ ∧ servedPols = ∅)) as [[H1 H2]|Hne].
  { by rewrite SetCurrentBusinessPolicies_nothing_to_do. }
  destruct (SetCurrentBusinessPolicies_spec servedPols s Hok Hne)
    as (s' & evs & -> & Hsp & Hok' & _ & Hdom & _ & _ & Hheap & _).
  split; [done|]. simpl.
  intros l m n Hm. destruct (Hheap l m Hm) as [Hm'| ->]; [by eapply Hn|].
  by rewrite lookup_empty.
Qed.

(** The store is well formed and no cached entry is nil, whatever the caller
    writes to the triplets. *)
Lemma reachable_shared_sound s : reachable_shared s → store_ok s ∧ no_nil s.
Proof.
  induction 1 as [|servedPols s _ IH|org defs s _ IH|polOrg polName s _ IH|s _ IH
                  |org l name pe pe' s _ IH Hl Hpe Hch|servedPols s _ IH].
  - split; [split|]; by intros *; simpl; rewrite ?lookup_empty.
  - by apply SetCurrentBusinessPolicies_sound.
  - by apply UpdatePolicies_sound.
  - eapply updates_sound; [|exact IH]. apply (updates_set_tick 1%positive).
  - eapply updates_sound; [|exact IH]. apply (updates_set_tick 1%positive).
  - eapply updates_sound; [|exact IH]. apply updates_stored.
  - exact IH.
Qed.

Lemma reachable_reachable_shared s : reachable s → reachable_shared s.
Proof.
  induction 1 as [|servedPols s _ IH|org defs s _ IH|polOrg polName s _ IH|s _ IH
                  |org l name pe pe' s _ IH Hl Hpe Hch].
  - apply shared_NewPolicyManager.
  - by apply shared_SetCurrentBusinessPolicies.
  - by apply shared_UpdatePolicies.
  - by apply shared_GetServedNodeOrgs.
  - by apply shared_GetAllPolicyOrgs.
  - by eapply shared_service_policies.
Qed.

(** A state in which every tracked org is served is one of the invariant
    [wf], and conversely. *)
Lemma wf_tracked_served s : wf s ↔ (store_ok s ∧ no_nil s) ∧ tracked_served s.
Proof. unfold wf, no_nil, tracked_served. tauto. Qed.

(** ** The claims on [SetCurrentBusinessPolicies] *)

Lemma served_orgs_empty : served_orgs ∅ = ∅.
Proof. unfold served_orgs. by rewrite map_to_list_empty. Qed.

Lemma orgMap_preserved s s' org l :
  store_ok s → heap s ⊆ heap s' →
  OrgPolicies s !! org = Some l → OrgPolicies s' !! org = Some l →
  orgMap s' org = orgMap s org.
Proof.
  intros [Ha _] Hh Hl Hl'. unfold orgMap. rewrite Hl, Hl'.
  destruct (Ha org l Hl) as [m Hm]. rewrite Hm.
  by rewrite (lookup_weaken _ _ _ _ Hm Hh).
Qed.

(** X21. In every state the manager can be in, also after writes of the
    caller to the triplets: when [SetCurrentBusinessPolicies] does not
    return at once, or when every tracked org is served before the call, it
    returns without error and the orgs that are then tracked are exactly the
    policy orgs of the new triplets: an org that was not tracked gets a new,
    empty policy map, a tracked org that no new triplet names is removed, and
    a tracked org that is still named keeps its policy map. *)
Theorem SetCurrentBusinessPolicies_tracks_served_orgs servedPols s :
  reachable_shared s →
  ¬ early_exit servedPols s ∨ tracked_served s →
  ∃ s', SetCurrentBusinessPolicies servedPols s = (None, s')
    ∧ dom (OrgPolicies s') = served_orgs servedPols
    ∧ (∀ org, org ∈ served_orgs servedPols → OrgPolicies s !! org = None →
         ∃ l, OrgPolicies s' !! org = Some l ∧ heap s !! l = None
              ∧ heap s' !! l = Some ∅ ∧ orgMap s' org = ∅)
    ∧ (∀ org, is_Some (OrgPolicies s !! org) → org ∉ served_orgs servedPols →
         OrgPolicies s' !! org = None)
    ∧ (∀ org, is_Some (OrgPolicies s !! org) → org ∈ served_orgs servedPols →
         OrgPolicies s' !! org = OrgPolicies s !! org ∧ orgMap s' org = orgMap s org).
Proof.
  intros Hr Hcase. apply reachable_shared_sound in Hr as (Hok & Hn).
  destruct (decide (ServedPolicies s = ∅ ∧ servedPols = ∅)) as [[H1 H2]|Hne].
  { destruct Hcase as [Hcase|Hd]; [by destruct Hcase|]. unfold tracked_served in Hd.
    rewrite SetCurrentBusinessPolicies_nothing_to_do by done. subst servedPols.
    rewrite H1 in Hd. rewrite served_orgs_empty in *.
    assert (dom (OrgPolicies s) = ∅) as Hempty.
    { apply set_eq. intros k. split; [apply Hd|]. by rewrite elem_of_empty. }
    exists s. split; [done|]. split; [done|].
    split; [|split]; intros org Ho.
    - by apply elem_of_empty in Ho.
    - intros _. apply not_elem_of_dom. rewrite Hempty. apply not_elem_of_empty.
    - intros Hin. by apply elem_of_empty in Hin. }
  destruct (SetCurrentBusinessPolicies_spec servedPols s Hok Hne)
    as (s' & evs & Hrun & Hsp & Hok' & Hsub & Hdom & Hkeep & Hnew & _).
  exists s'. split; [done|]. split; [done|]. split; [|split].
  - intros org Hin Hno. assert (org ∈ dom (OrgPolicies s')) as Ho by by rewrite Hdom.
    apply elem_of_dom in Ho as [l Hl]. destruct (Hnew org l Hno Hl) as [Hf He].
    exists l. split; [done|]. split; [done|]. split; [done|].
    unfold orgMap. by rewrite Hl, He.
  - intros org _ Hnot. apply not_elem_of_dom. by rewrite Hdom.
  - intros org [l Hl] Hin. rewrite Hl. split; [by apply Hkeep|].
    eapply orgMap_preserved; eauto.
Qed.

Lemma about_all_nil evs : (∀ X, about X evs ≡ₚ []) → evs = [].
Proof.
  destruct evs as [|m evs]; [done|]. intros H. specialize (H (msg_org m)).
  unfold about in H. rewrite filter_cons, decide_True in H by done.
  by apply Permutation_nil_r in H.
Qed.

(** C7. A second [SetCurrentBusinessPolicies] with the triplets of the first
    leaves the set of tracked orgs as the first call left it and sends no
    message. *)
Theorem SetCurrentBusinessPolicies_idempotent servedPols s :
  reachable s →
  ∃ s1 s2,
    SetCurrentBusinessPolicies servedPols s = (None, s1)
    ∧ SetCurrentBusinessPolicies servedPols s1 = (None, s2)
    ∧ dom (OrgPolicies s2) = dom (OrgPolicies s1)
    ∧ eventChannel s2 = eventChannel s1.
Proof.
  intros Hr. apply reachable_wf in Hr as (Hok & Hd & Hn).
  destruct (decide (ServedPolicies s = ∅ ∧ servedPols = ∅)) as [[H1 H2]|Hne].
  { exists s, s. by rewrite SetCurrentBusinessPolicies_nothing_to_do. }
  destruct (SetCurrentBusinessPolicies_spec servedPols s Hok Hne)
    as (s1 & evs1 & Hrun1 & Hsp1 & Hok1 & _ & Hdom1 & _).
  exists s1.
  destruct (decide (servedPols = ∅)) as [He|Hne'].
  { exists s1. rewrite Hrun1.
    by rewrite SetCurrentBusinessPolicies_nothing_to_do by congruence. }
  destruct (SetCurrentBusinessPolicies_spec servedPols s1 Hok1)
    as (s2 & evs2 & Hrun2 & _ & _ & _ & Hdom2 & _ & _ & _ & Hch & Hev); [tauto|].
  exists s2. split; [done|]. split; [done|]. split; [congruence|].
  rewrite Hch. rewrite (about_all_nil evs2); [by rewrite app_nil_r|].
  intros X. rewrite Hev. rewrite decide_False; [done|].
  intros [Hx Hnx]. apply Hnx. rewrite <- Hdom1. by apply elem_of_dom.
Qed.

Lemma deleted_messages_one_each org (ps : list (string * option BusinessPolicyEntry)) :
  (∀ n x, (n, x) ∈ ps → ∃ pe, x = Some pe ∧ is_Some (MarshalPolicy (Policy pe))) →
  Forall2 (deletion_of org) (omap (deleted_message org) ps.*2) ps.
Proof.
  induction ps as [|[n x] ps IH]; intros Hall; simpl; [constructor|].
  destruct (Hall n x) as (pe & -> & [str Hstr]); [apply list_elem_of_here|].
  unfold deleted_message at 1. simpl. rewrite Hstr. simpl. constructor.
  - exists pe, str. done.
  - apply IH. intros n' x' Hin. apply (Hall n'). by apply list_elem_of_further.
Qed.


(** ** The claims on [UpdatePolicies] *)

Lemma serveBusinessPolicy_frame polOrg polName s s' :
  ServedPolicies s' = ServedPolicies s →
  serveBusinessPolicy polOrg polName s' = serveBusinessPolicy polOrg polName s.
Proof. unfold serveBusinessPolicy. by intros ->. Qed.

Lemma shuffle_elem_of {A} n (l : list A) x : x ∈ shuffle n A l ↔ x ∈ l.
Proof. by rewrite shuffle_perm. Qed.

(** The first loop deletes nothing when every cached policy is served and
    defined. *)
Lemma prune_loop_keeps_all org definedPolicies (ps : list (string * option BusinessPolicyEntry)) s :
  (∀ n x, (n, x) ∈ ps → serveBusinessPolicy org n s = true ∧ defined definedPolicies n) →
  for_range (λ '(polName, _), prune org definedPolicies polName) ps s = (None, s).
Proof.
  intros Hall. apply for_range_skip. intros [n x] Hin.
  destruct (Hall n x Hin). by apply prune_keeps.
Qed.

Lemma reconcile_quiet org polId exPol s :
  is_Some (OrgPolicies s !! org) → quiet org s polId exPol →
  reconcile org polId exPol s = (None, s).
Proof.
  intros [l Hl] Hq. destruct (serveBusinessPolicy org (GetId polId) s) eqn:Hs.
  - destruct (Hq Hs) as (pe & Hpe & Hh). by eapply reconcile_unchanged.
  - by apply reconcile_unserved.
Qed.

Lemma reconcile_loop_quiet org (ds : list (string * ExchangeBusinessPolicy)) s :
  is_Some (OrgPolicies s !! org) →
  (∀ polId exPol, (polId, exPol) ∈ ds → quiet org s polId exPol) →
  for_range (λ '(polId, exPol), reconcile org polId exPol) ds s = (None, s).
Proof.
  intros Hl Hall. apply for_range_skip. intros [polId exPol] Hin.
  apply reconcile_quiet; [done|]. by apply Hall.
Qed.

(** A successful [UpdateEntry]. *)
Lemma UpdateEntry_succeeds p pol polId newHash now newPol :
  Validate pol = true → GenPolicyFromBusinessPolicy pol polId = Some newPol →
  UpdateEntry p pol polId newHash now
  = ({| Policy := newPol; Updated := uint64 now; Hash := newHash; ServicePolicies := ∅ |},
     Ok newPol).
Proof. intros Hv Hg. unfold UpdateEntry. by rewrite Hv, Hg. Qed.

(** A failing [UpdateEntry]: the receiver keeps its policy only. *)
Lemma UpdateEntry_fails p pol polId newHash now :
  Validate pol = false ∨ GenPolicyFromBusinessPolicy pol polId = None →
  ∃ e, UpdateEntry p pol polId newHash now
       = ({| Policy := Policy p; Updated := uint64 now; Hash := newHash;
             ServicePolicies := ∅ |}, Err e).
Proof.
  intros Hfail. unfold UpdateEntry.
  destruct (Validate pol) eqn:Hv; simpl; [|eauto].
  destruct Hfail as [?| ->]; [done|]. eauto.
Qed.

(** C1. Org [org] is tracked, entry [pe] is cached for the policy that
    [polId] names, the agent serves that policy and the definitions re-ingest
    it as [exPol]; the other cached policies are served and defined, and the
    other definitions are quiet.  If [exPol] hashes to the stored hash, the
    call sends no message and leaves the cache, so the stored hash, as it
    was.  If it hashes to another hash and is validated, converted and
    marshalled, the call sends exactly one message, the change message that
    carries the marshalled new internal policy, and the stored hash is then
    the hash of the new definition.  Whatever the rest of a call does, the
    step of its loop that handles the definition does the same in the state
    it finds: nothing for the stored hash, one change message and the new
    hash for another one. *)
Theorem UpdatePolicies_change_detection org definedPolicies l m polId exPol pe s :
  OrgPolicies s !! org = Some l → heap s !! l = Some m →
  m !! GetId polId = Some (Some pe) →
  definedPolicies !! polId = Some exPol →
  serveBusinessPolicy org (GetId polId) s = true →
  (∀ n x, m !! n = Some x → serveBusinessPolicy org n s = true ∧ defined definedPolicies n) →
  (∀ id ex, definedPolicies !! id = Some ex → id ≠ polId →
     GetId id ≠ GetId polId ∧ quiet org s id ex) →
  let pol := GetBusinessPolicy exPol in
  (hashPolicy pol = Ok (Hash pe) →
     ∃ s', UpdatePolicies org definedPolicies s = (None, s')
       ∧ eventChannel s' = eventChannel s
       ∧ orgMap s' org = m)
  ∧ (∀ h newPol policyString,
       hashPolicy pol = Ok h → h ≠ Hash pe →
       Validate pol = true → GenPolicyFromBusinessPolicy pol polId = Some newPol →
       MarshalPolicy newPol = Some policyString →
       ∃ s' pe', UpdatePolicies org definedPolicies s = (None, s')
         ∧ eventChannel s'
           = eventChannel s ++
             [NewPolicyChangedMessage CHANGED_POLICY "" (Header_Name newPol) org policyString]
         ∧ orgMap s' org = <[GetId polId := Some pe']> m
         ∧ Hash pe' = h ∧ Policy pe' = newPol ∧ ServicePolicies pe' = ∅)
  ∧ (∀ s0 l0 pe0,
       OrgPolicies s0 !! org = Some l0 →
       orgMap s0 org !! GetId polId = Some (Some pe0) →
       serveBusinessPolicy org (GetId polId) s0 = true →
       (hashPolicy pol = Ok (Hash pe0) → reconcile org polId exPol s0 = (None, s0))
       ∧ (∀ h newPol policyString,
            hashPolicy pol = Ok h → h ≠ Hash pe0 →
            Validate pol = true → GenPolicyFromBusinessPolicy pol polId = Some newPol →
            MarshalPolicy newPol = Some policyString →
            ∃ s' pe', reconcile org polId exPol s0 = (None, s')
              ∧ eventChannel s'
                = eventChannel s0 ++
                  [NewPolicyChangedMessage CHANGED_POLICY "" (Header_Name newPol) org
                     policyString]
              ∧ orgMap s' org = <[GetId polId := Some pe']> (orgMap s0 org)
              ∧ Hash pe' = h ∧ Policy pe' = newPol ∧ ServicePolicies pe' = ∅)).
Proof.
  intros Hl Hm Hpe Hdef Hserved Hcached Hothers pol.
  assert (definedPolicies ≠ ∅) as Hne.
  { intros ->. by rewrite lookup_empty in Hdef. }
  assert (orgMap s org = m) as Hom by (unfold orgMap; by rewrite Hl, Hm).
  rewrite UpdatePolicies_loops by eauto.
  rewrite prune_loop_keeps_all.
  2:{ intros n x Hin. apply shuffle_elem_of, elem_of_map_to_list in Hin.
      rewrite Hom in Hin. simpl. by apply (Hcached n x). }
  set (s1 := set_tick S (set_tick S s)).
  assert (orgMap s1 org = m) as Hom1 by done.
  assert (∀ id ex, quiet org s id ex → quiet org s1 id ex) as Hq1 by done.
  split; [|split].
  - intros Hh. exists s1. split; [|done].
    apply reconcile_loop_quiet; [by eauto|].
    intros id ex Hin. apply shuffle_elem_of, elem_of_map_to_list in Hin.
    destruct (decide (id = polId)) as [->|Hid].
    + intros _. exists pe. rewrite Hom1. split; [done|].
      rewrite Hdef in Hin. by injection Hin as <-.
    + apply Hq1. by apply Hothers.
  - intros h newPol policyString Hh Hhne Hv Hg Hmar.
    assert ((polId, exPol) ∈ shuffle (tick (set_tick S s)) _ (map_to_list definedPolicies))
      as Hin by by apply shuffle_elem_of, elem_of_map_to_list.
    apply list_elem_of_split in Hin as (pre & post & Hsplit).
    assert (NoDup (pre ++ (polId, exPol) :: post).*1) as Hnd.
    { rewrite <- Hsplit, shuffle_perm. apply NoDup_fst_map_to_list. }
    assert (∀ id ex, (id, ex) ∈ pre ++ post → id ≠ polId ∧ definedPolicies !! id = Some ex)
      as Hrest.
    { intros id ex Hin. split.
      - intros ->. rewrite fmap_app, fmap_cons in Hnd. simpl in Hnd.
        apply NoDup_app in Hnd as (_ & Hdisj & Hnd). apply NoDup_cons in Hnd as [Hni _].
        apply elem_of_app in Hin as [Hin|Hin].
        + apply (Hdisj polId); [|apply list_elem_of_here].
          apply list_elem_of_fmap. by exists (polId, ex).
        + apply Hni. apply list_elem_of_fmap. by exists (polId, ex).
      - apply elem_of_map_to_list. rewrite <- (shuffle_elem_of (tick (set_tick S s))).
        rewrite Hsplit. rewrite elem_of_app in *. rewrite elem_of_cons. tauto. }
    rewrite Hsplit, for_range_app.
    rewrite reconcile_loop_quiet; [|by eauto|].
    2:{ intros id ex Hin. apply Hq1.
        destruct (Hrest id ex) as [Hid Hlook]; [apply elem_of_app; eauto|].
        by apply Hothers. }
    simpl.
    rewrite (reconcile_changed _ _ _ l pe h); [|done|done|by rewrite Hom1|done|done].
    rewrite (UpdateEntry_succeeds _ _ _ _ _ newPol) by done. simpl.
    unfold changed_message. rewrite Hmar. simpl.
    set (pe' := {| Policy := newPol; Updated := uint64 (time_Now_Unix (S (S (tick s))));
                   Hash := h; ServicePolicies := ∅ |}).
    set (s2 := sent _ 0 _).
    assert (orgMap s2 org = <[GetId polId := Some pe']> m) as Hom2.
    { unfold orgMap. subst s2. simpl. rewrite Hl, lookup_insert_eq, Hm. done. }
    exists s2, pe'. split; [|done].
    apply reconcile_loop_quiet; [by eauto|].
    intros id ex Hin.
    destruct (Hrest id ex) as [Hid Hlook]; [apply elem_of_app; eauto|].
    destruct (Hothers id ex Hlook Hid) as [Hname Hq].
    intros Hs. destruct (Hq Hs) as (pe0 & Hpe0 & Hh0).
    exists pe0. split; [|done].
    rewrite Hom2, lookup_insert_ne by done. by rewrite <- Hom.
  - intros s0 l0 pe0 Hl0 Hpe0 Hs0. split.
    + intros Hh. by eapply reconcile_unchanged.
    + intros h newPol policyString Hh Hhne Hv Hg Hmar.
      rewrite (reconcile_changed _ _ _ l0 pe0 h) by done.
      rewrite (UpdateEntry_succeeds _ _ _ _ _ newPol) by done. simpl.
      unfold changed_message. rewrite Hmar. simpl.
      eexists _, {| Policy := newPol; Updated := uint64 (time_Now_Unix (tick s0));
                    Hash := h; ServicePolicies := ∅ |}.
      split; [reflexivity|]. simpl. split; [done|].
      split; [|done]. unfold orgMap, stored. simpl. by rewrite Hl0, lookup_insert_eq.
Qed.

Lemma prune_loop_updates org definedPolicies l
    (ps : list (string * option BusinessPolicyEntry)) s :
  OrgPolicies s !! org = Some l →
  (for_range (λ '(polName, _), prune org definedPolicies polName) ps s).1 = None
  ∧ updates l s (for_range (λ '(polName, _), prune org definedPolicies polName) ps s).2.
Proof.
  intros Hl. revert s Hl.
  induction ps as [|[n x] ps IH]; intros s Hl; simpl; [done|].
  destruct (prune_updates org definedPolicies n l s Hl) as [Hr Hu].
  destruct (prune org definedPolicies n s) as [r s1]. simpl in *. subst r.
  destruct (IH s1) as [Hr' Hu'].
  { destruct Hu as (_ & -> & _). done. }
  split; [done|]. by etrans.
Qed.

Lemma reconcile_loop_updates org l (ds : list (string * ExchangeBusinessPolicy)) s :
  OrgPolicies s !! org = Some l →
  updates l s (for_range (λ '(polId, exPol), reconcile org polId exPol) ds s).2.
Proof.
  intros Hl. apply for_range_rel; [apply _..|].
  intros [polId exPol] s0 _ (_ & Ho & _). apply reconcile_updates. by rewrite Ho.
Qed.

(** C5. The loop over the definitions has handled the definitions [pre]
    without error and is in state [s2]; the next definition is served, is
    not the one cached under its name, and fails validation or conversion.
    Then the call returns an error, and the state it leaves is [s2] with
    all the deletions, insertions and replacements made so far: it differs
    from [s2] at most in the entry of the failing definition and in the
    count of draws. *)
Theorem UpdatePolicies_error_keeps_changes
    org definedPolicies s s1 s2 pre polId exPol post h :
  is_Some (OrgPolicies s !! org) →
  for_range (λ '(polName, _), prune org definedPolicies polName)
    (shuffle (tick s) _ (map_to_list (orgMap s org))) (set_tick S s) = (None, s1) →
  shuffle (tick s1) _ (map_to_list definedPolicies) = pre ++ (polId, exPol) :: post →
  for_range (λ '(polId, exPol), reconcile org polId exPol) pre (set_tick S s1) = (None, s2) →
  serveBusinessPolicy org (GetId polId) s2 = true →
  hashPolicy (GetBusinessPolicy exPol) = Ok h →
  (∀ pe, orgMap s2 org !! GetId polId = Some (Some pe) → Hash pe ≠ h) →
  Validate (GetBusinessPolicy exPol) = false
    ∨ GenPolicyFromBusinessPolicy (GetBusinessPolicy exPol) polId = None →
  ∃ e s3,
    UpdatePolicies org definedPolicies s = (Some e, s3)
    ∧ ServedPolicies s3 = ServedPolicies s2
    ∧ OrgPolicies s3 = OrgPolicies s2
    ∧ eventChannel s3 = eventChannel s2
    ∧ (∀ n, n ≠ GetId polId → orgMap s3 org !! n = orgMap s2 org !! n)
    ∧ (∀ l', OrgPolicies s2 !! org ≠ Some l' → heap s3 !! l' = heap s2 !! l').
Proof.
  intros [l Hl] Hprune Hsplit Hpre Hserved Hh Hnew Hfail.
  assert (definedPolicies ≠ ∅) as Hne.
  { intros ->. rewrite map_to_list_empty in Hsplit.
    pose proof (shuffle_perm (tick s1) _ (@nil (string * ExchangeBusinessPolicy))) as Hp.
    rewrite Hsplit in Hp. apply Permutation_nil_r in Hp. by destruct pre. }
  assert (OrgPolicies s2 !! org = Some l) as Hl2.
  { pose proof (prune_loop_updates org definedPolicies l
      (shuffle (tick s) _ (map_to_list (orgMap s org))) (set_tick S s) Hl) as [_ Hu1].
    rewrite Hprune in Hu1. simpl in Hu1.
    pose proof (reconcile_loop_updates org l pre (set_tick S s1)) as Hu2.
    rewrite Hpre in Hu2. simpl in Hu2.
    destruct Hu1 as (_ & Ho1 & _). destruct Hu2 as (_ & Ho2 & _); [by rewrite Ho1|].
    by rewrite Ho2, Ho1. }
  rewrite UpdatePolicies_loops by eauto.
  rewrite Hprune, Hsplit, for_range_app, Hpre. simpl.
  destruct (orgMap s2 org !! GetId polId) as [[pe|]|] eqn:Hpe.
  - rewrite (reconcile_changed _ _ _ l pe h); [|done|done|done|done|].
    2:{ intros Heq. by apply (Hnew pe). }
    destruct (UpdateEntry_fails pe (GetBusinessPolicy exPol) polId h
                (time_Now_Unix (tick s2)) Hfail) as [e ->]. simpl.
    eexists _, _. split; [reflexivity|]. simpl. split_and!; try done.
    + intros n Hn. unfold orgMap. simpl. rewrite Hl2, lookup_insert_eq. simpl.
      by rewrite lookup_insert_ne.
    + intros l' Hl'. rewrite lookup_insert_ne; [done|]. congruence.
  - rewrite (reconcile_new _ _ _ l) by eauto.
    unfold NewBusinessPolicyEntry. rewrite Hh.
    destruct Hfail as [-> | Hg]; simpl.
    + eexists _, _. split; [reflexivity|]. done.
    + destruct (Validate _); simpl; [rewrite Hg|]; eexists _, _; (split; [reflexivity|done]).
  - rewrite (reconcile_new _ _ _ l) by eauto.
    unfold NewBusinessPolicyEntry. rewrite Hh.
    destruct Hfail as [-> | Hg]; simpl.
    + eexists _, _. split; [reflexivity|]. done.
    + destruct (Validate _); simpl; [rewrite Hg|]; eexists _, _; (split; [reflexivity|done]).
Qed.

(** ** The content hash *)

Lemma present_frame org s s' G def :
  ServedPolicies s' = ServedPolicies s → present org s' G def = present org s G def.
Proof. intros H. unfold present. by rewrite (serveBusinessPolicy_frame _ _ s s'). Qed.

Lemma foldl_present_frame org s s' G defs :
  ServedPolicies s' = ServedPolicies s →
  foldl (present org s') G defs = foldl (present org s) G defs.
Proof.
  intros H. revert G. induction defs as [|d defs IH]; intros G; simpl; [done|].
  by rewrite IH, (present_frame org s s').
Qed.

Lemma UpdateEntry_Hash p pol polId newHash now :
  Hash (UpdateEntry p pol polId newHash now).1 = newHash.
Proof.
  unfold UpdateEntry. destruct (negb (Validate pol)); [done|].
  by destruct (GenPolicyFromBusinessPolicy pol polId).
Qed.

Lemma NewBusinessPolicyEntry_Hash pol polId now newPE :
  NewBusinessPolicyEntry pol polId now = Ok newPE → hashPolicy pol = Ok (Hash newPE).
Proof.
  unfold NewBusinessPolicyEntry. destruct (hashPolicy pol) as [h|e]; [|done].
  destruct (negb (Validate pol)); [done|].
  destruct (GenPolicyFromBusinessPolicy pol polId); [|done]. by intros [= <-].
Qed.

Lemma orgMap_stored org l name pe s :
  OrgPolicies s !! org = Some l →
  orgMap (stored l name pe s) org = <[name := Some pe]> (orgMap s org).
Proof. intros Hl. unfold orgMap, stored. simpl. by rewrite Hl, lookup_insert_eq. Qed.

Lemma reflects_insert G m n d pe :
  reflects G m → hashPolicy d = Ok (Hash pe) →
  reflects (<[n := d]> G) (<[n := Some pe]> m).
Proof.
  intros HG Hd n' pe'. rewrite !lookup_insert. case_decide.
  - intros [= <-]. eauto.
  - apply HG.
Qed.

Lemma reflects_insert_absent G m n d :
  reflects G m → (∀ pe, m !! n ≠ Some (Some pe)) → reflects (<[n := d]> G) m.
Proof.
  intros HG Hn n' pe' Hpe'. rewrite lookup_insert. case_decide; [|by apply HG].
  subst. by destruct (Hn pe').
Qed.

(** Handling one definition keeps the cache in line with the record. *)
Lemma reconcile_reflects org l polId exPol G s :
  OrgPolicies s !! org = Some l → reflects G (orgMap s org) →
  reflects (present org s G (polId, exPol)) (orgMap (reconcile org polId exPol s).2 org).
Proof.
  intros Hl HG. unfold present. simpl.
  destruct (serveBusinessPolicy org (GetId polId) s) eqn:Hs.
  2:{ by rewrite reconcile_unserved. }
  destruct (orgMap s org !! GetId polId) as [[pe|]|] eqn:Hpe.
  - destruct (hashPolicy (GetBusinessPolicy exPol)) as [h|e] eqn:Hh.
    2:{ by erewrite reconcile_hash_error. }
    destruct (decide (h = Hash pe)) as [->|Hne].
    { erewrite reconcile_unchanged by done. simpl.
      rewrite <- (insert_id (orgMap s org) (GetId polId) (Some pe)) by done.
      by apply reflects_insert. }
    erewrite reconcile_changed by done. cbv zeta.
    pose proof (UpdateEntry_Hash pe (GetBusinessPolicy exPol) polId h
                  (time_Now_Unix (tick s))) as HH.
    destruct (UpdateEntry _ _ _ _ _) as [pe' [newPol|e]]; cbv beta iota delta [fst snd] in *.
    + change (orgMap (sent ?e ?n ?s0) org) with (orgMap s0 org).
      rewrite orgMap_stored by done. apply reflects_insert; [done|]. by rewrite HH.
    + rewrite orgMap_stored by done. apply reflects_insert; [done|]. by rewrite HH.
  - erewrite reconcile_new by eauto.
    destruct (NewBusinessPolicyEntry _ _ _) as [newPE|e] eqn:Hnew; cbv beta iota delta [snd].
    + apply NewBusinessPolicyEntry_Hash in Hnew as Hh. rewrite Hh.
      rewrite orgMap_stored by done. by apply reflects_insert.
    + change (orgMap (set_tick S s) org) with (orgMap s org).
      destruct (hashPolicy _); [|done]. apply reflects_insert_absent; [done|]. congruence.
  - erewrite reconcile_new by eauto.
    destruct (NewBusinessPolicyEntry _ _ _) as [newPE|e] eqn:Hnew; cbv beta iota delta [snd].
    + apply NewBusinessPolicyEntry_Hash in Hnew as Hh. rewrite Hh.
      rewrite orgMap_stored by done. by apply reflects_insert.
    + change (orgMap (set_tick S s) org) with (orgMap s org).
      destruct (hashPolicy _); [|done]. apply reflects_insert_absent; [done|]. congruence.
Qed.

(** The loop over the definitions records the definitions it handles, in
    the order it handles them: all of them when it ends without error. *)
Lemma reconcile_loop_reflects org l (ds : list (string * ExchangeBusinessPolicy)) G s :
  OrgPolicies s !! org = Some l → reflects G (orgMap s org) →
  ∃ handled rest,
    ds = handled ++ rest
    ∧ ((for_range (λ '(polId, exPol), reconcile org polId exPol) ds s).1 = None → rest = [])
    ∧ reflects (foldl (present org s) G handled)
        (orgMap (for_range (λ '(polId, exPol), reconcile org polId exPol) ds s).2 org).
Proof.
  revert G s. induction ds as [|[polId exPol] ds IH]; intros G s Hl HG; simpl.
  { exists [], []. done. }
  pose proof (reconcile_reflects org l polId exPol G s Hl HG) as Hstep.
  pose proof (reconcile_updates org polId exPol l s Hl) as (Hsp & Hop & _).
  destruct (reconcile org polId exPol s) as [[e|] s1]; simpl in *.
  - exists [(polId, exPol)], ds. done.
  - destruct (IH _ s1 ltac:(by rewrite Hop) Hstep) as (handled & rest & -> & Hr & Hrefl).
    exists ((polId, exPol) :: handled), rest. split; [done|]. split; [done|].
    simpl. by rewrite <- (foldl_present_frame org s s1).
Qed.

#[local] Instance shrinks_refl org : Reflexive (shrinks org).
Proof. by intros s. Qed.

#[local] Instance shrinks_trans org : Transitive (shrinks org).
Proof.
  intros s1 s2 s3 (H1 & H2 & H3) (H4 & H5 & H6).
  split; [congruence|]. split; [congruence|]. by etrans.
Qed.

Lemma prune_shrinks org definedPolicies polName s :
  shrinks org s (prune org definedPolicies polName s).2.
Proof.
  destruct (orgMap s org !! polName) as [pe|] eqn:Hpe.
  2:{ by rewrite prune_gone. }
  destruct (OrgPolicies s !! org) as [l|] eqn:Hl.
  2:{ unfold orgMap in Hpe. by rewrite Hl in Hpe. }
  destruct (serveBusinessPolicy org polName s) eqn:Hs.
  - destruct (existsb (λ polId, bool_decide (GetId polId = polName))
                (map_to_list definedPolicies).*1) eqn:Hd.
    + apply defined_spec in Hd. by rewrite prune_keeps.
    + rewrite (prune_deletes _ _ _ l pe); [|done|done|].
      2:{ rewrite <- defined_spec. intros [_ ?]. congruence. }
      split; [done|]. split; [done|]. unfold orgMap at 1. simpl.
      rewrite Hl, lookup_insert_eq. simpl. apply delete_subseteq.
  - rewrite (prune_deletes _ _ _ l pe); [|done|done|].
    2:{ intros [? _]. congruence. }
    split; [done|]. split; [done|]. unfold orgMap at 1. simpl.
    rewrite Hl, lookup_insert_eq. simpl. apply delete_subseteq.
Qed.

Lemma reflects_subseteq G m m' : m' ⊆ m → reflects G m → reflects G m'.
Proof. intros Hsub HG n pe Hpe. apply HG. by eapply lookup_weaken. Qed.

Lemma reflects_empty G : reflects G ∅.
Proof. intros n pe. by rewrite lookup_empty. Qed.

Lemma orgMap_untracked s org : OrgPolicies s !! org = None → orgMap s org = ∅.
Proof. unfold orgMap. by intros ->. Qed.

Lemma UpdatePolicies_reflects org definedPolicies G s :
  reflects G (orgMap s org) →
  ∃ handled rest,
    handled ++ rest ≡ₚ map_to_list definedPolicies
    ∧ ((UpdatePolicies org definedPolicies s).1 = None → rest = [])
    ∧ reflects (foldl (present org s) G handled)
        (orgMap (UpdatePolicies org definedPolicies s).2 org).
Proof.
  intros HG. destruct (OrgPolicies s !! org) as [l|] eqn:Hl.
  2:{ rewrite UpdatePolicies_not_found by done. exists [], (map_to_list definedPolicies).
      done. }
  destruct (decide (definedPolicies = ∅)) as [->|Hne].
  { rewrite UpdatePolicies_no_definitions by eauto.
    destruct (deleteOrg_spec org s) as (evs & n & -> & _).
    exists [], []. rewrite map_to_list_empty. split; [done|]. split; [done|]. simpl.
    rewrite orgMap_untracked; [apply reflects_empty|]. simpl. apply lookup_delete_eq. }
  rewrite UpdatePolicies_loops by eauto.
  pose proof (prune_loop_updates org definedPolicies l
    (shuffle (tick s) _ (map_to_list (orgMap s org))) (set_tick S s) Hl) as [Hr1 (Hsp1 & Hop1 & _)].
  pose proof (for_range_rel (shrinks org)
    (λ '(polName, _), prune org definedPolicies polName)
    (shuffle (tick s) _ (map_to_list (orgMap s org))) (set_tick S s)) as Hshr.
  destruct (for_range _ _ (set_tick S s)) as [r1 s1]. simpl in Hr1, Hsp1, Hop1. subst r1.
  destruct Hshr as (_ & _ & Hsub).
  { intros [n x] s0 _ _. apply prune_shrinks. }
  destruct (reconcile_loop_reflects org l
              (shuffle (tick s1) _ (map_to_list definedPolicies)) G (set_tick S s1))
    as (handled & rest & Hsplit & Hrest & Hrefl).
  { simpl. by rewrite Hop1. }
  { eapply reflects_subseteq; [exact Hsub|done]. }
  exists handled, rest. split; [by rewrite <- Hsplit, shuffle_perm|]. split; [done|].
  by rewrite <- (foldl_present_frame org s (set_tick S s1)).
Qed.

(** With hashes that do not collide, the stored hash of an entry differs
    between two states exactly when the definitions recorded for its name
    differ. *)
Lemma reflects_hash_changes G G' m m' n pe pe' :
  (∀ d d' h, hashPolicy (A:=BusinessPolicy) d = Ok h → hashPolicy d' = Ok h → d = d') →
  reflects G m → reflects G' m' →
  m !! n = Some (Some pe) → m' !! n = Some (Some pe') →
  Hash pe' ≠ Hash pe ↔ G' !! n ≠ G !! n.
Proof.
  intros Hinj HG HG' Hpe Hpe'.
  destruct (HG n pe Hpe) as (d & Hd & Hh). destruct (HG' n pe' Hpe') as (d' & Hd' & Hh').
  rewrite Hd, Hd'. split.
  - intros Hne [= ->]. rewrite Hh in Hh'. injection Hh' as Heq. by apply Hne.
  - intros Hne Heq. apply Hne. f_equal. apply (Hinj d' d (Hash pe)); [|done]. by rewrite <- Heq.
Qed.

(** [SetCurrentBusinessPolicies] leaves the cache of an org as it is or
    empty. *)
Lemma SetCurrentBusinessPolicies_orgMap servedPols org s :
  store_ok s →
  orgMap (SetCurrentBusinessPolicies servedPols s).2 org = orgMap s org
  ∨ orgMap (SetCurrentBusinessPolicies servedPols s).2 org = ∅.
Proof.
  intros Hok.
  destruct (decide (ServedPolicies s = ∅ ∧ servedPols = ∅)) as [[H1 H2]|Hne].
  { left. by rewrite SetCurrentBusinessPolicies_nothing_to_do. }
  destruct (SetCurrentBusinessPolicies_spec servedPols s Hok Hne)
    as (s' & evs & -> & _ & _ & Hsub & Hdom & Hkeep & Hnew & _). simpl.
  destruct (OrgPolicies s' !! org) as [l'|] eqn:Hl'.
  2:{ right. by apply orgMap_untracked. }
  destruct (OrgPolicies s !! org) as [l|] eqn:Hl.
  - left. assert (org ∈ served_orgs servedPols) as Hin.
    { rewrite <- Hdom. by apply elem_of_dom. }
    eapply orgMap_preserved; eauto.
  - right. destruct (Hnew org l' Hl Hl') as [_ He]. unfold orgMap. by rewrite Hl', He.
Qed.

(** [UpdatePolicies] on an org leaves the cache of the other orgs alone. *)
Lemma UpdatePolicies_other_org org org' definedPolicies s :
  store_ok s → org' ≠ org →
  orgMap (UpdatePolicies org definedPolicies s).2 org' = orgMap s org'.
Proof.
  intros [Ha Hi] Hne. destruct (OrgPolicies s !! org) as [l|] eqn:Hl.
  2:{ by rewrite UpdatePolicies_not_found. }
  destruct (decide (definedPolicies = ∅)) as [->|Hdefs].
  { rewrite UpdatePolicies_no_definitions by eauto.
    destruct (deleteOrg_spec org s) as (evs & n & -> & _).
    unfold orgMap. simpl. by rewrite lookup_delete_ne. }
  destruct (UpdatePolicies_updates org definedPolicies l s Hl Hdefs)
    as (_ & Hop & _ & Hh & _).
  unfold orgMap. rewrite Hop. destruct (OrgPolicies s !! org') as [l'|] eqn:Hl'; [|done].
  rewrite Hh; [done|]. intros ->. apply Hne. by eapply Hi.
Qed.

Lemma service_policies_changed_Hash pe pe' :
  service_policies_changed pe pe' → Hash pe' = Hash pe.
Proof.
  intros [svcPolicy svcId now|org]; [|done].
  unfold AddServicePolicy. destruct svcPolicy as [sp|]; [|done].
  destruct (bool_decide (svcId = "")); [done|].
  by destruct (NewServicePolicyEntry sp svcId now).
Qed.

(** In every state of the manager, the hash of every cached entry is the
    hash of a definition. *)
Lemma reachable_shared_reflects s org : reachable_shared s → ∃ G, reflects G (orgMap s org).
Proof.
  intros Hr. revert org.
  induction Hr as [|servedPols s Hr IH|org0 defs s Hr IH|polOrg polName s Hr IH|s Hr IH
                   |org0 l name pe pe' s Hr IH Hl Hpe Hch|servedPols s Hr IH]; intros org.
  - exists ∅. apply reflects_empty.
  - apply reachable_shared_sound in Hr as (Hok & _).
    destruct (SetCurrentBusinessPolicies_orgMap servedPols org s Hok) as [-> | ->]; [done|].
    exists ∅. apply reflects_empty.
  - destruct (decide (org = org0)) as [->|Hne].
    + destruct (IH org0) as [G HG].
      destruct (UpdatePolicies_reflects org0 defs G s HG) as (handled & _ & _ & _ & HG').
      eauto.
    + apply reachable_shared_sound in Hr as (Hok & _).
      rewrite UpdatePolicies_other_org by done. apply IH.
  - apply IH.
  - apply IH.
  - destruct (IH org) as [G HG]. exists G.
    apply service_policies_changed_Hash in Hch.
    destruct (decide (OrgPolicies s !! org = Some l)) as [Hl'|Hl'].
    + rewrite orgMap_stored by done. intros n pe0. rewrite lookup_insert.
      case_decide as Hn; [|apply HG]. subst n. intros [= <-]. rewrite Hch.
      apply (HG name). unfold orgMap in *. rewrite Hl in Hpe. by rewrite Hl'.
    + assert (orgMap (stored l name pe' s) org = orgMap s org) as ->; [|done].
      unfold orgMap, stored. simpl.
      destruct (OrgPolicies s !! org) as [l'|]; [|done].
      rewrite lookup_insert_ne; [done|]. congruence.
  - apply IH.
Qed.


(** ** The claims on the queries and on [UpdateEntry] *)

(** C6. For an org that is not a key of the org-policy map, [UpdatePolicies]
    returns the not-found error and leaves the served triplets, the
    org-policy map, the store of policy maps and the messages sent as they
    were: the whole state is the one before the call. *)
Theorem UpdatePolicies_untracked_org org definedPolicies s :
  hasOrg org s = false →
  UpdatePolicies org definedPolicies s = (Some (OrgNotFound org), s).
Proof. intros Hno. apply UpdatePolicies_not_found. by apply hasOrg_false. Qed.

(** C10. When the definition fails validation or conversion, [UpdateEntry]
    returns an error, and the receiver has by then its hash overwritten with
    the new hash, its timestamp set to the current time and its service
    policies cleared, while its internal policy is the previous one. *)
Theorem UpdateEntry_failure_leaves_partial_update p pol polId newHash now :
  Validate pol = false ∨ GenPolicyFromBusinessPolicy pol polId = None →
  ∃ p' e, UpdateEntry p pol polId newHash now = (p', Err e)
    ∧ Hash p' = newHash
    ∧ Updated p' = uint64 now
    ∧ ServicePolicies p' = ∅
    ∧ Policy p' = Policy p.
Proof.
  intros Hfail. destruct (UpdateEntry_fails p pol polId newHash now Hfail) as [e ->].
  eauto 10.
Qed.

(** C8. [GetServedNodeOrgs] returns, in the order of its enumeration, the
    node orgs of exactly the served triplets whose policy org is [polOrg]
    and whose policy name is [polName] or the wildcard, the policy org
    standing in for an empty node org; the manager is not changed. *)
Theorem GetServedNodeOrgs_spec polOrg polName s :
  (GetServedNodeOrgs polOrg polName s).1
    ≡ₚ node_org_of polOrg <$>
         filter (served_by polOrg polName) (map_to_list (ServedPolicies s)).*2
  ∧ (GetServedNodeOrgs polOrg polName s).2 = set_tick S s.
Proof.
  unfold GetServedNodeOrgs. munfold. simpl. split; [|done].
  rewrite node_orgs_fold. simpl. by rewrite shuffle_perm.
Qed.

(** C9, as the code has it. [GetAllBusinessPolicyEntriesForOrg] returns the
    very reference the manager holds under [org], not a copy of the map it
    points to, and nil for an org that is not tracked; it changes nothing. *)
Theorem GetAllBusinessPolicyEntriesForOrg_returns_internal_map org s :
  GetAllBusinessPolicyEntriesForOrg org s = (OrgPolicies s !! org, s)
  ∧ ((GetAllBusinessPolicyEntriesForOrg org s).1 = None ↔ hasOrg org s = false).
Proof.
  unfold GetAllBusinessPolicyEntriesForOrg. munfold.
  destruct (hasOrg org s) eqn:Hh; simpl.
  - split; [done|]. apply hasOrg_true in Hh as [l Hl]. rewrite Hl. split; done.
  - apply hasOrg_false in Hh. by rewrite Hh.
Qed.

(** ** Further properties of the served triplets *)

(** X1. Every served triplet makes the manager serve its policy and its
    org; a triplet with the wildcard name makes it serve every policy name
    of its org; and a policy is served only in an org that is served. *)
Theorem served_triplet_is_served s k sp :
  ServedPolicies s !! k = Some sp →
  serveBusinessPolicy (BusinessPolOrg sp) (BusinessPol sp) s = true
  ∧ serveOrg (BusinessPolOrg sp) s = true
  ∧ (BusinessPol sp = "*" →
       ∀ polName, serveBusinessPolicy (BusinessPolOrg sp) polName s = true)
  ∧ (∀ polOrg polName, serveBusinessPolicy polOrg polName s = true →
       serveOrg polOrg s = true).
Proof.
  intros Hk. split_and!.
  - apply serveBusinessPolicy_spec. eauto 10.
  - apply serveOrg_spec, served_orgs_elem. eauto.
  - intros Hw polName. apply serveBusinessPolicy_spec. eauto 10.
  - intros polOrg polName Hs. apply serveBusinessPolicy_spec in Hs as (k' & sp' & Hk' & Ho & _).
    apply serveOrg_spec, served_orgs_elem. eauto.
Qed.

Lemma GetServedNodeOrgs_result polOrg polName s :
  (GetServedNodeOrgs polOrg polName s).1
  = node_org_of polOrg <$>
      filter (served_by polOrg polName)
        (shuffle (tick s) _ (map_to_list (ServedPolicies s))).*2.
Proof. unfold GetServedNodeOrgs. munfold. simpl. by rewrite node_orgs_fold. Qed.

Lemma serveBusinessPolicy_false polOrg polName s :
  serveBusinessPolicy polOrg polName s = false ↔
  ∀ sp, sp ∈ (map_to_list (ServedPolicies s)).*2 → ¬ served_by polOrg polName sp.
Proof.
  unfold serveBusinessPolicy. rewrite <- not_true_iff_false, existsb_exists. split.
  - intros Hn sp Hin Hsp. apply Hn. exists sp. split; [by apply list_elem_of_In|].
    by apply serves_spec.
  - intros Hall (sp & Hin & Hsp). apply (Hall sp); [by apply list_elem_of_In|].
    by apply serves_spec.
Qed.

Lemma filter_none {A} (P : A → Prop) `{!∀ x, Decision (P x)} (l : list A) :
  (∀ x, x ∈ l → ¬ P x) → filter P l = [].
Proof.
  induction l as [|x l IH]; intros Hall; [done|].
  rewrite filter_cons, decide_False by (apply Hall, list_elem_of_here).
  apply IH. intros y Hy. apply Hall. by apply list_elem_of_further.
Qed.

(** X2. [GetServedNodeOrgs] returns the empty list exactly when the policy
    is not served; it returns one node org for each matching triplet; and
    for a policy org that is not the empty string no node org it returns is
    the empty string. *)
Theorem GetServedNodeOrgs_empty_iff_not_served polOrg polName s :
  ((GetServedNodeOrgs polOrg polName s).1 = [] ↔
     serveBusinessPolicy polOrg polName s = false)
  ∧ length (GetServedNodeOrgs polOrg polName s).1
    = length (filter (served_by polOrg polName) (map_to_list (ServedPolicies s)).*2)
  ∧ (polOrg ≠ "" → "" ∉ (GetServedNodeOrgs polOrg polName s).1).
Proof.
  rewrite GetServedNodeOrgs_result. split_and!.
  - rewrite serveBusinessPolicy_false. split.
    + intros Hnil sp Hin Hsp. apply fmap_nil_inv in Hnil.
      apply (filter_nil_not_elem_of _ _ sp Hnil Hsp). by rewrite shuffle_perm.
    + intros Hall. rewrite filter_none; [done|]. intros sp Hin.
      apply Hall. by rewrite shuffle_perm in Hin.
  - rewrite length_fmap. by rewrite shuffle_perm.
  - intros Hne Hin. apply list_elem_of_fmap in Hin as (sp & Heq & _).
    unfold node_org_of in Heq. case_bool_decide; congruence.
Qed.

(** X3. [GetAllPolicyOrgs] returns every tracked org, each once, and no
    other string; it changes nothing but the count of draws. *)
Theorem GetAllPolicyOrgs_lists_tracked_orgs s :
  (∀ org, org ∈ (GetAllPolicyOrgs s).1 ↔ hasOrg org s = true)
  ∧ NoDup (GetAllPolicyOrgs s).1
  ∧ (GetAllPolicyOrgs s).2 = set_tick S s.
Proof.
  assert (∀ (l : list (string * loc)) acc,
            foldl (λ orgs '(org, _), orgs ++ [org]) acc l = acc ++ l.*1) as Hfold.
  { induction l as [|[o x] l IH]; intros acc; simpl.
    - by rewrite app_nil_r.
    - by rewrite IH, <- app_assoc. }
  unfold GetAllPolicyOrgs. munfold. simpl. rewrite Hfold. simpl. split_and!.
  - intros org. rewrite shuffle_perm, hasOrg_true, list_elem_of_fmap. split.
    + intros ([o l] & -> & Hin). apply elem_of_map_to_list in Hin. eauto.
    + intros [l Hl]. exists (org, l). split; [done|]. by apply elem_of_map_to_list.
  - rewrite shuffle_perm. apply NoDup_fst_map_to_list.
  - done.
Qed.

(** ** Further properties of the entries *)

(** X4. [AddServicePolicy] does nothing and reports no error for a nil
    policy or an empty service id.  When it reports no error for another
    call, the entry holds under the service id a service policy entry with
    the hash of the given policy and its converted form, the service
    policies under other ids are as before; when it reports an error the
    entry is unchanged.  It never changes the policy, the hash or the
    timestamp of the business policy entry. *)
Theorem AddServicePolicy_spec p svcPolicy svcId now :
  let r := AddServicePolicy p svcPolicy svcId now in
  (svcPolicy = None ∨ svcId = "" → r = (p, None))
  ∧ (∀ sp, svcPolicy = Some sp → svcId ≠ "" → r.2 = None →
       ∃ pSE, ServicePolicies r.1 !! svcId = Some pSE
         ∧ hashPolicy sp = Ok (spHash pSE)
         ∧ GenPolicyFromExternalPolicy sp svcId = Some (spPolicy pSE)
         ∧ spUpdated pSE = uint64 now
         ∧ ∀ id, id ≠ svcId → ServicePolicies r.1 !! id = ServicePolicies p !! id)
  ∧ (is_Some r.2 → r.1 = p)
  ∧ Policy r.1 = Policy p ∧ Hash r.1 = Hash p ∧ Updated r.1 = Updated p.
Proof.
  unfold AddServicePolicy, NewServicePolicyEntry. simpl. split_and!.
  - intros [-> | ->]; [done|]. by destruct svcPolicy.
  - intros sp -> Hid. rewrite bool_decide_eq_false_2 by done.
    destruct (hashPolicy sp) as [h|e]; [|by intros ?].
    destruct (GenPolicyFromExternalPolicy sp svcId) as [pol|]; [|by intros ?].
    intros _. simpl. eexists. rewrite lookup_insert_eq. split; [done|]. simpl.
    split_and!; try done. intros id Hne. by rewrite lookup_insert_ne.
  - destruct svcPolicy as [sp|]; [|by intros [? ?]].
    case_bool_decide; [by intros [? ?]|].
    destruct (hashPolicy sp) as [h|e]; [|done].
    destruct (GenPolicyFromExternalPolicy sp svcId) as [pol|]; [|done].
    by intros [? ?].
  - destruct svcPolicy as [sp|]; [|done]. case_bool_decide; [done|].
    destruct (hashPolicy sp) as [h|e]; [|done].
    by destruct (GenPolicyFromExternalPolicy sp svcId).
  - destruct svcPolicy as [sp|]; [|done]. case_bool_decide; [done|].
    destruct (hashPolicy sp) as [h|e]; [|done].
    by destruct (GenPolicyFromExternalPolicy sp svcId).
  - destruct svcPolicy as [sp|]; [|done]. case_bool_decide; [done|].
    destruct (hashPolicy sp) as [h|e]; [|done].
    by destruct (GenPolicyFromExternalPolicy sp svcId).
Qed.

(** X9. Updating an entry with the hash of a definition gives the entry
    that creating one from the definition gives, whatever the entry held
    before, and fails when the creation fails. *)
Theorem UpdateEntry_agrees_with_NewBusinessPolicyEntry p pol polId h now :
  hashPolicy pol = Ok h →
  (∀ pe, NewBusinessPolicyEntry pol polId now = Ok pe →
     UpdateEntry p pol polId h now = (pe, Ok (Policy pe)))
  ∧ (∀ e, NewBusinessPolicyEntry pol polId now = Err e →
       ∃ e', (UpdateEntry p pol polId h now).2 = Err e').
Proof.
  intros Hh. unfold NewBusinessPolicyEntry, UpdateEntry. rewrite Hh.
  destruct (Validate pol); simpl.
  - destruct (GenPolicyFromBusinessPolicy pol polId) as [newPol|]; simpl.
    + split; [by intros pe [= <-]|done].
    + split; [done|eauto].
  - split; [done|eauto].
Qed.

(** X10. [DeleteAllServicePolicies] leaves an entry without service policies
    and with its policy, hash and timestamp; its argument plays no role; it
    undoes every [AddServicePolicy]; and a second call changes nothing. *)
Theorem DeleteAllServicePolicies_undoes_AddServicePolicy pe org org' svcPolicy svcId now :
  ServicePolicies (DeleteAllServicePolicies pe org) = ∅
  ∧ Policy (DeleteAllServicePolicies pe org) = Policy pe
  ∧ Hash (DeleteAllServicePolicies pe org) = Hash pe
  ∧ Updated (DeleteAllServicePolicies pe org) = Updated pe
  ∧ DeleteAllServicePolicies pe org = DeleteAllServicePolicies pe org'
  ∧ DeleteAllServicePolicies (AddServicePolicy pe svcPolicy svcId now).1 org
    = DeleteAllServicePolicies pe org
  ∧ DeleteAllServicePolicies (DeleteAllServicePolicies pe org) org
    = DeleteAllServicePolicies pe org.
Proof.
  split_and!; try done.
  unfold AddServicePolicy. destruct svcPolicy as [sp|]; [|done].
  case_bool_decide; [done|]. by destruct (NewServicePolicyEntry sp svcId now).
Qed.

(** ** Further properties of the deletions *)

Lemma deleteOrg_untracked org s :
  OrgPolicies s !! org = None → deleteOrg org s = (None, s).
Proof.
  intros Hl. unfold deleteOrg. munfold. unfold hasOrg. rewrite Hl. simpl. rewrite Hl.
  by rewrite bool_decide_eq_false_2 by (by intros [? ?]).
Qed.

Lemma deleted_messages_about org (pes : list (option BusinessPolicyEntry)) :
  Forall (λ m, msg_org m = org) (omap (deleted_message org) pes).
Proof.
  apply Forall_forall. intros m Hin. apply list_elem_of_omap in Hin as (pe & _ & Hm).
  by eapply deleted_message_org.
Qed.

(** X5. [deleteOrg] reports no error.  It leaves the served triplets, the
    store of policy maps and the other orgs as they are and removes the org
    from the tracked orgs; the messages it sends are the deletion messages
    of the entries cached for the org, one for each entry that is not nil
    and whose policy marshals, and all of them name the org.  For an org
    that is not tracked it does nothing at all. *)
Theorem deleteOrg_removes_the_org org s :
  (∃ s' evs,
     deleteOrg org s = (None, s')
     ∧ ServedPolicies s' = ServedPolicies s
     ∧ heap s' = heap s
     ∧ OrgPolicies s' = delete org (OrgPolicies s)
     ∧ eventChannel s' = eventChannel s ++ evs
     ∧ evs ≡ₚ omap (deleted_message org) (map_to_list (orgMap s org)).*2
     ∧ Forall (λ m, msg_org m = org) evs)
  ∧ (OrgPolicies s !! org = None → deleteOrg org s = (None, s)).
Proof.
  split; [|apply deleteOrg_untracked].
  destruct (deleteOrg_spec org s) as (evs & n & -> & Hevs).
  eexists _, evs. split; [done|]. simpl. split_and!; try done.
  rewrite Hevs. apply deleted_messages_about.
Qed.

Lemma deleteBusinessPolicy_not_cached org polName s :
  orgMap s org !! polName = None → deleteBusinessPolicy org polName s = (None, s).
Proof.
  intros Hn. unfold deleteBusinessPolicy. munfold. rewrite Hn.
  destruct (hasOrg org s); [|done]. by destruct (OrgPolicies s !! org).
Qed.

(** X6. [deleteBusinessPolicy] reports no error.  For a policy that is
    cached it removes that policy from the policy map of the org and no
    other, sends the deletion message of the entry when the entry is not nil
    and its policy marshals, and [hasBusinessPolicy] then answers no; for a
    policy that is not cached it does nothing at all. *)
Theorem deleteBusinessPolicy_removes_the_policy org polName s :
  (∀ l pe, OrgPolicies s !! org = Some l → orgMap s org !! polName = Some pe →
     ∃ s', deleteBusinessPolicy org polName s = (None, s')
       ∧ ServedPolicies s' = ServedPolicies s
       ∧ OrgPolicies s' = OrgPolicies s
       ∧ orgMap s' org = delete polName (orgMap s org)
       ∧ (∀ l', l' ≠ l → heap s' !! l' = heap s !! l')
       ∧ eventChannel s' = eventChannel s ++ option_list (deleted_message org pe)
       ∧ hasBusinessPolicy org polName s' = false)
  ∧ (orgMap s org !! polName = None → deleteBusinessPolicy org polName s = (None, s)).
Proof.
  split; [|apply deleteBusinessPolicy_not_cached].
  intros l pe Hl Hpe. rewrite (deleteBusinessPolicy_cached _ _ l pe) by done.
  eexists. split; [done|]. simpl.
  assert (orgMap (set_heap <[l:=delete polName (orgMap s org)]>
                    (sent (option_list (deleted_message org pe)) 0 s)) org
          = delete polName (orgMap s org)) as Hom.
  { unfold orgMap at 1. simpl. by rewrite Hl, lookup_insert_eq. }
  simpl in Hom. split_and!; try done.
  - intros l' Hne. by rewrite lookup_insert_ne.
  - unfold hasBusinessPolicy. destruct (hasOrg org _); [|done].
    rewrite Hom, lookup_delete_eq. by apply bool_decide_eq_false_2; intros [? ?].
Qed.

(** ** Further properties of the states of the manager *)

(** X7. In every state the manager can be in, also after writes of the
    caller to the triplets: the policy map of every tracked org is allocated
    and shared with no other org, and no cached entry is nil.  That every
    tracked org is served is kept by [SetCurrentBusinessPolicies] and by
    [UpdatePolicies]: only a write of the caller breaks it. *)
Theorem reachable_state_invariant s :
  reachable_shared s →
  (∀ org l, OrgPolicies s !! org = Some l → is_Some (heap s !! l))
  ∧ (∀ o1 o2 l, OrgPolicies s !! o1 = Some l → OrgPolicies s !! o2 = Some l → o1 = o2)
  ∧ (∀ org polName, orgMap s org !! polName ≠ Some None)
  ∧ ((∀ org, hasOrg org s = true → serveOrg org s = true) →
     (∀ servedPols org,
        hasOrg org (SetCurrentBusinessPolicies servedPols s).2 = true →
        serveOrg org (SetCurrentBusinessPolicies servedPols s).2 = true)
     ∧ (∀ org' definedPolicies org,
          hasOrg org (UpdatePolicies org' definedPolicies s).2 = true →
          serveOrg org (UpdatePolicies org' definedPolicies s).2 = true)).
Proof.
  intros Hr. apply reachable_shared_sound in Hr as ([Ha Hi] & Hn). split_and!; try done.
  - intros org polName. unfold orgMap.
    destruct (OrgPolicies s !! org) as [l|]; [|by rewrite lookup_empty].
    destruct (heap s !! l) as [m|] eqn:Hm; simpl; [by eapply Hn|by rewrite lookup_empty].
  - intros Hts.
    assert (wf s) as Hwf.
    { apply wf_tracked_served. split; [done|]. intros org Ho.
      by apply serveOrg_spec, Hts, hasOrg_dom. }
    split.
    + intros servedPols org Ho.
      destruct (SetCurrentBusinessPolicies_wf servedPols s Hwf) as (_ & Hd & _).
      by apply serveOrg_spec, Hd, hasOrg_dom.
    + intros org' definedPolicies org Ho.
      destruct (UpdatePolicies_wf org' definedPolicies s Hwf) as (_ & Hd & _).
      by apply serveOrg_spec, Hd, hasOrg_dom.
Qed.

(** ** Further properties of [UpdatePolicies] *)

(** X8. [UpdatePolicies] with no definitions on a tracked org reports no
    error, removes the org from the tracked orgs, leaves the served
    triplets, the store and the other orgs as they are, and sends the
    deletion messages of the entries cached for the org.  A following
    [UpdatePolicies] on that org, with any definitions, reports that the org
    is not found and changes nothing. *)
Theorem UpdatePolicies_without_definitions_deletes_the_org org definedPolicies' s :
  is_Some (OrgPolicies s !! org) →
  ∃ s' evs,
    UpdatePolicies org ∅ s = (None, s')
    ∧ ServedPolicies s' = ServedPolicies s
    ∧ heap s' = heap s
    ∧ OrgPolicies s' = delete org (OrgPolicies s)
    ∧ eventChannel s' = eventChannel s ++ evs
    ∧ evs ≡ₚ omap (deleted_message org) (map_to_list (orgMap s org)).*2
    ∧ UpdatePolicies org definedPolicies' s' = (Some (OrgNotFound org), s').
Proof.
  intros Hl. rewrite UpdatePolicies_no_definitions by done.
  destruct (deleteOrg_spec org s) as (evs & n & -> & Hevs).
  eexists _, evs. split; [done|]. simpl. split_and!; try done.
  apply UpdatePolicies_not_found. simpl. apply lookup_delete_eq.
Qed.

Lemma kept_frame org definedPolicies s s' n :
  ServedPolicies s' = ServedPolicies s →
  kept org definedPolicies s' n ↔ kept org definedPolicies s n.
Proof. intros H. unfold kept. by rewrite (serveBusinessPolicy_frame _ _ s s'). Qed.

Lemma kept_dec org definedPolicies s n :
  kept org definedPolicies s n ∨ ¬ kept org definedPolicies s n.
Proof.
  unfold kept. rewrite <- defined_spec.
  destruct (serveBusinessPolicy org n s); [|right; by intros [? _]].
  destruct (existsb _ _); [by left|right; by intros [_ ?]].
Qed.

(** The first loop of [UpdatePolicies], run over entries of the cache with
    distinct names: it deletes the entries [removed] that are not kept, in
    the order of the loop, and sends their deletion messages. *)
Lemma prune_loop_spec org definedPolicies l (ps : list (string * option BusinessPolicyEntry)) s :
  OrgPolicies s !! org = Some l → NoDup ps.*1 →
  (∀ n x, (n, x) ∈ ps → orgMap s org !! n = Some x) →
  ∃ s1 removed,
    for_range (λ '(polName, _), prune org definedPolicies polName) ps s = (None, s1)
    ∧ ServedPolicies s1 = ServedPolicies s
    ∧ OrgPolicies s1 = OrgPolicies s
    ∧ tick s1 = tick s
    ∧ (∀ l', l' ≠ l → heap s1 !! l' = heap s !! l')
    ∧ eventChannel s1 = eventChannel s ++ omap (deleted_message org) removed.*2
    ∧ (∀ n x, (n, x) ∈ removed ↔ (n, x) ∈ ps ∧ ¬ kept org definedPolicies s n)
    ∧ NoDup removed.*1
    ∧ (∀ n, n ∈ removed.*1 → orgMap s1 org !! n = None)
    ∧ (∀ n, n ∉ removed.*1 → orgMap s1 org !! n = orgMap s org !! n).
Proof.
  revert s. induction ps as [|[n x] ps IH]; intros s Hl Hnd Hin.
  { exists s, []. simpl. rewrite app_nil_r. split_and!; try done.
    - intros n x. split; [by intros ?%elem_of_nil|by intros [?%elem_of_nil _]].
    - by intros n ?%elem_of_nil. }
  rewrite fmap_cons in Hnd. apply NoDup_cons in Hnd as [Hn Hnd]. simpl in Hn.
  assert (orgMap s org !! n = Some x) as Hx by (apply Hin, list_elem_of_here).
  cbn [for_range].
  destruct (kept_dec org definedPolicies s n) as [Hk|Hk].
  - destruct Hk as [Hs Hd]. rewrite prune_keeps by done.
    destruct (IH s Hl Hnd) as (s1 & removed & Hrun & H1 & H2 & H3 & H4 & H5 & H6 & H7 & H8 & H9).
    { intros n' x' Hin'. apply Hin. by apply list_elem_of_further. }
    exists s1, removed. split_and!; try done.
    intros n' x'. rewrite H6, elem_of_cons. split; [tauto|].
    intros [[[= -> ->]|?] Hnk]; [|done]. by destruct Hnk.
  - rewrite (prune_deletes _ _ _ l x) by done.
    set (s0 := set_heap _ _).
    assert (orgMap s0 org = delete n (orgMap s org)) as Hom.
    { unfold orgMap at 1. subst s0. simpl. by rewrite Hl, lookup_insert_eq. }
    destruct (IH s0) as (s1 & removed & Hrun & H1 & H2 & H3 & H4 & H5 & H6 & H7 & H8 & H9).
    { done. }
    { done. }
    { intros n' x' Hin'. rewrite Hom, lookup_delete_ne.
      - apply Hin. by apply list_elem_of_further.
      - intros ->. apply Hn. apply list_elem_of_fmap. by exists (n', x'). }
    assert (n ∉ removed.*1) as Hnr.
    { intros Hr. apply list_elem_of_fmap in Hr as ([n' x'] & -> & Hr).
      apply H6 in Hr as [Hr _]. apply Hn. apply list_elem_of_fmap. by exists (n', x'). }
    exists s1, ((n, x) :: removed). split_and!; try done.
    + intros l' Hne. rewrite H4 by done. subst s0. simpl. by rewrite lookup_insert_ne.
    + rewrite H5. subst s0. simpl. rewrite <- app_assoc. f_equal.
      by destruct (deleted_message org x).
    + intros n' x'. rewrite !elem_of_cons, H6.
      rewrite (kept_frame org definedPolicies s s0) by done. split.
      * intros [[= -> ->]|[? ?]]; [by split; [left|]|by split; [right|]].
      * intros [[[= -> ->]|?] ?]; [by left|by right].
    + rewrite fmap_cons. by apply NoDup_cons.
    + intros n'. rewrite fmap_cons, elem_of_cons. simpl. intros [->|Hr]; [|by apply H8].
      rewrite H9 by done. by rewrite Hom, lookup_delete_eq.
    + intros n'. rewrite fmap_cons, not_elem_of_cons. simpl. intros [Hne Hr].
      rewrite H9 by done. by rewrite Hom, lookup_delete_ne.
Qed.

Lemma UpdateEntry_Ok p pol polId h now newPol :
  (UpdateEntry p pol polId h now).2 = Ok newPol →
  Validate pol = true ∧ GenPolicyFromBusinessPolicy pol polId = Some newPol.
Proof.
  unfold UpdateEntry. destruct (Validate pol); simpl; [|done].
  destruct (GenPolicyFromBusinessPolicy pol polId); simpl; [|done]. by intros [= ->].
Qed.

Lemma UpdateEntry_ServicePolicies p pol polId h now :
  ServicePolicies (UpdateEntry p pol polId h now).1 = ∅.
Proof.
  unfold UpdateEntry. destruct (negb (Validate pol)); [done|].
  by destruct (GenPolicyFromBusinessPolicy pol polId).
Qed.

Lemma UpdateEntry_Err_Policy p pol polId h now e :
  (UpdateEntry p pol polId h now).2 = Err e →
  Policy (UpdateEntry p pol polId h now).1 = Policy p.
Proof.
  unfold UpdateEntry. destruct (negb (Validate pol)); [done|].
  by destruct (GenPolicyFromBusinessPolicy pol polId).
Qed.

Lemma NewBusinessPolicyEntry_ServicePolicies pol polId now newPE :
  NewBusinessPolicyEntry pol polId now = Ok newPE → ServicePolicies newPE = ∅.
Proof.
  unfold NewBusinessPolicyEntry. destruct (hashPolicy pol) as [h|e]; [|done].
  destruct (negb (Validate pol)); [done|].
  destruct (GenPolicyFromBusinessPolicy pol polId); [|done]. by intros [= <-].
Qed.

(** What the body of the second loop of [UpdatePolicies] does to a tracked
    org: nothing; or it fails before it stores; or it stores an entry without
    service policies under the name of the definition, which is a new entry
    (no message), a successfully updated one (the change message, if the
    policy marshals) or one whose update failed (an error). *)
Lemma reconcile_cases org polId exPol l s :
  OrgPolicies s !! org = Some l →
  (reconcile org polId exPol s = (None, s)
   ∧ (serveBusinessPolicy org (GetId polId) s = false
      ∨ ∃ pe, orgMap s org !! GetId polId = Some (Some pe)
              ∧ hashPolicy (GetBusinessPolicy exPol) = Ok (Hash pe)))
  ∨ (∃ e s', reconcile org polId exPol s = (Some e, s')
       ∧ serveBusinessPolicy org (GetId polId) s = true
       ∧ (s' = s ∨ s' = set_tick S s))
  ∨ (∃ r pe' evs,
       reconcile org polId exPol s
       = (r, sent evs 0 (stored l (GetId polId) pe' (set_tick S s)))
       ∧ serveBusinessPolicy org (GetId polId) s = true
       ∧ ServicePolicies pe' = ∅
       ∧ hashPolicy (GetBusinessPolicy exPol) = Ok (Hash pe')
       ∧ ((r = None ∧ evs = []
           ∧ ∀ pe, orgMap s org !! GetId polId ≠ Some (Some pe))
          ∨ (∃ pe newPol,
               r = None
               ∧ orgMap s org !! GetId polId = Some (Some pe) ∧ Hash pe ≠ Hash pe'
               ∧ Validate (GetBusinessPolicy exPol) = true
               ∧ GenPolicyFromBusinessPolicy (GetBusinessPolicy exPol) polId = Some newPol
               ∧ evs = option_list (changed_message org newPol))
          ∨ (∃ pe e,
               r = Some (UpdateEntryError polId org e) ∧ evs = []
               ∧ orgMap s org !! GetId polId = Some (Some pe) ∧ Hash pe ≠ Hash pe'
               ∧ Policy pe' = Policy pe))).
Proof.
  intros Hl. destruct (serveBusinessPolicy org (GetId polId) s) eqn:Hs.
  2:{ left. rewrite reconcile_unserved by done. eauto. }
  assert (∀ pe : BusinessPolicyEntry, (None : option (option BusinessPolicyEntry)) ≠ Some (Some pe))
    as Hnone by done.
  assert (∀ pe : BusinessPolicyEntry, Some None ≠ Some (Some pe)) as Hnil by done.
  destruct (orgMap s org !! GetId polId) as [[pe|]|] eqn:Hpe.
  - destruct (hashPolicy (GetBusinessPolicy exPol)) as [h|e] eqn:Hh.
    2:{ right. left. erewrite reconcile_hash_error by done. eauto 10. }
    destruct (decide (h = Hash pe)) as [->|Hne].
    { left. erewrite reconcile_unchanged by done. eauto. }
    right. right. erewrite reconcile_changed by done. cbv zeta.
    pose proof (UpdateEntry_Hash pe (GetBusinessPolicy exPol) polId h
                  (time_Now_Unix (tick s))) as HH.
    pose proof (UpdateEntry_ServicePolicies pe (GetBusinessPolicy exPol) polId h
                  (time_Now_Unix (tick s))) as HS.
    pose proof (UpdateEntry_Ok pe (GetBusinessPolicy exPol) polId h
                  (time_Now_Unix (tick s))) as HO.
    pose proof (UpdateEntry_Err_Policy pe (GetBusinessPolicy exPol) polId h
                  (time_Now_Unix (tick s))) as HE.
    destruct (UpdateEntry _ _ _ _ _) as [pe' [newPol|e]]; cbv beta iota delta [fst snd] in *.
    + destruct (HO newPol eq_refl) as [Hv Hg].
      eexists None, pe', _. split; [reflexivity|]. subst h. split_and!; try done.
      right. left. exists pe, newPol. split_and!; done.
    + eexists _, pe', []. rewrite sent_nil. split; [reflexivity|]. subst h.
      split_and!; try done. right. right. exists pe, e. split_and!; try done.
      by eapply HE.
  - right. erewrite reconcile_new by eauto.
    destruct (NewBusinessPolicyEntry _ _ _) as [newPE|e] eqn:Hnew.
    + right. eexists None, newPE, []. rewrite sent_nil. split; [done|].
      split_and!; try done.
      * by eapply NewBusinessPolicyEntry_ServicePolicies.
      * by eapply NewBusinessPolicyEntry_Hash.
      * left. done.
    + left. eauto 10.
  - right. erewrite reconcile_new by eauto.
    destruct (NewBusinessPolicyEntry _ _ _) as [newPE|e] eqn:Hnew.
    + right. eexists None, newPE, []. rewrite sent_nil. split; [done|].
      split_and!; try done.
      * by eapply NewBusinessPolicyEntry_ServicePolicies.
      * by eapply NewBusinessPolicyEntry_Hash.
      * left. done.
    + left. eauto 10.
Qed.

(** The cache of the org after the body of the second loop. *)
Lemma reconcile_orgMap org polId exPol l s :
  OrgPolicies s !! org = Some l →
  ServedPolicies (reconcile org polId exPol s).2 = ServedPolicies s
  ∧ OrgPolicies (reconcile org polId exPol s).2 = OrgPolicies s
  ∧ (orgMap (reconcile org polId exPol s).2 org = orgMap s org
     ∨ ∃ pe', serveBusinessPolicy org (GetId polId) s = true
         ∧ orgMap (reconcile org polId exPol s).2 org
           = <[GetId polId := Some pe']> (orgMap s org)
         ∧ ServicePolicies pe' = ∅
         ∧ hashPolicy (GetBusinessPolicy exPol) = Ok (Hash pe'))
  ∧ ((reconcile org polId exPol s).1 = None →
     serveBusinessPolicy org (GetId polId) s = true →
     ∃ pe, orgMap (reconcile org polId exPol s).2 org !! GetId polId = Some (Some pe)
           ∧ hashPolicy (GetBusinessPolicy exPol) = Ok (Hash pe)).
Proof.
  intros Hl.
  destruct (reconcile_cases org polId exPol l s Hl)
    as [[-> Hc]|[(e & s' & -> & Hs & Hs')|(r & pe' & evs & -> & Hs & HS & Hh & Hc)]].
  - split_and!; try done; [by left|]. intros _ Hs. destruct Hc as [?|?]; [congruence|done].
  - split_and!; try done; by destruct Hs' as [-> | ->]; try left.
  - assert (orgMap (sent evs 0 (stored l (GetId polId) pe' (set_tick S s))) org
            = <[GetId polId := Some pe']> (orgMap s org)) as Hom.
    { change (orgMap (sent ?e ?n ?s0) org) with (orgMap s0 org).
      by rewrite orgMap_stored. }
    cbv beta iota delta [fst snd]. rewrite Hom. split_and!; try done.
    + right. eauto.
    + intros _ _. exists pe'. by rewrite lookup_insert_eq.
Qed.

#[local] Instance announces_refl org definedPolicies : Reflexive (announces org definedPolicies).
Proof. intros s. split_and!; try done. exists []. by rewrite app_nil_r. Qed.

Lemma change_of_frame org definedPolicies s s' m :
  ServedPolicies s' = ServedPolicies s →
  change_of org definedPolicies s' m → change_of org definedPolicies s m.
Proof.
  intros H (polId & exPol & newPol & ? & Hs & ?). exists polId, exPol, newPol.
  by rewrite <- (serveBusinessPolicy_frame _ _ s s').
Qed.

#[local] Instance announces_trans org definedPolicies : Transitive (announces org definedPolicies).
Proof.
  intros s1 s2 s3 (Ha1 & Hb1 & c1 & Hc1 & Hd1) (Ha2 & Hb2 & c2 & Hc2 & Hd2).
  split_and!; try congruence. exists (c1 ++ c2). split; [by rewrite Hc2, Hc1, app_assoc|].
  apply Forall_app. split; [done|]. eapply Forall_impl; [exact Hd2|].
  intros m. by apply change_of_frame.
Qed.

Lemma reconcile_announces org definedPolicies polId exPol l s :
  OrgPolicies s !! org = Some l → definedPolicies !! polId = Some exPol →
  announces org definedPolicies s (reconcile org polId exPol s).2.
Proof.
  intros Hl Hdef.
  destruct (reconcile_cases org polId exPol l s Hl)
    as [[-> Hc]|[(e & s' & -> & Hs & Hs')|(r & pe' & evs & -> & Hs & HS & Hh & Hc)]].
  - reflexivity.
  - destruct Hs' as [-> | ->]; [reflexivity|]. split_and!; try done.
    exists []. by rewrite app_nil_r.
  - split_and!; try done. exists evs. split; [done|].
    destruct Hc as [(_ & -> & _)|[(pe & newPol & _ & _ & _ & Hv & Hg & ->)|(pe & e & _ & -> & _)]];
      try by constructor.
    destruct (changed_message org newPol) as [m|] eqn:Hm; simpl; [|constructor].
    repeat constructor. exists polId, exPol, newPol. done.
Qed.

#[local] Instance keeps_or_renews_refl org : Reflexive (keeps_or_renews org).
Proof. intros s. split; [done|]. intros n pe' ?. by left. Qed.

#[local] Instance keeps_or_renews_trans org : Transitive (keeps_or_renews org).
Proof.
  intros s1 s2 s3 [Ha1 Hb1] [Ha2 Hb2]. split; [congruence|].
  intros n pe' H3. destruct (Hb2 n pe' H3) as [H2|?]; [|by right]. by apply Hb1.
Qed.

Lemma prune_keeps_or_renews org definedPolicies polName s :
  keeps_or_renews org s (prune org definedPolicies polName s).2.
Proof.
  destruct (prune_shrinks org definedPolicies polName s) as (_ & Ho & Hsub).
  split; [done|]. intros n pe' Hn. left. by eapply lookup_weaken.
Qed.

Lemma reconcile_keeps_or_renews org polId exPol l s :
  OrgPolicies s !! org = Some l →
  keeps_or_renews org s (reconcile org polId exPol s).2.
Proof.
  intros Hl. destruct (reconcile_orgMap org polId exPol l s Hl)
    as (_ & Ho & [Hom|(pe' & _ & Hom & HS & _)] & _).
  - split; [done|]. intros n pe0. rewrite Hom. by left.
  - split; [done|]. intros n pe0. rewrite Hom, lookup_insert. case_decide; [|by left].
    intros [= <-]. by right.
Qed.

#[local] Instance caches_kept_refl org definedPolicies : Reflexive (caches_kept org definedPolicies).
Proof. intros s. split_and!; try done. intros n ?. by left. Qed.

#[local] Instance caches_kept_trans org definedPolicies :
  Transitive (caches_kept org definedPolicies).
Proof.
  intros s1 s2 s3 (Ha1 & Hb1 & Hc1 & Hd1) (Ha2 & Hb2 & Hc2 & Hd2).
  split_and!; try congruence; [by eauto|].
  intros n H3. destruct (Hd2 n H3) as [H2|Hk]; [by apply Hd1|].
  right. by apply (kept_frame org definedPolicies s1 s2).
Qed.

Lemma reconcile_caches_kept org definedPolicies polId exPol l s :
  OrgPolicies s !! org = Some l → definedPolicies !! polId = Some exPol →
  caches_kept org definedPolicies s (reconcile org polId exPol s).2.
Proof.
  intros Hl Hdef. destruct (reconcile_orgMap org polId exPol l s Hl)
    as (Hsp & Ho & [Hom|(pe' & Hs & Hom & _)] & _).
  - split_and!; try done; intros n; rewrite Hom; [done|by left].
  - split_and!; try done; intros n; rewrite Hom, lookup_insert; case_decide; try done.
    + intros _. right. subst n. split; [done|]. exists polId. eauto.
    + by left.
Qed.

(** [UpdatePolicies] on a tracked org with definitions: the first loop
    leaves state [s1], in which the policies that are not kept are deleted
    and their deletion messages sent; the call is then the second loop run
    from [s1]. *)
Lemma UpdatePolicies_phases org definedPolicies l s :
  OrgPolicies s !! org = Some l → definedPolicies ≠ ∅ →
  ∃ s1 removed,
    UpdatePolicies org definedPolicies s
    = for_range (λ '(polId, exPol), reconcile org polId exPol)
        (shuffle (tick s1) _ (map_to_list definedPolicies)) (set_tick S s1)
    ∧ ServedPolicies s1 = ServedPolicies s
    ∧ OrgPolicies s1 = OrgPolicies s
    ∧ (∀ l', l' ≠ l → heap s1 !! l' = heap s !! l')
    ∧ eventChannel s1 = eventChannel s ++ omap (deleted_message org) removed.*2
    ∧ (∀ n x, (n, x) ∈ removed ↔
         orgMap s org !! n = Some x ∧ ¬ kept org definedPolicies s n)
    ∧ NoDup removed.*1
    ∧ (∀ n, ¬ kept org definedPolicies s n → orgMap s1 org !! n = None)
    ∧ (∀ n, kept org definedPolicies s n → orgMap s1 org !! n = orgMap s org !! n).
Proof.
  intros Hl Hne. rewrite UpdatePolicies_loops by eauto.
  destruct (prune_loop_spec org definedPolicies l
              (shuffle (tick s) _ (map_to_list (orgMap s org))) (set_tick S s))
    as (s1 & removed & -> & H1 & H2 & H3 & H4 & H5 & H6 & H7 & H8 & H9).
  { done. }
  { rewrite shuffle_perm. apply NoDup_fst_map_to_list. }
  { intros n x Hin. apply shuffle_elem_of in Hin. by apply elem_of_map_to_list. }
  assert (∀ n x, (n, x) ∈ removed ↔
            orgMap s org !! n = Some x ∧ ¬ kept org definedPolicies s n) as H6'.
  { intros n x. rewrite H6, shuffle_elem_of, elem_of_map_to_list. done. }
  assert (∀ n, n ∈ removed.*1 ↔
            is_Some (orgMap s org !! n) ∧ ¬ kept org definedPolicies s n) as Hrem.
  { intros n. rewrite list_elem_of_fmap. split.
    - intros ([n' x] & -> & Hin). apply H6' in Hin as [? ?]. eauto.
    - intros [[x Hx] Hk]. exists (n, x). split; [done|]. by apply H6'. }
  exists s1, removed. split_and!; try done.
  - intros n Hk. destruct (orgMap s org !! n) as [x|] eqn:Hx.
    + apply H8, Hrem. rewrite Hx. eauto.
    + rewrite H9; [done|]. rewrite Hrem. by intros [[? ?] _]; simplify_eq.
  - intros n Hk. apply H9. rewrite Hrem. tauto.
Qed.

Lemma change_of_about org definedPolicies s m :
  change_of org definedPolicies s m → msg_org m = org.
Proof.
  intros (polId & exPol & newPol & _ & _ & _ & _ & Hm). unfold changed_message in Hm.
  destruct (MarshalPolicy newPol); simpl in Hm; [|done]. by injection Hm as <-.
Qed.

(** The second loop of [UpdatePolicies] sends change messages only. *)
Lemma reconcile_loop_announces org definedPolicies l
    (ds : list (string * ExchangeBusinessPolicy)) s :
  OrgPolicies s !! org = Some l →
  (∀ polId exPol, (polId, exPol) ∈ ds → definedPolicies !! polId = Some exPol) →
  announces org definedPolicies s
    (for_range (λ '(polId, exPol), reconcile org polId exPol) ds s).2.
Proof.
  intros Hl Hds. apply for_range_rel; [apply _..|].
  intros [polId exPol] s0 Hin (_ & Ho & _). eapply reconcile_announces; [|by apply Hds].
  by rewrite Ho.
Qed.

(** X11. The messages of [UpdatePolicies] on a tracked org with
    definitions: first the deletion messages of the cached entries whose
    policy is not served or not defined, one for each such entry that is
    not nil and whose policy marshals; then change messages, each of them
    announcing the policy that a served and validated definition converts
    to.  All of them name the org. *)
Theorem UpdatePolicies_messages org definedPolicies l s :
  OrgPolicies s !! org = Some l → definedPolicies ≠ ∅ →
  ∃ removed chgs,
    eventChannel (UpdatePolicies org definedPolicies s).2
    = eventChannel s ++ omap (deleted_message org) removed.*2 ++ chgs
    ∧ NoDup removed.*1
    ∧ (∀ n x, (n, x) ∈ removed ↔
         orgMap s org !! n = Some x
         ∧ ¬ (serveBusinessPolicy org n s = true ∧ defined definedPolicies n))
    ∧ Forall (change_of org definedPolicies s) chgs
    ∧ Forall (λ m, msg_org m = org) (omap (deleted_message org) removed.*2 ++ chgs).
Proof.
  intros Hl Hne.
  destruct (UpdatePolicies_phases org definedPolicies l s Hl Hne)
    as (s1 & removed & -> & H1 & H2 & _ & H5 & H6 & H7 & _).
  destruct (reconcile_loop_announces org definedPolicies l
              (shuffle (tick s1) _ (map_to_list definedPolicies)) (set_tick S s1))
    as (_ & _ & chgs & Hc & Hall).
  { simpl. by rewrite H2. }
  { intros polId exPol Hin. by apply shuffle_elem_of, elem_of_map_to_list in Hin. }
  assert (Forall (change_of org definedPolicies s) chgs) as Hall'.
  { eapply Forall_impl; [exact Hall|]. intros m. by apply change_of_frame. }
  exists removed, chgs. split_and!; try done.
  - rewrite Hc. simpl. by rewrite H5, app_assoc.
  - apply Forall_app. split; [apply deleted_messages_about|].
    eapply Forall_impl; [exact Hall'|]. intros m. apply change_of_about.
Qed.

Lemma reconcile_loop_caches_kept org definedPolicies l
    (ds : list (string * ExchangeBusinessPolicy)) s :
  OrgPolicies s !! org = Some l →
  (∀ polId exPol, (polId, exPol) ∈ ds → definedPolicies !! polId = Some exPol) →
  caches_kept org definedPolicies s
    (for_range (λ '(polId, exPol), reconcile org polId exPol) ds s).2.
Proof.
  intros Hl Hds. apply for_range_rel; [apply _..|].
  intros [polId exPol] s0 Hin (_ & Ho & _). eapply reconcile_caches_kept; [|by apply Hds].
  by rewrite Ho.
Qed.

(** Whatever [UpdatePolicies] returns, every policy it leaves in the cache
    of the org is served and defined. *)
Lemma UpdatePolicies_cached_kept org definedPolicies s n :
  is_Some (orgMap (UpdatePolicies org definedPolicies s).2 org !! n) →
  kept org definedPolicies s n.
Proof.
  destruct (OrgPolicies s !! org) as [l|] eqn:Hl.
  2:{ rewrite UpdatePolicies_not_found by done. rewrite orgMap_untracked by done.
      rewrite lookup_empty. by intros [? ?]. }
  destruct (decide (definedPolicies = ∅)) as [->|Hne].
  { rewrite UpdatePolicies_no_definitions by eauto.
    destruct (deleteOrg_spec org s) as (evs & k & -> & _).
    rewrite orgMap_untracked by (simpl; apply lookup_delete_eq).
    rewrite lookup_empty. by intros [? ?]. }
  destruct (UpdatePolicies_phases org definedPolicies l s Hl Hne)
    as (s1 & removed & -> & H1 & H2 & _ & _ & _ & _ & H8 & _).
  destruct (reconcile_loop_caches_kept org definedPolicies l
              (shuffle (tick s1) _ (map_to_list definedPolicies)) (set_tick S s1))
    as (_ & _ & _ & Hk).
  { simpl. by rewrite H2. }
  { intros polId exPol Hin. by apply shuffle_elem_of, elem_of_map_to_list in Hin. }
  intros Hn. destruct (Hk n Hn) as [Hc|Hc].
  - change (orgMap (set_tick S s1) org) with (orgMap s1 org) in Hc.
    destruct (kept_dec org definedPolicies s n) as [?|Hnk]; [done|].
    rewrite (H8 n Hnk) in Hc. by destruct Hc.
  - by apply (kept_frame org definedPolicies s (set_tick S s1)).
Qed.

(** When the second loop ends without error: an entry that was cached is
    still cached under its name, the same or one with the hash of a
    definition of that name; and every served definition has an entry with
    the hash of a definition of its name. *)
Lemma reconcile_loop_caches org l (ds : list (string * ExchangeBusinessPolicy)) s s' :
  OrgPolicies s !! org = Some l →
  for_range (λ '(polId, exPol), reconcile org polId exPol) ds s = (None, s') →
  (∀ n pe, orgMap s org !! n = Some (Some pe) →
     ∃ pe', orgMap s' org !! n = Some (Some pe')
       ∧ (pe' = pe ∨ ∃ id' ex', (id', ex') ∈ ds ∧ GetId id' = n
                       ∧ hashPolicy (GetBusinessPolicy ex') = Ok (Hash pe')))
  ∧ (∀ id ex, (id, ex) ∈ ds → serveBusinessPolicy org (GetId id) s = true →
       ∃ pe id' ex', orgMap s' org !! GetId id = Some (Some pe)
         ∧ (id', ex') ∈ ds ∧ GetId id' = GetId id
         ∧ hashPolicy (GetBusinessPolicy ex') = Ok (Hash pe)).
Proof.
  revert s. induction ds as [|[id0 ex0] ds IH]; intros s Hl Hrun.
  { simpl in Hrun. injection Hrun as <-. split.
    - intros n pe Hpe. exists pe. eauto.
    - by intros id ex ?%elem_of_nil. }
  cbn [for_range] in Hrun.
  destruct (reconcile_orgMap org id0 ex0 l s Hl) as (Hsp & Ho & Hom & Hsucc).
  destruct (reconcile org id0 ex0 s) as [[e|] s0]; [done|]. simpl in *.
  destruct (IH s0) as [IH1 IH2]; [by rewrite Ho|done|].
  assert (∀ n pe0, orgMap s0 org !! n = Some (Some pe0) →
            ∃ pe', orgMap s' org !! n = Some (Some pe')
              ∧ (pe' = pe0 ∨ ∃ id' ex', (id', ex') ∈ (id0, ex0) :: ds ∧ GetId id' = n
                       ∧ hashPolicy (GetBusinessPolicy ex') = Ok (Hash pe'))) as IH1'.
  { intros n pe0 Hpe0. destruct (IH1 n pe0 Hpe0) as (pe' & Hpe' & [->|(id' & ex' & Hin & ?)]).
    - exists pe0. eauto.
    - exists pe'. split; [done|]. right. exists id', ex'. split; [|done].
      by apply list_elem_of_further. }
  split.
  - intros n pe Hpe. destruct Hom as [Hom|(pe0 & Hs & Hom & _ & Hh)].
    + apply IH1'. by rewrite Hom.
    + destruct (decide (GetId id0 = n)) as [<-|Hne].
      * destruct (IH1' (GetId id0) pe0) as (pe' & Hpe' & Hor).
        { by rewrite Hom, lookup_insert_eq. }
        exists pe'. split; [done|]. right. destruct Hor as [->|?]; [|done].
        exists id0, ex0. split; [apply list_elem_of_here|done].
      * apply IH1'. by rewrite Hom, lookup_insert_ne.
  - intros id ex Hin Hs. apply elem_of_cons in Hin as [[= -> ->]|Hin].
    + destruct (Hsucc eq_refl Hs) as (pe0 & Hpe0 & Hh0).
      destruct (IH1' (GetId id0) pe0 Hpe0) as (pe' & Hpe' & [->|(id' & ex' & ?)]).
      * exists pe0, id0, ex0. split_and!; try done. apply list_elem_of_here.
      * exists pe', id', ex'. tauto.
    + destruct (IH2 id ex Hin) as (pe & id' & ex' & ? & ? & ?).
      { by rewrite (serveBusinessPolicy_frame _ _ s s0). }
      exists pe, id', ex'. split; [done|]. split; [|done]. by apply list_elem_of_further.
Qed.

(** When [UpdatePolicies] returns without error, every served definition
    has an entry in the cache under its name, with the hash of a definition
    of that name. *)
Lemma UpdatePolicies_served_cached org definedPolicies s s' polId exPol :
  UpdatePolicies org definedPolicies s = (None, s') →
  definedPolicies !! polId = Some exPol →
  serveBusinessPolicy org (GetId polId) s = true →
  ∃ pe id' ex',
    orgMap s' org !! GetId polId = Some (Some pe)
    ∧ definedPolicies !! id' = Some ex' ∧ GetId id' = GetId polId
    ∧ hashPolicy (GetBusinessPolicy ex') = Ok (Hash pe).
Proof.
  intros Hrun Hdef Hs.
  destruct (OrgPolicies s !! org) as [l|] eqn:Hl.
  2:{ by rewrite UpdatePolicies_not_found in Hrun. }
  assert (definedPolicies ≠ ∅) as Hne.
  { intros ->. by rewrite lookup_empty in Hdef. }
  destruct (UpdatePolicies_phases org definedPolicies l s Hl Hne)
    as (s1 & removed & Hrun' & H1 & H2 & _).
  rewrite Hrun' in Hrun.
  destruct (reconcile_loop_caches org l _ (set_tick S s1) s'
              ltac:(simpl; by rewrite H2) Hrun) as [_ Hc].
  destruct (Hc polId exPol) as (pe & id' & ex' & Hpe & Hin & ?).
  { by apply shuffle_elem_of, elem_of_map_to_list. }
  { by rewrite (serveBusinessPolicy_frame _ _ s (set_tick S s1)). }
  exists pe, id', ex'. split; [done|]. split; [|done].
  by apply shuffle_elem_of, elem_of_map_to_list in Hin.
Qed.

(** X12. Whatever [UpdatePolicies] returns, every policy it leaves in the
    cache of the org is served and defined.  When it returns without error,
    the cached policies are exactly the served and defined ones, and the
    entry of each has the hash of a definition of that name. *)
Theorem UpdatePolicies_caches_the_served_definitions org definedPolicies s :
  (∀ n, is_Some (orgMap (UpdatePolicies org definedPolicies s).2 org !! n) →
     serveBusinessPolicy org n s = true ∧ defined definedPolicies n)
  ∧ ((UpdatePolicies org definedPolicies s).1 = None →
     ∀ n, serveBusinessPolicy org n s = true → defined definedPolicies n →
       ∃ pe polId exPol,
         orgMap (UpdatePolicies org definedPolicies s).2 org !! n = Some (Some pe)
         ∧ definedPolicies !! polId = Some exPol ∧ GetId polId = n
         ∧ hashPolicy (GetBusinessPolicy exPol) = Ok (Hash pe)).
Proof.
  split; [intros n; apply UpdatePolicies_cached_kept|].
  intros Hr n Hs (polId & [exPol Hdef] & <-).
  destruct (UpdatePolicies org definedPolicies s) as [r s'] eqn:Hrun. simpl in *. subst r.
  by eapply UpdatePolicies_served_cached.
Qed.

Lemma prune_loop_keeps_or_renews org definedPolicies
    (ps : list (string * option BusinessPolicyEntry)) s :
  keeps_or_renews org s
    (for_range (λ '(polName, _), prune org definedPolicies polName) ps s).2.
Proof.
  apply for_range_rel; [apply _..|]. intros [n x] s0 _ _. apply prune_keeps_or_renews.
Qed.

Lemma reconcile_loop_keeps_or_renews org l (ds : list (string * ExchangeBusinessPolicy)) s :
  OrgPolicies s !! org = Some l →
  keeps_or_renews org s (for_range (λ '(polId, exPol), reconcile org polId exPol) ds s).2.
Proof.
  intros Hl. apply for_range_rel; [apply _..|].
  intros [polId exPol] s0 _ [Ho _]. eapply reconcile_keeps_or_renews. by rewrite Ho.
Qed.

(** X13. Whatever [UpdatePolicies] returns: an entry in the cache of the org
    is the entry that was cached under its name before the call, or it has
    no service policies; and a cached policy that is served and defined is
    not removed from the cache. *)
Theorem UpdatePolicies_keeps_or_renews_entries org definedPolicies s :
  (∀ n pe', orgMap (UpdatePolicies org definedPolicies s).2 org !! n = Some (Some pe') →
     orgMap s org !! n = Some (Some pe') ∨ ServicePolicies pe' = ∅)
  ∧ (∀ n, is_Some (orgMap s org !! n) →
       serveBusinessPolicy org n s = true → defined definedPolicies n →
       is_Some (orgMap (UpdatePolicies org definedPolicies s).2 org !! n)).
Proof.
  destruct (OrgPolicies s !! org) as [l|] eqn:Hl.
  2:{ rewrite UpdatePolicies_not_found by done. simpl. split; [by left|done]. }
  destruct (decide (definedPolicies = ∅)) as [->|Hne].
  { rewrite UpdatePolicies_no_definitions by eauto.
    destruct (deleteOrg_spec org s) as (evs & k & -> & _).
    rewrite orgMap_untracked by (simpl; apply lookup_delete_eq). split.
    - intros n pe'. by rewrite lookup_empty.
    - intros n _ _ (polId & [ex Hex] & _). by rewrite lookup_empty in Hex. }
  split.
  - rewrite UpdatePolicies_loops by eauto.
    pose proof (prune_loop_keeps_or_renews org definedPolicies
      (shuffle (tick s) _ (map_to_list (orgMap s org))) (set_tick S s)) as Hp.
    pose proof (prune_loop_updates org definedPolicies l
      (shuffle (tick s) _ (map_to_list (orgMap s org))) (set_tick S s) Hl) as [Hr Hu].
    destruct (for_range _ _ (set_tick S s)) as [r s1]. simpl in Hr, Hu, Hp. subst r.
    destruct Hu as (_ & Ho1 & _).
    pose proof (reconcile_loop_keeps_or_renews org l
      (shuffle (tick s1) _ (map_to_list definedPolicies)) (set_tick S s1)
      ltac:(simpl; by rewrite Ho1)) as [_ Hq].
    destruct Hp as [_ Hp]. intros n pe' Hn.
    destruct (Hq n pe' Hn) as [Hn1|?]; [|by right]. by apply Hp.
  - destruct (UpdatePolicies_phases org definedPolicies l s Hl Hne)
      as (s1 & removed & -> & H1 & H2 & _ & _ & _ & _ & _ & H9).
    destruct (reconcile_loop_caches_kept org definedPolicies l
                (shuffle (tick s1) _ (map_to_list definedPolicies)) (set_tick S s1))
      as (_ & _ & Hp & _).
    { simpl. by rewrite H2. }
    { intros polId exPol Hin. by apply shuffle_elem_of, elem_of_map_to_list in Hin. }
    intros n Hn Hs Hd. apply Hp.
    change (orgMap (set_tick S s1) org) with (orgMap s1 org). by rewrite H9.
Qed.

(** X14. Let no two definitions have the same policy name.  When
    [UpdatePolicies] returns without error, a second call with the same
    definitions returns without error too and changes nothing but the count
    of draws: it deletes, creates and updates no entry and sends no
    message. *)
Theorem UpdatePolicies_idempotent org definedPolicies s s' :
  (∀ id1 id2, is_Some (definedPolicies !! id1) → is_Some (definedPolicies !! id2) →
     GetId id1 = GetId id2 → id1 = id2) →
  definedPolicies ≠ ∅ →
  UpdatePolicies org definedPolicies s = (None, s') →
  UpdatePolicies org definedPolicies s' = (None, set_tick S (set_tick S s')).
Proof.
  intros Hinj Hne Hrun.
  destruct (OrgPolicies s !! org) as [l|] eqn:Hl.
  2:{ by rewrite UpdatePolicies_not_found in Hrun. }
  pose proof (UpdatePolicies_updates org definedPolicies l s Hl Hne) as (Hsp & Ho & _).
  rewrite Hrun in Hsp, Ho. simpl in Hsp, Ho.
  assert (OrgPolicies s' !! org = Some l) as Hl' by by rewrite Ho.
  rewrite UpdatePolicies_loops by eauto.
  rewrite prune_loop_keeps_all.
  2:{ intros n x Hin. apply shuffle_elem_of, elem_of_map_to_list in Hin.
      pose proof (UpdatePolicies_cached_kept org definedPolicies s n) as Hk.
      rewrite Hrun in Hk. simpl in Hk. destruct Hk as [Hs Hd]; [by rewrite Hin; eauto|].
      split; [|done]. by rewrite (serveBusinessPolicy_frame _ _ s (set_tick S s')). }
  apply reconcile_loop_quiet; [by eauto|].
  intros polId exPol Hin. apply shuffle_elem_of, elem_of_map_to_list in Hin.
  intros Hs. rewrite (serveBusinessPolicy_frame _ _ s) in Hs by done.
  destruct (UpdatePolicies_served_cached org definedPolicies s s' polId exPol Hrun Hin Hs)
    as (pe & id' & ex' & Hpe & Hdef' & Hid & Hh).
  assert (id' = polId) as -> by (apply Hinj; eauto).
  rewrite Hin in Hdef'. injection Hdef' as <-. exists pe. done.
Qed.

(** X15. A cached policy is redefined with another hash, and the new
    definition fails validation or conversion, while nothing else is to be
    done (the other cached policies are served and defined, the other
    definitions are quiet).  [UpdatePolicies] then reports the failure, sends
    nothing and leaves the entry with its previous policy under the new
    hash; so a second call with the same definitions finds nothing to do: it
    reports no error, sends no message and leaves the previous policy
    cached. *)
Theorem UpdatePolicies_failed_update_is_not_retried
    org definedPolicies l polId exPol pe h s :
  OrgPolicies s !! org = Some l →
  orgMap s org !! GetId polId = Some (Some pe) →
  definedPolicies !! polId = Some exPol →
  (∀ n, is_Some (orgMap s org !! n) →
     serveBusinessPolicy org n s = true ∧ defined definedPolicies n) →
  (∀ id ex, definedPolicies !! id = Some ex → id ≠ polId →
     GetId id ≠ GetId polId ∧ quiet org s id ex) →
  hashPolicy (GetBusinessPolicy exPol) = Ok h → h ≠ Hash pe →
  Validate (GetBusinessPolicy exPol) = false
    ∨ GenPolicyFromBusinessPolicy (GetBusinessPolicy exPol) polId = None →
  ∃ e s1 pe',
    UpdatePolicies org definedPolicies s = (Some (UpdateEntryError polId org e), s1)
    ∧ orgMap s1 org = <[GetId polId := Some pe']> (orgMap s org)
    ∧ Policy pe' = Policy pe ∧ Hash pe' = h
    ∧ eventChannel s1 = eventChannel s
    ∧ UpdatePolicies org definedPolicies s1 = (None, set_tick S (set_tick S s1)).
Proof.
  intros Hl Hpe Hdef Hcached Hothers Hh Hhne Hfail.
  assert (definedPolicies ≠ ∅) as Hne.
  { intros ->. by rewrite lookup_empty in Hdef. }
  destruct (Hcached (GetId polId)) as [Hserved Hdefd]; [by rewrite Hpe; eauto|].
  rewrite UpdatePolicies_loops by eauto.
  rewrite prune_loop_keeps_all.
  2:{ intros n x Hin. apply shuffle_elem_of, elem_of_map_to_list in Hin.
      apply (Hcached n). rewrite Hin. eauto. }
  set (s0 := set_tick S (set_tick S s)).
  assert ((polId, exPol) ∈ shuffle (tick (set_tick S s)) _ (map_to_list definedPolicies))
    as Hin by by apply shuffle_elem_of, elem_of_map_to_list.
  apply list_elem_of_split in Hin as (pre & post & Hsplit).
  assert (NoDup (pre ++ (polId, exPol) :: post).*1) as Hnd.
  { rewrite <- Hsplit, shuffle_perm. apply NoDup_fst_map_to_list. }
  assert (∀ id ex, (id, ex) ∈ pre → id ≠ polId ∧ definedPolicies !! id = Some ex) as Hpre.
  { intros id ex Hin. split.
    - intros ->. rewrite fmap_app, fmap_cons in Hnd. simpl in Hnd.
      apply NoDup_app in Hnd as (_ & Hdisj & _).
      apply (Hdisj polId); [|apply list_elem_of_here].
      apply list_elem_of_fmap. by exists (polId, ex).
    - apply elem_of_map_to_list. rewrite <- (shuffle_elem_of (tick (set_tick S s))).
      rewrite Hsplit. rewrite elem_of_app. by left. }
  rewrite Hsplit, for_range_app.
  rewrite reconcile_loop_quiet; [|by eauto|].
  2:{ intros id ex Hin. destruct (Hpre id ex Hin) as [Hid Hlook].
      by apply Hothers. }
  simpl.
  rewrite (reconcile_changed _ _ _ l pe h) by done.
  destruct (UpdateEntry_fails pe (GetBusinessPolicy exPol) polId h
              (time_Now_Unix (tick s0)) Hfail) as [e ->]. simpl.
  set (pe' := {| Policy := Policy pe; Updated := uint64 (time_Now_Unix (tick s0));
                 Hash := h; ServicePolicies := ∅ |}).
  set (s1 := stored l (GetId polId) pe' (set_tick S s0)).
  assert (orgMap s1 org = <[GetId polId := Some pe']> (orgMap s org)) as Hom.
  { subst s1. by rewrite orgMap_stored. }
  exists e, s1, pe'. split_and!; try done.
  assert (∀ n, serveBusinessPolicy org n (set_tick S s1) = serveBusinessPolicy org n s) as Hsv.
  { done. }
  rewrite UpdatePolicies_loops by eauto.
  rewrite prune_loop_keeps_all.
  2:{ intros n x Hin. apply shuffle_elem_of, elem_of_map_to_list in Hin.
      rewrite Hsv. rewrite Hom in Hin. apply lookup_insert_Some in Hin as [[<- _]|[_ Hin]].
      - done.
      - apply Hcached. rewrite Hin. eauto. }
  assert (∀ id ex, definedPolicies !! id = Some ex →
            quiet org (set_tick S (set_tick S s1)) id ex) as Hquiet.
  { intros id ex Hin Hs.
    change (orgMap (set_tick S (set_tick S s1)) org) with (orgMap s1 org).
    rewrite Hom. destruct (decide (id = polId)) as [->|Hid].
    - rewrite Hdef in Hin. injection Hin as <-. exists pe'. by rewrite lookup_insert_eq.
    - destruct (Hothers id ex Hin Hid) as [Hname Hq]. destruct (Hq Hs) as (pe0 & Hpe0 & Hh0).
      exists pe0. by rewrite lookup_insert_ne. }
  apply reconcile_loop_quiet; [by eauto|].
  intros id ex Hin. apply shuffle_elem_of, elem_of_map_to_list in Hin. by apply Hquiet.
Qed.

(** The second loop of [UpdatePolicies], run over definitions with distinct
    policy names: every message it sends announces the redefinition of an
    entry that was cached when the loop started. *)
Lemma reconcile_loop_redefinitions org l (ds : list (string * ExchangeBusinessPolicy)) s :
  OrgPolicies s !! org = Some l → NoDup (GetId <$> ds.*1) →
  ∃ chgs,
    eventChannel (for_range (λ '(polId, exPol), reconcile org polId exPol) ds s).2
    = eventChannel s ++ chgs
    ∧ Forall (λ m, ∃ polId exPol newPol pe,
                (polId, exPol) ∈ ds
                ∧ orgMap s org !! GetId polId = Some (Some pe)
                ∧ hashPolicy (GetBusinessPolicy exPol) ≠ Ok (Hash pe)
                ∧ GenPolicyFromBusinessPolicy (GetBusinessPolicy exPol) polId = Some newPol
                ∧ changed_message org newPol = Some m) chgs.
Proof.
  revert s. induction ds as [|[id0 ex0] ds IH]; intros s Hl Hnd.
  { exists []. simpl. by rewrite app_nil_r. }
  rewrite fmap_cons, fmap_cons in Hnd. simpl in Hnd. apply NoDup_cons in Hnd as [Hn0 Hnd].
  assert (∀ polId exPol, (polId, exPol) ∈ ds → GetId polId ≠ GetId id0) as Hnames.
  { intros polId exPol Hin Heq. apply Hn0. rewrite <- Heq.
    apply list_elem_of_fmap. exists polId. split; [done|].
    apply list_elem_of_fmap. by exists (polId, exPol). }
  assert (∀ s0 chgs',
            (∀ polId exPol, (polId, exPol) ∈ ds →
               orgMap s0 org !! GetId polId = orgMap s org !! GetId polId) →
            Forall (λ m, ∃ polId exPol newPol pe,
                (polId, exPol) ∈ ds
                ∧ orgMap s0 org !! GetId polId = Some (Some pe)
                ∧ hashPolicy (GetBusinessPolicy exPol) ≠ Ok (Hash pe)
                ∧ GenPolicyFromBusinessPolicy (GetBusinessPolicy exPol) polId = Some newPol
                ∧ changed_message org newPol = Some m) chgs' →
            Forall (λ m, ∃ polId exPol newPol pe,
                (polId, exPol) ∈ (id0, ex0) :: ds
                ∧ orgMap s org !! GetId polId = Some (Some pe)
                ∧ hashPolicy (GetBusinessPolicy exPol) ≠ Ok (Hash pe)
                ∧ GenPolicyFromBusinessPolicy (GetBusinessPolicy exPol) polId = Some newPol
                ∧ changed_message org newPol = Some m) chgs') as Hlift.
  { intros s0 chgs' Hsame Hall. eapply Forall_impl; [exact Hall|].
    intros m (polId & exPol & newPol & pe & Hin & Hpe & ?).
    exists polId, exPol, newPol, pe. split; [by apply list_elem_of_further|].
    split; [|done]. by rewrite <- (Hsame polId exPol). }
  cbn [for_range].
  destruct (reconcile_cases org id0 ex0 l s Hl)
    as [[-> Hc]|[(e & s' & -> & Hs & Hs')|(r & pe' & evs & -> & Hs & HS & Hh & Hc)]].
  - destruct (IH s Hl Hnd) as (chgs & -> & Hall). exists chgs. split; [done|].
    by apply (Hlift s).
  - exists []. simpl. rewrite app_nil_r. split; [|constructor]. by destruct Hs' as [-> | ->].
  - set (s0 := sent evs 0 (stored l (GetId id0) pe' (set_tick S s))).
    assert (∀ polId exPol, (polId, exPol) ∈ ds →
              orgMap s0 org !! GetId polId = orgMap s org !! GetId polId) as Hsame.
    { intros polId exPol Hin. subst s0.
      change (orgMap (sent ?e ?n ?s1) org) with (orgMap s1 org).
      rewrite orgMap_stored by done. rewrite lookup_insert_ne; [done|].
      intros Heq. by apply (Hnames polId exPol). }
    assert (eventChannel s0 = eventChannel s ++ evs) as Hev0 by done.
    destruct Hc as [(-> & -> & Hnew)|[(pe & newPol & -> & Hpe & Hne & Hv & Hg & ->)
                                     |(pe & e & -> & -> & _)]].
    + destruct (IH s0) as (chgs & -> & Hall); [done|done|].
      exists chgs. split; [by rewrite Hev0, app_nil_r|]. by apply (Hlift s0).
    + destruct (IH s0) as (chgs & -> & Hall); [done|done|].
      exists (option_list (changed_message org newPol) ++ chgs).
      split; [by rewrite Hev0, app_assoc|]. apply Forall_app. split; [|by apply (Hlift s0)].
      destruct (changed_message org newPol) as [m|] eqn:Hm; simpl; [|constructor].
      repeat constructor. exists id0, ex0, newPol, pe.
      split; [apply list_elem_of_here|]. split_and!; try done.
      rewrite Hh. intros [= Heq]. by apply Hne.
    + exists []. split; [done|constructor].
Qed.

(** X16. Let no two definitions have the same policy name.  Every message
    that [UpdatePolicies] sends is about an entry that was cached for the org
    before the call: its deletion message, or the change message of a
    definition with another hash than that entry.  A policy that is cached
    for the first time is not announced: on an empty cache the call sends
    nothing. *)
Theorem UpdatePolicies_announces_cached_policies_only org definedPolicies s :
  (∀ id1 id2, is_Some (definedPolicies !! id1) → is_Some (definedPolicies !! id2) →
     GetId id1 = GetId id2 → id1 = id2) →
  (∃ evs,
     eventChannel (UpdatePolicies org definedPolicies s).2 = eventChannel s ++ evs
     ∧ Forall (λ m, deletion_in org s m ∨ redefinition_of org definedPolicies s m) evs)
  ∧ (orgMap s org = ∅ →
     eventChannel (UpdatePolicies org definedPolicies s).2 = eventChannel s).
Proof.
  intros Hinj.
  assert (∃ evs,
     eventChannel (UpdatePolicies org definedPolicies s).2 = eventChannel s ++ evs
     ∧ Forall (λ m, deletion_in org s m ∨ redefinition_of org definedPolicies s m) evs)
    as (evs & Hev & Hall).
  { destruct (OrgPolicies s !! org) as [l|] eqn:Hl.
    2:{ rewrite UpdatePolicies_not_found by done. exists []. simpl.
        by rewrite app_nil_r. }
    assert (∀ removed : list (string * option BusinessPolicyEntry),
              (∀ n x, (n, x) ∈ removed → orgMap s org !! n = Some x) →
              Forall (λ m, deletion_in org s m ∨ redefinition_of org definedPolicies s m)
                (omap (deleted_message org) removed.*2)) as Hdels.
    { intros removed Hrem. apply Forall_forall. intros m Hm.
      apply list_elem_of_omap in Hm as (x & Hx & Hm).
      apply list_elem_of_fmap in Hx as ([n x'] & -> & Hin). left. exists n, x'.
      split; [by apply Hrem|done]. }
    destruct (decide (definedPolicies = ∅)) as [->|Hne].
    { rewrite UpdatePolicies_no_definitions by eauto.
      destruct (deleteOrg_spec org s) as (evs & k & -> & Hevs).
      exists evs. split; [done|]. rewrite Hevs. apply Hdels.
      intros n x Hin. by apply elem_of_map_to_list. }
    destruct (UpdatePolicies_phases org definedPolicies l s Hl Hne)
      as (s1 & removed & -> & H1 & H2 & _ & H5 & H6 & _ & H8 & H9).
    destruct (reconcile_loop_redefinitions org l
                (shuffle (tick s1) _ (map_to_list definedPolicies)) (set_tick S s1))
      as (chgs & -> & Hchgs).
    { simpl. by rewrite H2. }
    { rewrite shuffle_perm. apply NoDup_fmap_2_strong; [|apply NoDup_fst_map_to_list].
      intros id1 id2 Hi1 Hi2. apply Hinj.
      - apply list_elem_of_fmap in Hi1 as ([i x] & -> & Hi1).
        apply elem_of_map_to_list in Hi1. eauto.
      - apply list_elem_of_fmap in Hi2 as ([i x] & -> & Hi2).
        apply elem_of_map_to_list in Hi2. eauto. }
    exists (omap (deleted_message org) removed.*2 ++ chgs). split.
    { simpl. by rewrite H5, app_assoc. }
    apply Forall_app. split.
    { apply Hdels. intros n x Hin. by apply H6 in Hin as [? _]. }
    eapply Forall_impl; [exact Hchgs|].
    intros m (polId & exPol & newPol & pe & Hin & Hpe & Hh & Hg & Hm). right.
    exists polId, exPol, newPol, pe.
    apply shuffle_elem_of, elem_of_map_to_list in Hin. split_and!; try done.
    change (orgMap (set_tick S s1) org) with (orgMap s1 org) in Hpe.
    destruct (kept_dec org definedPolicies s (GetId polId)) as [Hk|Hk].
    - by rewrite <- (H9 _ Hk).
    - by rewrite (H8 _ Hk) in Hpe. }
  split; [by eauto|].
  intros Hempty. rewrite Hev. destruct evs as [|m evs]; [by rewrite app_nil_r|].
  apply Forall_cons in Hall as [[(n & x & Hx & _)|(polId & exPol & newPol & pe & _ & Hx & _)] _];
    by rewrite Hempty, lookup_empty in Hx.
Qed.

(** A loop that ends with an error: the body returned it for an element of
    the list, in a state that the steps before have led to. *)
Lemma for_range_error {A} (R : State → State → Prop) `{!Reflexive R, !Transitive R}
    (body : A → M (option error)) l s e :
  (∀ x s0, x ∈ l → R s s0 → R s0 (body x s0).2) →
  (for_range body l s).1 = Some e →
  ∃ x s0, x ∈ l ∧ R s s0 ∧ (body x s0).1 = Some e.
Proof.
  intros Hb.
  assert (∀ s0, R s s0 → (for_range body l s0).1 = Some e →
            ∃ x s1, x ∈ l ∧ R s s1 ∧ (body x s1).1 = Some e) as Haux; [|by apply Haux].
  induction l as [|x l IH]; intros s0 Hs; simpl; [done|].
  pose proof (Hb x s0 (list_elem_of_here _ _) Hs) as Hx.
  destruct (body x s0) as [[e'|] s1] eqn:Hbody; simpl in *.
  - intros [= ->]. exists x, s0. split; [apply list_elem_of_here|]. split; [done|].
    by rewrite Hbody.
  - intros Hrun. destruct (IH ltac:(intros y s2 Hy; apply Hb; by apply list_elem_of_further)
                             s1 ltac:(by etrans) Hrun) as (y & s2 & Hy & ? & ?).
    exists y, s2. split; [by apply list_elem_of_further|done].
Qed.

Lemma UpdateEntry_Err p pol polId h now e :
  (UpdateEntry p pol polId h now).2 = Err e →
  Validate pol = false ∨ GenPolicyFromBusinessPolicy pol polId = None.
Proof.
  unfold UpdateEntry. destruct (Validate pol); simpl; [|by left].
  destruct (GenPolicyFromBusinessPolicy pol polId); simpl; [done|by right].
Qed.

Lemma NewBusinessPolicyEntry_Err pol polId now e :
  NewBusinessPolicyEntry pol polId now = Err e →
  (∃ err, hashPolicy pol = Err err)
  ∨ Validate pol = false ∨ GenPolicyFromBusinessPolicy pol polId = None.
Proof.
  unfold NewBusinessPolicyEntry. destruct (hashPolicy pol) as [h|err]; [|by eauto].
  destruct (Validate pol); simpl; [|by eauto].
  destruct (GenPolicyFromBusinessPolicy pol polId); simpl; [done|by eauto].
Qed.

(** The body of the second loop fails on a served definition that cannot be
    ingested, and on no other. *)
Lemma reconcile_error org polId exPol l s e :
  OrgPolicies s !! org = Some l →
  (reconcile org polId exPol s).1 = Some e →
  serveBusinessPolicy org (GetId polId) s = true
  ∧ unusable polId exPol
  ∧ ∃ err, e = HashError org err ∨ e = UpdateEntryError polId org err
           ∨ e = CreateEntryError err.
Proof.
  intros Hl. destruct (serveBusinessPolicy org (GetId polId) s) eqn:Hs.
  2:{ by rewrite reconcile_unserved. }
  unfold unusable.
  destruct (orgMap s org !! GetId polId) as [[pe|]|] eqn:Hpe.
  - destruct (hashPolicy (GetBusinessPolicy exPol)) as [h|err] eqn:Hh.
    2:{ erewrite reconcile_hash_error by done. intros [= <-]. eauto 10. }
    destruct (decide (h = Hash pe)) as [->|Hne].
    { by erewrite reconcile_unchanged. }
    erewrite reconcile_changed by done. cbv zeta.
    pose proof (UpdateEntry_Err pe (GetBusinessPolicy exPol) polId h
                  (time_Now_Unix (tick s))) as HE.
    destruct (UpdateEntry _ _ _ _ _) as [pe' [newPol|err]]; cbv beta iota delta [fst snd] in *;
      [done|].
    intros [= <-]. split; [done|]. split; [right; by eapply HE|eauto].
  - erewrite reconcile_new by eauto.
    destruct (NewBusinessPolicyEntry _ _ _) as [newPE|err] eqn:Hnew; [done|].
    intros [= <-]. split; [done|]. split; [by eapply NewBusinessPolicyEntry_Err|eauto].
  - erewrite reconcile_new by eauto.
    destruct (NewBusinessPolicyEntry _ _ _) as [newPE|err] eqn:Hnew; [done|].
    intros [= <-]. split; [done|]. split; [by eapply NewBusinessPolicyEntry_Err|eauto].
Qed.

(** X18. The errors of [UpdatePolicies].  It reports that the org is not
    found exactly when the org is not tracked.  Every other error is caused
    by a definition that is served and that does not hash, validate or
    convert; it is a hash error, an update error that names this definition,
    or a creation error.  So on a tracked org the call succeeds when every
    served definition hashes, validates and converts. *)
Theorem UpdatePolicies_errors org definedPolicies s :
  ((UpdatePolicies org definedPolicies s).1 = Some (OrgNotFound org) ↔ hasOrg org s = false)
  ∧ (∀ e, (UpdatePolicies org definedPolicies s).1 = Some e → hasOrg org s = true →
       ∃ polId exPol err,
         definedPolicies !! polId = Some exPol
         ∧ serveBusinessPolicy org (GetId polId) s = true
         ∧ unusable polId exPol
         ∧ (e = HashError org err ∨ e = UpdateEntryError polId org err
            ∨ e = CreateEntryError err))
  ∧ (hasOrg org s = true →
     (∀ polId exPol, definedPolicies !! polId = Some exPol →
        serveBusinessPolicy org (GetId polId) s = true → ¬ unusable polId exPol) →
     (UpdatePolicies org definedPolicies s).1 = None).
Proof.
  assert (∀ e, (UpdatePolicies org definedPolicies s).1 = Some e → hasOrg org s = true →
       ∃ polId exPol err,
         definedPolicies !! polId = Some exPol
         ∧ serveBusinessPolicy org (GetId polId) s = true
         ∧ unusable polId exPol
         ∧ (e = HashError org err ∨ e = UpdateEntryError polId org err
            ∨ e = CreateEntryError err)) as Herr.
  { intros e Hrun Htr. apply hasOrg_true in Htr as [l Hl].
    destruct (decide (definedPolicies = ∅)) as [->|Hne].
    { rewrite UpdatePolicies_no_definitions in Hrun by eauto.
      by destruct (deleteOrg_spec org s) as (evs & k & Heq & _); rewrite Heq in Hrun. }
    destruct (UpdatePolicies_phases org definedPolicies l s Hl Hne)
      as (s1 & removed & Heq & H1 & H2 & _).
    rewrite Heq in Hrun.
    destruct (for_range_error (updates l)
                (λ '(polId, exPol), reconcile org polId exPol)
                (shuffle (tick s1) _ (map_to_list definedPolicies)) (set_tick S s1) e)
      as ([polId exPol] & s0 & Hin & Hu & Hrun0).
    { intros [polId exPol] s0 _ (_ & Ho & _). apply reconcile_updates.
      rewrite Ho. simpl. by rewrite H2. }
    { done. }
    destruct Hu as (Hsp & Ho & _). simpl in Hsp, Ho.
    destruct (reconcile_error org polId exPol l s0 e) as (Hs & Hbad & err & Hkind).
    { by rewrite Ho, H2. }
    { done. }
    apply shuffle_elem_of, elem_of_map_to_list in Hin.
    exists polId, exPol, err. split_and!; try done.
    rewrite <- Hs. symmetry. apply serveBusinessPolicy_frame. by rewrite Hsp. }
  split_and!.
  - split.
    + intros Hrun. destruct (hasOrg org s) eqn:Htr; [|done].
      destruct (Herr _ Hrun eq_refl) as (? & ? & ? & _ & _ & _ & [?|[?|?]]); done.
    + intros Hno. rewrite UpdatePolicies_not_found; [done|]. by apply hasOrg_false.
  - done.
  - intros Htr Hgood. destruct (UpdatePolicies org definedPolicies s).1 as [e|] eqn:Hrun;
      [|done].
    destruct (Herr e eq_refl Htr) as (polId & exPol & _ & Hdef & Hs & Hbad & _).
    by destruct (Hgood polId exPol).
Qed.

(** Whatever [UpdatePolicies] does, the messages it sends name the org. *)
Lemma UpdatePolicies_says org definedPolicies s :
  ∃ evs,
    eventChannel (UpdatePolicies org definedPolicies s).2 = eventChannel s ++ evs
    ∧ Forall (λ m, msg_org m = org) evs.
Proof.
  destruct (OrgPolicies s !! org) as [l|] eqn:Hl.
  2:{ rewrite UpdatePolicies_not_found by done. exists []. simpl. by rewrite app_nil_r. }
  destruct (decide (definedPolicies = ∅)) as [->|Hne].
  { rewrite UpdatePolicies_no_definitions by eauto.
    destruct (deleteOrg_spec org s) as (evs & k & -> & Hevs).
    exists evs. split; [done|]. rewrite Hevs. apply deleted_messages_about. }
  destruct (UpdatePolicies_phases org definedPolicies l s Hl Hne)
    as (s1 & removed & -> & H1 & H2 & _ & H5 & _).
  destruct (reconcile_loop_announces org definedPolicies l
              (shuffle (tick s1) _ (map_to_list definedPolicies)) (set_tick S s1))
    as (_ & _ & chgs & Hc & Hall).
  { simpl. by rewrite H2. }
  { intros polId exPol Hin. by apply shuffle_elem_of, elem_of_map_to_list in Hin. }
  exists (omap (deleted_message org) removed.*2 ++ chgs). split.
  - rewrite Hc. simpl. by rewrite H5, app_assoc.
  - apply Forall_app. split; [apply deleted_messages_about|].
    eapply Forall_impl; [exact Hall|]. intros m. apply change_of_about.
Qed.

(** X20. In every state the manager can be in, [UpdatePolicies] on an org
    leaves every other org alone, whatever it returns: the served triplets
    are unchanged, another org is tracked afterwards exactly when it was
    tracked before, its policy map and its cache are the same, and no
    message about it is sent. *)
Theorem UpdatePolicies_leaves_other_orgs_alone org org' definedPolicies s :
  reachable s → org' ≠ org →
  ServedPolicies (UpdatePolicies org definedPolicies s).2 = ServedPolicies s
  ∧ OrgPolicies (UpdatePolicies org definedPolicies s).2 !! org' = OrgPolicies s !! org'
  ∧ hasOrg org' (UpdatePolicies org definedPolicies s).2 = hasOrg org' s
  ∧ orgMap (UpdatePolicies org definedPolicies s).2 org' = orgMap s org'
  ∧ ∃ evs,
      eventChannel (UpdatePolicies org definedPolicies s).2 = eventChannel s ++ evs
      ∧ about org' evs = [].
Proof.
  intros Hr Hne. apply reachable_wf in Hr as (Hok & _).
  assert (ServedPolicies (UpdatePolicies org definedPolicies s).2 = ServedPolicies s
          ∧ OrgPolicies (UpdatePolicies org definedPolicies s).2 !! org'
            = OrgPolicies s !! org') as [Hsp Ho].
  { destruct (OrgPolicies s !! org) as [l|] eqn:Hl.
    2:{ by rewrite UpdatePolicies_not_found. }
    destruct (decide (definedPolicies = ∅)) as [->|Hdefs].
    { rewrite UpdatePolicies_no_definitions by eauto.
      destruct (deleteOrg_spec org s) as (evs & k & -> & _). simpl.
      by rewrite lookup_delete_ne. }
    destruct (UpdatePolicies_updates org definedPolicies l s Hl Hdefs) as (-> & -> & _).
    done. }
  split_and!; try done.
  - unfold hasOrg. by rewrite Ho.
  - by apply UpdatePolicies_other_org.
  - destruct (UpdatePolicies_says org definedPolicies s) as (evs & Hev & Hall).
    exists evs. split; [done|]. unfold about. apply filter_none.
    intros m Hm Hm'. rewrite Forall_forall in Hall. apply Hne. by rewrite <- Hm', (Hall m).
Qed.

(** ** Further properties of [SetCurrentBusinessPolicies] *)

(** X17. In every state the manager can be in, also after writes of the
    caller to the triplets: after [SetCurrentBusinessPolicies] the served
    triplets are the given ones.  When the call does not return at once, or
    when every tracked org is served before it, an org is tracked afterwards
    exactly when it is served; when it returns at once it changes nothing.
    No policy map of the store is changed or freed.  Every message sent is
    the deletion message of an entry that was cached for a tracked org that
    the new triplets do not name; when they name every tracked org, no
    message is sent. *)
Theorem SetCurrentBusinessPolicies_serves_what_it_tracks servedPols s :
  reachable_shared s →
  ServedPolicies (SetCurrentBusinessPolicies servedPols s).2 = servedPols
  ∧ (¬ early_exit servedPols s ∨ tracked_served s →
     ∀ org, hasOrg org (SetCurrentBusinessPolicies servedPols s).2
            = serveOrg org (SetCurrentBusinessPolicies servedPols s).2)
  ∧ (early_exit servedPols s → SetCurrentBusinessPolicies servedPols s = (None, s))
  ∧ heap s ⊆ heap (SetCurrentBusinessPolicies servedPols s).2
  ∧ ∃ evs,
      eventChannel (SetCurrentBusinessPolicies servedPols s).2 = eventChannel s ++ evs
      ∧ Forall (λ m, hasOrg (msg_org m) s = true
                     ∧ (msg_org m ∉ served_orgs servedPols)
                     ∧ deletion_in (msg_org m) s m) evs
      ∧ ((∀ org, hasOrg org s = true → org ∈ served_orgs servedPols) → evs = []).
Proof.
  intros Hr. apply reachable_shared_sound in Hr as (Hok & Hn).
  destruct (decide (ServedPolicies s = ∅ ∧ servedPols = ∅)) as [[H1 H2]|Hne].
  { rewrite SetCurrentBusinessPolicies_nothing_to_do by done. simpl. subst servedPols.
    split_and!; try done.
    - intros [Hcase|Hd]; [by destruct Hcase|]. unfold tracked_served in Hd.
      intros org. apply eq_true_iff_eq. rewrite hasOrg_dom, serveOrg_spec. split; [apply Hd|].
      rewrite H1, served_orgs_empty. by intros ?%elem_of_empty.
    - exists []. by rewrite app_nil_r. }
  destruct (SetCurrentBusinessPolicies_spec servedPols s Hok Hne)
    as (s' & evs & -> & Hsp & Hok' & Hsub & Hdom & _ & _ & _ & Hch & Hev).
  simpl. split_and!; try done.
  - intros _ org. apply eq_true_iff_eq. by rewrite hasOrg_dom, serveOrg_spec, Hdom, Hsp.
  - exists evs. split_and!; try done.
    + apply Forall_forall. intros m Hm.
      assert (m ∈ about (msg_org m) evs) as Hab.
      { unfold about. by apply list_elem_of_filter. }
      rewrite (Hev (msg_org m)) in Hab. case_decide as Hdec; [|by apply elem_of_nil in Hab].
      destruct Hdec as [Htr Hns]. split_and!; try done.
      * by apply hasOrg_true.
      * apply list_elem_of_omap in Hab as (x & Hx & Hdm).
        apply list_elem_of_fmap in Hx as ([n x'] & -> & Hin).
        apply elem_of_map_to_list in Hin. by exists n, x'.
    + intros Hall. apply about_all_nil. intros X. rewrite Hev.
      rewrite decide_False; [done|]. intros [Htr Hns]. apply Hns, Hall. by apply hasOrg_true.
Qed.

End PolicyManager.

(** * A scenario

    The collaborators are instantiated: definitions and internal policies
    are strings, a definition is invalid when it reads [invalid], hashing
    is the serialization itself (a stand-in without collisions), and the
    enumeration order of the n-th loop is the order of the keys for an even
    n and its reverse for an odd one.  The theorems above are applied to
    the states of one run. *)

Module Scenario.

#[local] Instance json_Marshal_string : JsonMarshal string :=
  λ s, Some (String.list_byte_of_string s).

Definition GetBusinessPolicy (exPol : string) : string := exPol.
Definition Validate (pol : string) : bool := negb (String.eqb pol "invalid").
Definition GenPolicyFromBusinessPolicy (pol polId : string) : option string :=
  Some (polId +:+ ":" +:+ pol).
Definition GenPolicyFromExternalPolicy (p svcId : string) : option string :=
  Some (svcId +:+ ":" +:+ p).
Definition MarshalPolicy (p : string) : option string := Some p.
Definition Header_Name (p : string) : string := p.

(** The part of the id after its last slash. *)
Fixpoint GetId_from (acc s : string) : string :=
  match s with
  | EmptyString => acc
  | String c r =>
      if Ascii.eqb c (Ascii.ascii_of_nat 47) then GetId_from r r else GetId_from acc r
  end.
Definition GetId (s : string) : string := GetId_from s s.

Definition sha3_Sum256 (b : bytes) : bytes := b.
Definition time_Now_Unix (n : nat) : Z := 1700000000 + Z.of_nat n.
Definition shuffle (n : nat) (A : Type) (l : list A) : list A :=
  if Nat.even n then l else reverse l.

Lemma shuffle_permutes n (A : Type) (l : list A) : shuffle n A l ≡ₚ l.
Proof. unfold shuffle. destruct (Nat.even n); [done|]. apply reverse_Permutation. Qed.

Abbreviation run_SetCurrentBusinessPolicies :=
  (SetCurrentBusinessPolicies MarshalPolicy Header_Name shuffle).
Abbreviation run_UpdatePolicies :=
  (UpdatePolicies GetBusinessPolicy Validate GenPolicyFromBusinessPolicy MarshalPolicy
     Header_Name GetId sha3_Sum256 time_Now_Unix shuffle).
Abbreviation run_GetServedNodeOrgs := (GetServedNodeOrgs (policy_Policy:=string) shuffle).
Abbreviation is_reachable :=
  (reachable GetBusinessPolicy Validate GenPolicyFromBusinessPolicy
     GenPolicyFromExternalPolicy MarshalPolicy Header_Name GetId sha3_Sum256
     time_Now_Unix shuffle).
Abbreviation is_reachable_shared :=
  (reachable_shared GetBusinessPolicy Validate GenPolicyFromBusinessPolicy
     GenPolicyFromExternalPolicy MarshalPolicy Header_Name GetId sha3_Sum256
     time_Now_Unix shuffle).
Abbreviation run_deleteOrg := (deleteOrg MarshalPolicy Header_Name shuffle).
Abbreviation run_deleteBusinessPolicy := (deleteBusinessPolicy MarshalPolicy Header_Name).
Abbreviation run_AddServicePolicy := (AddServicePolicy GenPolicyFromExternalPolicy sha3_Sum256).
Abbreviation run_UpdateEntry := (UpdateEntry Validate GenPolicyFromBusinessPolicy).
Abbreviation run_NewBusinessPolicyEntry :=
  (NewBusinessPolicyEntry Validate GenPolicyFromBusinessPolicy sha3_Sum256).
Abbreviation deletion_message := (deleted_message MarshalPolicy Header_Name).
Abbreviation is_change_of :=
  (change_of GetBusinessPolicy Validate GenPolicyFromBusinessPolicy MarshalPolicy
     Header_Name GetId).
Abbreviation is_redefinition_of :=
  (redefinition_of GetBusinessPolicy GenPolicyFromBusinessPolicy MarshalPolicy
     Header_Name GetId sha3_Sum256).
Abbreviation is_deletion_in := (deletion_in MarshalPolicy Header_Name).
Abbreviation is_unusable :=
  (unusable GetBusinessPolicy Validate GenPolicyFromBusinessPolicy sha3_Sum256).
Abbreviation is_quiet := (quiet GetBusinessPolicy GetId sha3_Sum256).

(** The agent serves every policy of [orgA], for the nodes of [orgA], and
    policy [polX] of [orgB], for the nodes of [nodeOrgB]. *)
Definition triplets : gmap string ServedBusinessPolicy :=
  {[ "orgA_*_" := {| BusinessPolOrg := "orgA"; BusinessPol := "*"; NodeOrg := "" |};
     "orgB_polX_nodeOrgB" :=
       {| BusinessPolOrg := "orgB"; BusinessPol := "polX"; NodeOrg := "nodeOrgB" |} ]}.

Definition s0 : State (policy_Policy:=string) := NewPolicyManager.
Definition s1 : State := (run_SetCurrentBusinessPolicies triplets s0).2.
Definition s2 : State := (run_UpdatePolicies "orgA" {[ "orgA/polA" := "defV1" ]} s1).2.

(** The entry cached for [polA] in [s2]. *)
Definition polA_v1 : BusinessPolicyEntry :=
  {| Policy := "orgA/polA:defV1"; Updated := 1700000004;
     Hash := String.list_byte_of_string "defV1"; ServicePolicies := ∅ |}.

(** The policy map of [orgA] in [s2]. *)
Definition cache_v1 : gmap string (option BusinessPolicyEntry) :=
  {[ "polA" := Some polA_v1 ]}.

(** The hash that is read for policy [name] through the map reference [l]. *)
Definition hash_through (l : loc) (name : string) (s : State (policy_Policy:=string))
    : option bytes :=
  heap s !! l ≫= λ m, m !! name ≫= λ pe, Hash <$> pe.

(** The triplets after the agent has stopped serving [orgA]. *)
Definition triplets_without_orgA : gmap string ServedBusinessPolicy :=
  delete "orgA_*_" triplets.

(** The definitions that re-ingest [polA] as [def]. *)
Definition polA_as (def : string) : gmap string string := {[ "orgA/polA" := def ]}.

(** A changed definition of [polA] and a definition of [polB] that is not
    valid: the loop over the definitions handles [polA] first. *)
Definition polA_and_invalid_polB : gmap string string :=
  {[ "orgA/polA" := "defV2"; "orgA/polB" := "invalid" ]}.

(** The state after the first loop, and after the definition of [polA]. *)
Definition after_prune : State :=
  (for_range (λ '(polName, _),
       prune MarshalPolicy Header_Name GetId "orgA" polA_and_invalid_polB polName)
     (shuffle (tick s2) _ (map_to_list (orgMap s2 "orgA"))) (set_tick S s2)).2.
Definition after_polA : State :=
  (for_range (λ '(polId, exPol),
       reconcile GetBusinessPolicy Validate GenPolicyFromBusinessPolicy MarshalPolicy
         Header_Name GetId sha3_Sum256 time_Now_Unix "orgA" polId exPol)
     [("orgA/polA", "defV2")] (set_tick S after_prune)).2.

(** The definition presented last for [polA] in [s2]. *)
Definition presented_v1 : gmap string string := {[ "polA" := "defV1" ]}.

(** The caller has deleted every key of the map of triplets it handed to
    the manager in [s0]: the manager's triplets are empty, and [orgA] and
    [orgB] are still tracked. *)
Definition emptied : State := caller_writes ∅ s2.

(** The triplet of [triplets] that serves every policy of [orgA]. *)
Definition orgA_all : ServedBusinessPolicy :=
  {| BusinessPolOrg := "orgA"; BusinessPol := "*"; NodeOrg := "" |}.

Lemma s1_reachable : is_reachable s1.
Proof. apply reach_SetCurrentBusinessPolicies, reach_NewPolicyManager. Qed.

Lemma s2_reachable : is_reachable s2.
Proof. apply reach_UpdatePolicies, s1_reachable. Qed.

Lemma s2_reachable_shared : is_reachable_shared s2.
Proof. apply reachable_reachable_shared, s2_reachable. Qed.

Lemma emptied_reachable_shared : is_reachable_shared emptied.
Proof. apply shared_caller_writes, s2_reachable_shared. Qed.

Lemma emptied_no_early_exit : ¬ early_exit triplets_without_orgA emptied.
Proof.
  intros [_ H].
  apply (f_equal (λ m : gmap string ServedBusinessPolicy, m !! "orgB_polX_nodeOrgB")) in H.
  vm_compute in H. discriminate.
Qed.

Lemma s2_orgA : OrgPolicies s2 !! "orgA" = Some 1%positive.
Proof. vm_compute. reflexivity. Qed.

Lemma s2_cache : heap s2 !! 1%positive = Some cache_v1.
Proof. vm_compute. reflexivity. Qed.

Lemma s2_serves_orgA polName : serveBusinessPolicy "orgA" polName s2 = true.
Proof.
  apply serveBusinessPolicy_spec. eexists "orgA_*_", _.
  split; [vm_compute; reflexivity|]. simpl. eauto.
Qed.

Lemma UpdatePolicies_untracked_org_witness :
  hasOrg "orgC" s2 = false
  ∧ run_UpdatePolicies "orgC" {[ "orgC/polC" := "defV1" ]} s2
    = (Some (OrgNotFound "orgC"), s2).
Proof.
  assert (hasOrg "orgC" s2 = false) as H by (vm_compute; reflexivity).
  split; [exact H|].
  exact (UpdatePolicies_untracked_org GetBusinessPolicy Validate GenPolicyFromBusinessPolicy
           MarshalPolicy Header_Name GetId sha3_Sum256 time_Now_Unix shuffle
           "orgC" {[ "orgC/polC" := "defV1" ]} s2 H).
Defined.

Lemma UpdateEntry_failure_leaves_partial_update_witness :
  (Validate "invalid" = false ∨ GenPolicyFromBusinessPolicy "invalid" "orgA/polA" = None)
  ∧ ∃ p' e,
      UpdateEntry Validate GenPolicyFromBusinessPolicy polA_v1 "invalid" "orgA/polA"
        (String.list_byte_of_string "invalid") 1700000100 = (p', Err e)
      ∧ Hash p' = String.list_byte_of_string "invalid"
      ∧ Updated p' = uint64 1700000100
      ∧ ServicePolicies p' = ∅
      ∧ Policy p' = Policy polA_v1.
Proof.
  assert (Validate "invalid" = false
          ∨ GenPolicyFromBusinessPolicy "invalid" "orgA/polA" = None) as H
    by (left; vm_compute; reflexivity).
  split; [exact H|].
  exact (UpdateEntry_failure_leaves_partial_update Validate GenPolicyFromBusinessPolicy
           polA_v1 "invalid" "orgA/polA" (String.list_byte_of_string "invalid")
           1700000100 H).
Defined.

Lemma GetServedNodeOrgs_spec_witness :
  (∀ n (A : Type) (l : list A), shuffle n A l ≡ₚ l)
  ∧ (run_GetServedNodeOrgs "orgA" "polA" s2).1
      ≡ₚ node_org_of "orgA" <$>
           filter (served_by "orgA" "polA") (map_to_list (ServedPolicies s2)).*2
  ∧ (run_GetServedNodeOrgs "orgA" "polA" s2).2 = set_tick S s2.
Proof.
  split; [exact shuffle_permutes|].
  exact (GetServedNodeOrgs_spec shuffle shuffle_permutes "orgA" "polA" s2).
Defined.

(** The triplet of [orgA] has no node org: the policy org stands in. *)
Example GetServedNodeOrgs_default_node_org :
  (run_GetServedNodeOrgs "orgA" "polA" s2).1 = ["orgA"]
  ∧ (run_GetServedNodeOrgs "orgB" "polX" s2).1 = ["nodeOrgB"]
  ∧ (run_GetServedNodeOrgs "orgB" "polY" s2).1 = [].
Proof. vm_compute. done. Qed.

Lemma GetAllBusinessPolicyEntriesForOrg_returns_internal_map_witness :
  GetAllBusinessPolicyEntriesForOrg "orgA" s2 = (OrgPolicies s2 !! "orgA", s2)
  ∧ ((GetAllBusinessPolicyEntriesForOrg "orgA" s2).1 = None ↔ hasOrg "orgA" s2 = false).
Proof. exact (GetAllBusinessPolicyEntriesForOrg_returns_internal_map "orgA" s2). Defined.

(** C9 as stated fails.  The caller of [GetAllBusinessPolicyEntriesForOrg]
    in state [s2] gets the reference the manager holds for [orgA], and what
    it reads through that reference changes with the next [UpdatePolicies]:
    the returned map is no snapshot. *)
Lemma GetAllBusinessPolicyEntriesForOrg_is_not_a_copy :
  let '(r, s) := GetAllBusinessPolicyEntriesForOrg "orgA" s2 in
  let s' := (run_UpdatePolicies "orgA" {[ "orgA/polA" := "defV2" ]} s).2 in
  ∃ l, r = Some l
     ∧ OrgPolicies s !! "orgA" = Some l
     ∧ hash_through l "polA" s = Some (String.list_byte_of_string "defV1")
     ∧ hash_through l "polA" s' = Some (String.list_byte_of_string "defV2").
Proof. exists 1%positive. vm_compute. done. Qed.

Lemma orgA_not_served : "orgA" ∉ served_orgs triplets_without_orgA.
Proof. apply (bool_decide_unpack _). vm_compute. exact I. Qed.

Lemma SetCurrentBusinessPolicies_tracks_served_orgs_witness :
  (∀ n (A : Type) (l : list A), shuffle n A l ≡ₚ l)
  ∧ is_reachable_shared emptied
  ∧ (¬ early_exit triplets_without_orgA emptied ∨ tracked_served emptied)
  ∧ ∃ s', run_SetCurrentBusinessPolicies triplets_without_orgA emptied = (None, s')
      ∧ dom (OrgPolicies s') = served_orgs triplets_without_orgA
      ∧ (∀ org, org ∈ served_orgs triplets_without_orgA → OrgPolicies emptied !! org = None →
           ∃ l, OrgPolicies s' !! org = Some l ∧ heap emptied !! l = None
                ∧ heap s' !! l = Some ∅ ∧ orgMap s' org = ∅)
      ∧ (∀ org, is_Some (OrgPolicies emptied !! org) →
           org ∉ served_orgs triplets_without_orgA → OrgPolicies s' !! org = None)
      ∧ (∀ org, is_Some (OrgPolicies emptied !! org) →
           org ∈ served_orgs triplets_without_orgA →
           OrgPolicies s' !! org = OrgPolicies emptied !! org
           ∧ orgMap s' org = orgMap emptied org).
Proof.
  split; [exact shuffle_permutes|]. split; [exact emptied_reachable_shared|].
  split; [left; exact emptied_no_early_exit|].
  exact (SetCurrentBusinessPolicies_tracks_served_orgs GetBusinessPolicy Validate
           GenPolicyFromBusinessPolicy GenPolicyFromExternalPolicy MarshalPolicy
           Header_Name GetId sha3_Sum256 time_Now_Unix shuffle shuffle_permutes
           triplets_without_orgA emptied emptied_reachable_shared
           (or_introl emptied_no_early_exit)).
Defined.

Lemma SetCurrentBusinessPolicies_idempotent_witness :
  is_reachable s2
  ∧ ∃ s1' s2',
      run_SetCurrentBusinessPolicies triplets_without_orgA s2 = (None, s1')
      ∧ run_SetCurrentBusinessPolicies triplets_without_orgA s1' = (None, s2')
      ∧ dom (OrgPolicies s2') = dom (OrgPolicies s1')
      ∧ eventChannel s2' = eventChannel s1'.
Proof.
  split; [exact s2_reachable|].
  exact (SetCurrentBusinessPolicies_idempotent GetBusinessPolicy Validate
           GenPolicyFromBusinessPolicy GenPolicyFromExternalPolicy MarshalPolicy
           Header_Name GetId sha3_Sum256 time_Now_Unix shuffle shuffle_permutes
           triplets_without_orgA s2 s2_reachable).
Defined.

Lemma policies_marshal (m : gmap string (option (BusinessPolicyEntry (policy_Policy:=string)))) :
  ∀ n pe, m !! n = Some (Some pe) → is_Some (MarshalPolicy (Policy pe)).
Proof. intros n pe _. by eexists. Qed.


(** The run of the scenario: the one message is the deletion of [polA]. *)
Example deletion_cascade_run :
  let s' := (run_SetCurrentBusinessPolicies triplets_without_orgA s2).2 in
  eventChannel s'
  = [NewPolicyDeletedMessage DELETED_POLICY "" "orgA/polA:defV1" "orgA" "orgA/polA:defV1"]
  ∧ OrgPolicies s' !! "orgA" = None
  ∧ OrgPolicies s' !! "orgB" = Some 2%positive.
Proof. vm_compute. done. Qed.

Lemma cache_v1_reingested def n x :
  cache_v1 !! n = Some x →
  serveBusinessPolicy "orgA" n s2 = true ∧ defined GetId (polA_as def) n.
Proof.
  intros H. unfold cache_v1 in H. apply lookup_singleton_Some in H as [<- _].
  split; [apply s2_serves_orgA|]. exists "orgA/polA". split; [|reflexivity].
  unfold polA_as. rewrite lookup_singleton_eq. by eexists.
Qed.

Lemma polA_only def id ex :
  polA_as def !! id = Some ex → id ≠ "orgA/polA" →
  GetId id ≠ GetId "orgA/polA" ∧ quiet GetBusinessPolicy GetId sha3_Sum256 "orgA" s2 id ex.
Proof.
  intros H Hne. unfold polA_as in H. apply lookup_singleton_Some in H as [<- _]. done.
Qed.

Lemma UpdatePolicies_change_detection_witness :
  (∀ n (A : Type) (l : list A), shuffle n A l ≡ₚ l)
  ∧ OrgPolicies s2 !! "orgA" = Some 1%positive
  ∧ heap s2 !! 1%positive = Some cache_v1
  ∧ cache_v1 !! GetId "orgA/polA" = Some (Some polA_v1)
  ∧ polA_as "defV2" !! "orgA/polA" = Some "defV2"
  ∧ serveBusinessPolicy "orgA" (GetId "orgA/polA") s2 = true
  ∧ (∀ n x, cache_v1 !! n = Some x →
       serveBusinessPolicy "orgA" n s2 = true ∧ defined GetId (polA_as "defV2") n)
  ∧ (∀ id ex, polA_as "defV2" !! id = Some ex → id ≠ "orgA/polA" →
       GetId id ≠ GetId "orgA/polA"
       ∧ quiet GetBusinessPolicy GetId sha3_Sum256 "orgA" s2 id ex)
  ∧ (∃ s', run_UpdatePolicies "orgA" (polA_as "defV1") s2 = (None, s')
       ∧ eventChannel s' = eventChannel s2
       ∧ orgMap s' "orgA" = cache_v1)
  ∧ (∃ s' pe', run_UpdatePolicies "orgA" (polA_as "defV2") s2 = (None, s')
       ∧ eventChannel s'
         = eventChannel s2 ++
           [NewPolicyChangedMessage CHANGED_POLICY "" (Header_Name "orgA/polA:defV2")
              "orgA" "orgA/polA:defV2"]
       ∧ orgMap s' "orgA" = <[GetId "orgA/polA" := Some pe']> cache_v1
       ∧ Hash pe' = String.list_byte_of_string "defV2"
       ∧ Policy pe' = "orgA/polA:defV2"
       ∧ ServicePolicies pe' = ∅).
Proof.
  assert (cache_v1 !! GetId "orgA/polA" = Some (Some polA_v1)) as Hpe by reflexivity.
  assert (∀ def, polA_as def !! "orgA/polA" = Some def) as Hdef
    by (intros def; apply lookup_singleton_eq).
  split; [exact shuffle_permutes|]. split; [exact s2_orgA|]. split; [exact s2_cache|].
  split; [exact Hpe|]. split; [exact (Hdef "defV2")|].
  split; [exact (s2_serves_orgA _)|].
  split; [exact (cache_v1_reingested "defV2")|]. split; [exact (polA_only "defV2")|].
  split.
  - exact (proj1 (UpdatePolicies_change_detection GetBusinessPolicy Validate
             GenPolicyFromBusinessPolicy MarshalPolicy Header_Name GetId sha3_Sum256
             time_Now_Unix shuffle shuffle_permutes
             "orgA" (polA_as "defV1") 1%positive cache_v1 "orgA/polA" "defV1" polA_v1 s2
             s2_orgA s2_cache Hpe (Hdef "defV1") (s2_serves_orgA _)
             (cache_v1_reingested "defV1") (polA_only "defV1")) eq_refl).
  - exact (proj1 (proj2 (UpdatePolicies_change_detection GetBusinessPolicy Validate
             GenPolicyFromBusinessPolicy MarshalPolicy Header_Name GetId sha3_Sum256
             time_Now_Unix shuffle shuffle_permutes
             "orgA" (polA_as "defV2") 1%positive cache_v1 "orgA/polA" "defV2" polA_v1 s2
             s2_orgA s2_cache Hpe (Hdef "defV2") (s2_serves_orgA _)
             (cache_v1_reingested "defV2") (polA_only "defV2")))
           (String.list_byte_of_string "defV2") "orgA/polA:defV2" "orgA/polA:defV2"
           eq_refl ltac:(discriminate) eq_refl eq_refl eq_refl).
Defined.

Lemma UpdatePolicies_error_keeps_changes_witness :
  (∀ n (A : Type) (l : list A), shuffle n A l ≡ₚ l)
  ∧ is_Some (OrgPolicies s2 !! "orgA")
  ∧ for_range (λ '(polName, _),
         prune MarshalPolicy Header_Name GetId "orgA" polA_and_invalid_polB polName)
       (shuffle (tick s2) _ (map_to_list (orgMap s2 "orgA"))) (set_tick S s2)
    = (None, after_prune)
  ∧ shuffle (tick after_prune) _ (map_to_list polA_and_invalid_polB)
    = [("orgA/polA", "defV2")] ++ ("orgA/polB", "invalid") :: []
  ∧ for_range (λ '(polId, exPol),
         reconcile GetBusinessPolicy Validate GenPolicyFromBusinessPolicy MarshalPolicy
           Header_Name GetId sha3_Sum256 time_Now_Unix "orgA" polId exPol)
       [("orgA/polA", "defV2")] (set_tick S after_prune)
    = (None, after_polA)
  ∧ serveBusinessPolicy "orgA" (GetId "orgA/polB") after_polA = true
  ∧ hashPolicy sha3_Sum256 (GetBusinessPolicy "invalid")
    = Ok (String.list_byte_of_string "invalid")
  ∧ (∀ pe, orgMap after_polA "orgA" !! GetId "orgA/polB" = Some (Some pe) →
           Hash pe ≠ String.list_byte_of_string "invalid")
  ∧ (Validate (GetBusinessPolicy "invalid") = false
     ∨ GenPolicyFromBusinessPolicy (GetBusinessPolicy "invalid") "orgA/polB" = None)
  ∧ ∃ e s3,
      run_UpdatePolicies "orgA" polA_and_invalid_polB s2 = (Some e, s3)
      ∧ ServedPolicies s3 = ServedPolicies after_polA
      ∧ OrgPolicies s3 = OrgPolicies after_polA
      ∧ eventChannel s3 = eventChannel after_polA
      ∧ (∀ n, n ≠ GetId "orgA/polB" → orgMap s3 "orgA" !! n = orgMap after_polA "orgA" !! n)
      ∧ (∀ l', OrgPolicies after_polA !! "orgA" ≠ Some l' →
               heap s3 !! l' = heap after_polA !! l').
Proof.
  assert (is_Some (OrgPolicies s2 !! "orgA")) as H1 by (rewrite s2_orgA; eauto).
  assert (for_range (λ '(polName, _),
              prune MarshalPolicy Header_Name GetId "orgA" polA_and_invalid_polB polName)
            (shuffle (tick s2) _ (map_to_list (orgMap s2 "orgA"))) (set_tick S s2)
          = (None, after_prune)) as H2 by (vm_compute; reflexivity).
  assert (shuffle (tick after_prune) _ (map_to_list polA_and_invalid_polB)
          = [("orgA/polA", "defV2")] ++ ("orgA/polB", "invalid") :: []) as H3
    by (vm_compute; reflexivity).
  assert (for_range (λ '(polId, exPol),
              reconcile GetBusinessPolicy Validate GenPolicyFromBusinessPolicy MarshalPolicy
                Header_Name GetId sha3_Sum256 time_Now_Unix "orgA" polId exPol)
            [("orgA/polA", "defV2")] (set_tick S after_prune)
          = (None, after_polA)) as H4 by (vm_compute; reflexivity).
  assert (serveBusinessPolicy "orgA" (GetId "orgA/polB") after_polA = true) as H5
    by (vm_compute; reflexivity).
  assert (hashPolicy sha3_Sum256 (GetBusinessPolicy "invalid")
          = Ok (String.list_byte_of_string "invalid")) as H6 by reflexivity.
  assert (∀ pe, orgMap after_polA "orgA" !! GetId "orgA/polB" = Some (Some pe) →
                Hash pe ≠ String.list_byte_of_string "invalid") as H7.
  { intros pe H. vm_compute in H. discriminate. }
  assert (Validate (GetBusinessPolicy "invalid") = false
          ∨ GenPolicyFromBusinessPolicy (GetBusinessPolicy "invalid") "orgA/polB" = None)
    as H8 by (left; reflexivity).
  split; [exact shuffle_permutes|]. split; [exact H1|]. split; [exact H2|].
  split; [exact H3|]. split; [exact H4|]. split; [exact H5|]. split; [exact H6|].
  split; [exact H7|]. split; [exact H8|].
  exact (UpdatePolicies_error_keeps_changes GetBusinessPolicy Validate
           GenPolicyFromBusinessPolicy MarshalPolicy Header_Name GetId sha3_Sum256
           time_Now_Unix shuffle shuffle_permutes
           "orgA" polA_and_invalid_polB s2 after_prune after_polA
           [("orgA/polA", "defV2")] "orgA/polB" "invalid" []
           (String.list_byte_of_string "invalid") H1 H2 H3 H4 H5 H6 H7 H8).
Defined.

(** The run of the scenario: the call fails on [polB], the change message
    of [polA] has been sent and the entry of [polA] holds the new hash. *)
Example error_keeps_changes_run :
  let r := run_UpdatePolicies "orgA" polA_and_invalid_polB s2 in
  r.1 = Some (CreateEntryError ValidateError)
  ∧ eventChannel r.2
    = [NewPolicyChangedMessage CHANGED_POLICY "" "orgA/polA:defV2" "orgA" "orgA/polA:defV2"]
  ∧ hash_through 1%positive "polA" r.2 = Some (String.list_byte_of_string "defV2")
  ∧ hash_through 1%positive "polB" r.2 = None.
Proof. vm_compute. done. Qed.

(** The stand-in for the hash has no collisions. *)
Lemma hash_no_collision (d d' : string) h :
  hashPolicy sha3_Sum256 d = Ok h → hashPolicy sha3_Sum256 d' = Ok h → d = d'.
Proof.
  unfold hashPolicy, json_Marshal, json_Marshal_string, sha3_Sum256.
  intros [= <-] [= H].
  rewrite <- (String.string_of_list_byte_of_string d),
          <- (String.string_of_list_byte_of_string d').
  by rewrite H.
Qed.

Lemma s2_orgMap : orgMap s2 "orgA" = cache_v1.
Proof. unfold orgMap. by rewrite s2_orgA, s2_cache. Qed.

Lemma s2_reflects : reflects sha3_Sum256 presented_v1 (orgMap s2 "orgA").
Proof.
  rewrite s2_orgMap. intros n pe H. unfold cache_v1 in H.
  apply lookup_singleton_Some in H as [<- [= <-]].
  exists "defV1". split; reflexivity.
Qed.


(** ** The two claims that fail on the code *)

(** C2. The claim fails on the code.  The manager keeps the map of triplets
    it is given, so the caller's writes reach it: after the caller has
    emptied that map, [SetCurrentBusinessPolicies] with no triplets finds
    nothing to do and returns without error, and [orgA] and [orgB], which no
    triplet names, are still tracked.  Without the caller's write the same
    call removes both orgs. *)
Theorem SetCurrentBusinessPolicies_leaves_unserved_orgs_tracked :
  emptied = caller_writes ∅ s2
  ∧ is_reachable_shared emptied
  ∧ run_SetCurrentBusinessPolicies ∅ emptied = (None, emptied)
  ∧ served_orgs (∅ : gmap string ServedBusinessPolicy) = ∅
  ∧ hasOrg "orgA" emptied = true
  ∧ hasOrg "orgB" emptied = true
  ∧ dom (OrgPolicies (run_SetCurrentBusinessPolicies ∅ emptied).2) ≠ served_orgs ∅
  ∧ dom (OrgPolicies (run_SetCurrentBusinessPolicies ∅ s2).2) = served_orgs ∅.
Proof.
  assert (run_SetCurrentBusinessPolicies ∅ emptied = (None, emptied)) as Hrun
    by (vm_compute; reflexivity).
  assert (hasOrg "orgA" emptied = true) as HA by (vm_compute; reflexivity).
  split; [reflexivity|]. split; [exact emptied_reachable_shared|]. split; [exact Hrun|].
  split; [apply served_orgs_empty|]. split; [exact HA|].
  split; [vm_compute; reflexivity|]. split.
  - rewrite Hrun, served_orgs_empty. cbv beta iota delta [snd]. intros Hdom.
    apply hasOrg_dom in HA. rewrite Hdom in HA. by apply elem_of_empty in HA.
  - assert (OrgPolicies (run_SetCurrentBusinessPolicies ∅ s2).2 = ∅) as ->
      by (vm_compute; reflexivity).
    by rewrite served_orgs_empty, dom_empty_L.
Qed.

(** C4. The claim fails on the code.  The entry of [polA] was made from the
    definition [defV1] and holds its hash.  [UpdatePolicies] with a
    definition that does not validate returns an error and ingests nothing:
    the entry keeps the policy made from [defV1].  Its stored hash has
    changed all the same: it is the hash of the rejected definition. *)
Theorem contentHash_follows_a_rejected_definition :
  let r := run_UpdatePolicies "orgA" (polA_as "invalid") s2 in
  orgMap s2 "orgA" !! "polA" = Some (Some polA_v1)
  ∧ GenPolicyFromBusinessPolicy "defV1" "orgA/polA" = Some (Policy polA_v1)
  ∧ hashPolicy sha3_Sum256 "defV1" = Ok (Hash polA_v1)
  ∧ Validate "invalid" = false
  ∧ r.1 = Some (UpdateEntryError "orgA/polA" "orgA" ValidateError)
  ∧ ∃ pe, orgMap r.2 "orgA" !! "polA" = Some (Some pe)
      ∧ Policy pe = Policy polA_v1
      ∧ hashPolicy sha3_Sum256 "invalid" = Ok (Hash pe)
      ∧ Hash pe ≠ Hash polA_v1.
Proof.
  cbv zeta. split; [vm_compute; reflexivity|]. split; [reflexivity|].
  split; [reflexivity|]. split; [reflexivity|]. split; [vm_compute; reflexivity|].
  eexists. split; [vm_compute; reflexivity|]. split; [reflexivity|].
  split; [reflexivity|]. vm_compute. discriminate.
Qed.

(** ** The further properties in the scenario *)

Lemma polA_as_nonempty def : polA_as def ≠ ∅.
Proof.
  intros H. apply (f_equal (λ m : gmap string string, m !! "orgA/polA")) in H.
  unfold polA_as in H. by rewrite lookup_singleton_eq, lookup_empty in H.
Qed.

Lemma polA_as_distinct_names def id1 id2 :
  is_Some (polA_as def !! id1) → is_Some (polA_as def !! id2) →
  GetId id1 = GetId id2 → id1 = id2.
Proof.
  unfold polA_as. intros [x H1] [y H2] _.
  apply lookup_singleton_Some in H1 as [<- _]. by apply lookup_singleton_Some in H2 as [<- _].
Qed.

Lemma s2_cache_kept def n :
  is_Some (orgMap s2 "orgA" !! n) →
  serveBusinessPolicy "orgA" n s2 = true ∧ defined GetId (polA_as def) n.
Proof.
  assert (orgMap s2 "orgA" = cache_v1) as -> by (vm_compute; reflexivity).
  intros [x Hx]. by eapply cache_v1_reingested.
Qed.

Lemma UpdatePolicies_leaves_other_orgs_alone_witness :
  is_reachable s2
  ∧ "orgB" ≠ "orgA"
  ∧ ServedPolicies (run_UpdatePolicies "orgA" (polA_as "defV2") s2).2 = ServedPolicies s2
  ∧ OrgPolicies (run_UpdatePolicies "orgA" (polA_as "defV2") s2).2 !! "orgB"
    = OrgPolicies s2 !! "orgB"
  ∧ hasOrg "orgB" (run_UpdatePolicies "orgA" (polA_as "defV2") s2).2 = hasOrg "orgB" s2
  ∧ orgMap (run_UpdatePolicies "orgA" (polA_as "defV2") s2).2 "orgB" = orgMap s2 "orgB"
  ∧ ∃ evs,
      eventChannel (run_UpdatePolicies "orgA" (polA_as "defV2") s2).2
      = eventChannel s2 ++ evs
      ∧ about "orgB" evs = [].
Proof.
  assert ("orgB" ≠ "orgA") as Hne by discriminate.
  split; [exact s2_reachable|]. split; [exact Hne|].
  exact (UpdatePolicies_leaves_other_orgs_alone GetBusinessPolicy Validate
           GenPolicyFromBusinessPolicy GenPolicyFromExternalPolicy MarshalPolicy
           Header_Name GetId sha3_Sum256 time_Now_Unix shuffle shuffle_permutes
           "orgA" "orgB" (polA_as "defV2") s2 s2_reachable Hne).
Defined.

Lemma served_triplet_is_served_witness :
  ServedPolicies s2 !! "orgA_*_" = Some orgA_all
  ∧ serveBusinessPolicy (BusinessPolOrg orgA_all) (BusinessPol orgA_all) s2 = true
  ∧ serveOrg (BusinessPolOrg orgA_all) s2 = true
  ∧ (BusinessPol orgA_all = "*" →
       ∀ polName, serveBusinessPolicy (BusinessPolOrg orgA_all) polName s2 = true)
  ∧ (∀ polOrg polName, serveBusinessPolicy polOrg polName s2 = true →
       serveOrg polOrg s2 = true).
Proof.
  assert (ServedPolicies s2 !! "orgA_*_" = Some orgA_all) as H by (vm_compute; reflexivity).
  split; [exact H|]. exact (served_triplet_is_served s2 "orgA_*_" orgA_all H).
Defined.

Lemma GetServedNodeOrgs_empty_iff_not_served_witness :
  (∀ n (A : Type) (l : list A), shuffle n A l ≡ₚ l)
  ∧ ((run_GetServedNodeOrgs "orgB" "polY" s2).1 = [] ↔
       serveBusinessPolicy "orgB" "polY" s2 = false)
  ∧ length (run_GetServedNodeOrgs "orgB" "polY" s2).1
    = length (filter (served_by "orgB" "polY") (map_to_list (ServedPolicies s2)).*2)
  ∧ ("orgB" ≠ "" → "" ∉ (run_GetServedNodeOrgs "orgB" "polY" s2).1).
Proof.
  split; [exact shuffle_permutes|].
  exact (GetServedNodeOrgs_empty_iff_not_served shuffle shuffle_permutes "orgB" "polY" s2).
Defined.

Lemma GetAllPolicyOrgs_lists_tracked_orgs_witness :
  (∀ n (A : Type) (l : list A), shuffle n A l ≡ₚ l)
  ∧ (∀ org, org ∈ (GetAllPolicyOrgs shuffle s2).1 ↔ hasOrg org s2 = true)
  ∧ NoDup (GetAllPolicyOrgs shuffle s2).1
  ∧ (GetAllPolicyOrgs shuffle s2).2 = set_tick S s2.
Proof.
  split; [exact shuffle_permutes|].
  exact (GetAllPolicyOrgs_lists_tracked_orgs shuffle shuffle_permutes s2).
Defined.

(** The two tracked orgs, in the order of the draw. *)
Example GetAllPolicyOrgs_run :
  (GetAllPolicyOrgs shuffle s2).1 ≡ₚ ["orgA"; "orgB"].
Proof. vm_compute. apply perm_swap || reflexivity. Qed.

Lemma deleteOrg_removes_the_org_witness :
  (∀ n (A : Type) (l : list A), shuffle n A l ≡ₚ l)
  ∧ (∃ s' evs,
       run_deleteOrg "orgA" s2 = (None, s')
       ∧ ServedPolicies s' = ServedPolicies s2
       ∧ heap s' = heap s2
       ∧ OrgPolicies s' = delete "orgA" (OrgPolicies s2)
       ∧ eventChannel s' = eventChannel s2 ++ evs
       ∧ evs ≡ₚ omap (deletion_message "orgA") (map_to_list (orgMap s2 "orgA")).*2
       ∧ Forall (λ m, msg_org m = "orgA") evs)
  ∧ (OrgPolicies s2 !! "orgC" = None → run_deleteOrg "orgC" s2 = (None, s2)).
Proof.
  split; [exact shuffle_permutes|]. split.
  - exact (proj1 (deleteOrg_removes_the_org MarshalPolicy Header_Name shuffle
                    shuffle_permutes "orgA" s2)).
  - exact (proj2 (deleteOrg_removes_the_org MarshalPolicy Header_Name shuffle
                    shuffle_permutes "orgC" s2)).
Defined.

Lemma reachable_state_invariant_witness :
  (∀ n (A : Type) (l : list A), shuffle n A l ≡ₚ l)
  ∧ is_reachable_shared emptied
  ∧ (∀ org l, OrgPolicies emptied !! org = Some l → is_Some (heap emptied !! l))
  ∧ (∀ o1 o2 l, OrgPolicies emptied !! o1 = Some l → OrgPolicies emptied !! o2 = Some l →
       o1 = o2)
  ∧ (∀ org polName, orgMap emptied org !! polName ≠ Some None)
  ∧ ((∀ org, hasOrg org emptied = true → serveOrg org emptied = true) →
     (∀ servedPols org,
        hasOrg org (run_SetCurrentBusinessPolicies servedPols emptied).2 = true →
        serveOrg org (run_SetCurrentBusinessPolicies servedPols emptied).2 = true)
     ∧ (∀ org' definedPolicies org,
          hasOrg org (run_UpdatePolicies org' definedPolicies emptied).2 = true →
          serveOrg org (run_UpdatePolicies org' definedPolicies emptied).2 = true)).
Proof.
  split; [exact shuffle_permutes|]. split; [exact emptied_reachable_shared|].
  exact (reachable_state_invariant GetBusinessPolicy Validate GenPolicyFromBusinessPolicy
           GenPolicyFromExternalPolicy MarshalPolicy Header_Name GetId sha3_Sum256
           time_Now_Unix shuffle shuffle_permutes emptied emptied_reachable_shared).
Defined.

Lemma UpdatePolicies_without_definitions_deletes_the_org_witness :
  (∀ n (A : Type) (l : list A), shuffle n A l ≡ₚ l)
  ∧ is_Some (OrgPolicies s2 !! "orgA")
  ∧ ∃ s' evs,
      run_UpdatePolicies "orgA" ∅ s2 = (None, s')
      ∧ ServedPolicies s' = ServedPolicies s2
      ∧ heap s' = heap s2
      ∧ OrgPolicies s' = delete "orgA" (OrgPolicies s2)
      ∧ eventChannel s' = eventChannel s2 ++ evs
      ∧ evs ≡ₚ omap (deletion_message "orgA") (map_to_list (orgMap s2 "orgA")).*2
      ∧ run_UpdatePolicies "orgA" (polA_as "defV1") s' = (Some (OrgNotFound "orgA"), s').
Proof.
  assert (is_Some (OrgPolicies s2 !! "orgA")) as H by (rewrite s2_orgA; eauto).
  split; [exact shuffle_permutes|]. split; [exact H|].
  exact (UpdatePolicies_without_definitions_deletes_the_org GetBusinessPolicy Validate
           GenPolicyFromBusinessPolicy MarshalPolicy Header_Name GetId sha3_Sum256
           time_Now_Unix shuffle shuffle_permutes "orgA" (polA_as "defV1") s2 H).
Defined.

Lemma UpdateEntry_agrees_with_NewBusinessPolicyEntry_witness :
  hashPolicy sha3_Sum256 "defV2" = Ok (String.list_byte_of_string "defV2")
  ∧ (∀ pe, run_NewBusinessPolicyEntry "defV2" "orgA/polA" 1700000100 = Ok pe →
       run_UpdateEntry polA_v1 "defV2" "orgA/polA" (String.list_byte_of_string "defV2")
         1700000100 = (pe, Ok (Policy pe)))
  ∧ (∀ e, run_NewBusinessPolicyEntry "defV2" "orgA/polA" 1700000100 = Err e →
       ∃ e', (run_UpdateEntry polA_v1 "defV2" "orgA/polA"
                (String.list_byte_of_string "defV2") 1700000100).2 = Err e').
Proof.
  assert (hashPolicy sha3_Sum256 "defV2" = Ok (String.list_byte_of_string "defV2")) as H
    by reflexivity.
  split; [exact H|].
  exact (UpdateEntry_agrees_with_NewBusinessPolicyEntry Validate GenPolicyFromBusinessPolicy
           sha3_Sum256 polA_v1 "defV2" "orgA/polA" (String.list_byte_of_string "defV2")
           1700000100 H).
Defined.

Lemma UpdatePolicies_messages_witness :
  (∀ n (A : Type) (l : list A), shuffle n A l ≡ₚ l)
  ∧ OrgPolicies s2 !! "orgA" = Some 1%positive
  ∧ polA_as "defV2" ≠ ∅
  ∧ ∃ removed chgs,
      eventChannel (run_UpdatePolicies "orgA" (polA_as "defV2") s2).2
      = eventChannel s2 ++ omap (deletion_message "orgA") removed.*2 ++ chgs
      ∧ NoDup removed.*1
      ∧ (∀ n x, (n, x) ∈ removed ↔
           orgMap s2 "orgA" !! n = Some x
           ∧ ¬ (serveBusinessPolicy "orgA" n s2 = true ∧ defined GetId (polA_as "defV2") n))
      ∧ Forall (is_change_of "orgA" (polA_as "defV2") s2) chgs
      ∧ Forall (λ m, msg_org m = "orgA")
          (omap (deletion_message "orgA") removed.*2 ++ chgs).
Proof.
  split; [exact shuffle_permutes|]. split; [exact s2_orgA|].
  split; [exact (polA_as_nonempty "defV2")|].
  exact (UpdatePolicies_messages GetBusinessPolicy Validate GenPolicyFromBusinessPolicy
           MarshalPolicy Header_Name GetId sha3_Sum256 time_Now_Unix shuffle shuffle_permutes
           "orgA" (polA_as "defV2") 1%positive s2 s2_orgA (polA_as_nonempty "defV2")).
Defined.

(** A run with a deletion: [polA] is defined no more and [polB] is new. *)
Example deletion_and_change_run :
  eventChannel (run_UpdatePolicies "orgA" {[ "orgA/polB" := "defB" ]} s2).2
  = [NewPolicyDeletedMessage DELETED_POLICY "" "orgA/polA:defV1" "orgA" "orgA/polA:defV1"]
  ∧ eventChannel (run_UpdatePolicies "orgA" (polA_as "defV2") s2).2
    = [NewPolicyChangedMessage CHANGED_POLICY "" "orgA/polA:defV2" "orgA" "orgA/polA:defV2"].
Proof. vm_compute. done. Qed.

Lemma UpdatePolicies_caches_the_served_definitions_witness :
  (∀ n (A : Type) (l : list A), shuffle n A l ≡ₚ l)
  ∧ (∀ n, is_Some (orgMap (run_UpdatePolicies "orgA" (polA_as "defV2") s2).2 "orgA" !! n) →
       serveBusinessPolicy "orgA" n s2 = true ∧ defined GetId (polA_as "defV2") n)
  ∧ ((run_UpdatePolicies "orgA" (polA_as "defV2") s2).1 = None →
     ∀ n, serveBusinessPolicy "orgA" n s2 = true → defined GetId (polA_as "defV2") n →
       ∃ pe polId exPol,
         orgMap (run_UpdatePolicies "orgA" (polA_as "defV2") s2).2 "orgA" !! n
         = Some (Some pe)
         ∧ polA_as "defV2" !! polId = Some exPol ∧ GetId polId = n
         ∧ hashPolicy sha3_Sum256 (GetBusinessPolicy exPol) = Ok (Hash pe)).
Proof.
  split; [exact shuffle_permutes|].
  exact (UpdatePolicies_caches_the_served_definitions GetBusinessPolicy Validate
           GenPolicyFromBusinessPolicy MarshalPolicy Header_Name GetId sha3_Sum256
           time_Now_Unix shuffle shuffle_permutes "orgA" (polA_as "defV2") s2).
Defined.

Lemma UpdatePolicies_keeps_or_renews_entries_witness :
  (∀ n (A : Type) (l : list A), shuffle n A l ≡ₚ l)
  ∧ (∀ n pe',
       orgMap (run_UpdatePolicies "orgA" (polA_as "defV2") s2).2 "orgA" !! n
       = Some (Some pe') →
       orgMap s2 "orgA" !! n = Some (Some pe') ∨ ServicePolicies pe' = ∅)
  ∧ (∀ n, is_Some (orgMap s2 "orgA" !! n) →
       serveBusinessPolicy "orgA" n s2 = true → defined GetId (polA_as "defV2") n →
       is_Some (orgMap (run_UpdatePolicies "orgA" (polA_as "defV2") s2).2 "orgA" !! n)).
Proof.
  split; [exact shuffle_permutes|].
  exact (UpdatePolicies_keeps_or_renews_entries GetBusinessPolicy Validate
           GenPolicyFromBusinessPolicy MarshalPolicy Header_Name GetId sha3_Sum256
           time_Now_Unix shuffle shuffle_permutes "orgA" (polA_as "defV2") s2).
Defined.

Lemma UpdatePolicies_idempotent_witness :
  (∀ n (A : Type) (l : list A), shuffle n A l ≡ₚ l)
  ∧ (∀ id1 id2, is_Some (polA_as "defV1" !! id1) → is_Some (polA_as "defV1" !! id2) →
       GetId id1 = GetId id2 → id1 = id2)
  ∧ polA_as "defV1" ≠ ∅
  ∧ run_UpdatePolicies "orgA" (polA_as "defV1") s1 = (None, s2)
  ∧ run_UpdatePolicies "orgA" (polA_as "defV1") s2 = (None, set_tick S (set_tick S s2)).
Proof.
  assert (run_UpdatePolicies "orgA" (polA_as "defV1") s1 = (None, s2)) as H
    by (vm_compute; reflexivity).
  split; [exact shuffle_permutes|]. split; [exact (polA_as_distinct_names "defV1")|].
  split; [exact (polA_as_nonempty "defV1")|]. split; [exact H|].
  exact (UpdatePolicies_idempotent GetBusinessPolicy Validate GenPolicyFromBusinessPolicy
           MarshalPolicy Header_Name GetId sha3_Sum256 time_Now_Unix shuffle shuffle_permutes
           "orgA" (polA_as "defV1") s1 s2
           (polA_as_distinct_names "defV1") (polA_as_nonempty "defV1") H).
Defined.

Lemma UpdatePolicies_failed_update_is_not_retried_witness :
  (∀ n (A : Type) (l : list A), shuffle n A l ≡ₚ l)
  ∧ OrgPolicies s2 !! "orgA" = Some 1%positive
  ∧ orgMap s2 "orgA" !! GetId "orgA/polA" = Some (Some polA_v1)
  ∧ polA_as "invalid" !! "orgA/polA" = Some "invalid"
  ∧ (∀ n, is_Some (orgMap s2 "orgA" !! n) →
       serveBusinessPolicy "orgA" n s2 = true ∧ defined GetId (polA_as "invalid") n)
  ∧ (∀ id ex, polA_as "invalid" !! id = Some ex → id ≠ "orgA/polA" →
       GetId id ≠ GetId "orgA/polA" ∧ is_quiet "orgA" s2 id ex)
  ∧ hashPolicy sha3_Sum256 (GetBusinessPolicy "invalid")
    = Ok (String.list_byte_of_string "invalid")
  ∧ String.list_byte_of_string "invalid" ≠ Hash polA_v1
  ∧ (Validate (GetBusinessPolicy "invalid") = false
     ∨ GenPolicyFromBusinessPolicy (GetBusinessPolicy "invalid") "orgA/polA" = None)
  ∧ ∃ e s' pe',
      run_UpdatePolicies "orgA" (polA_as "invalid") s2
      = (Some (UpdateEntryError "orgA/polA" "orgA" e), s')
      ∧ orgMap s' "orgA" = <[GetId "orgA/polA" := Some pe']> (orgMap s2 "orgA")
      ∧ Policy pe' = Policy polA_v1 ∧ Hash pe' = String.list_byte_of_string "invalid"
      ∧ eventChannel s' = eventChannel s2
      ∧ run_UpdatePolicies "orgA" (polA_as "invalid") s'
        = (None, set_tick S (set_tick S s')).
Proof.
  assert (orgMap s2 "orgA" !! GetId "orgA/polA" = Some (Some polA_v1)) as Hpe
    by (vm_compute; reflexivity).
  assert (polA_as "invalid" !! "orgA/polA" = Some "invalid") as Hdef
    by apply lookup_singleton_eq.
  assert (hashPolicy sha3_Sum256 (GetBusinessPolicy "invalid")
          = Ok (String.list_byte_of_string "invalid")) as Hh by reflexivity.
  assert (String.list_byte_of_string "invalid" ≠ Hash polA_v1) as Hne
    by (vm_compute; discriminate).
  assert (Validate (GetBusinessPolicy "invalid") = false
          ∨ GenPolicyFromBusinessPolicy (GetBusinessPolicy "invalid") "orgA/polA" = None)
    as Hfail by (left; reflexivity).
  split; [exact shuffle_permutes|]. split; [exact s2_orgA|]. split; [exact Hpe|].
  split; [exact Hdef|]. split; [exact (s2_cache_kept "invalid")|].
  split; [exact (polA_only "invalid")|]. split; [exact Hh|]. split; [exact Hne|].
  split; [exact Hfail|].
  exact (UpdatePolicies_failed_update_is_not_retried GetBusinessPolicy Validate
           GenPolicyFromBusinessPolicy MarshalPolicy Header_Name GetId sha3_Sum256
           time_Now_Unix shuffle shuffle_permutes
           "orgA" (polA_as "invalid") 1%positive "orgA/polA" "invalid" polA_v1
           (String.list_byte_of_string "invalid") s2
           s2_orgA Hpe Hdef (s2_cache_kept "invalid") (polA_only "invalid") Hh Hne Hfail).
Defined.

(** The run of the scenario: the failure is reported once, and the policy
    of the first definition stays cached under the hash of the second. *)
Example failed_update_run :
  let r1 := run_UpdatePolicies "orgA" (polA_as "invalid") s2 in
  let r2 := run_UpdatePolicies "orgA" (polA_as "invalid") r1.2 in
  r1.1 = Some (UpdateEntryError "orgA/polA" "orgA" ValidateError)
  ∧ r2.1 = None
  ∧ eventChannel r2.2 = []
  ∧ (Policy <$> (orgMap r2.2 "orgA" !! "polA" ≫= id)) = Some "orgA/polA:defV1"
  ∧ (Hash <$> (orgMap r2.2 "orgA" !! "polA" ≫= id))
    = Some (String.list_byte_of_string "invalid").
Proof. vm_compute. done. Qed.

Lemma UpdatePolicies_announces_cached_policies_only_witness :
  (∀ n (A : Type) (l : list A), shuffle n A l ≡ₚ l)
  ∧ (∀ id1 id2, is_Some (polA_as "defV2" !! id1) → is_Some (polA_as "defV2" !! id2) →
       GetId id1 = GetId id2 → id1 = id2)
  ∧ (∃ evs,
       eventChannel (run_UpdatePolicies "orgA" (polA_as "defV2") s2).2
       = eventChannel s2 ++ evs
       ∧ Forall (λ m, is_deletion_in "orgA" s2 m
                      ∨ is_redefinition_of "orgA" (polA_as "defV2") s2 m) evs)
  ∧ (orgMap s2 "orgA" = ∅ →
     eventChannel (run_UpdatePolicies "orgA" (polA_as "defV2") s2).2 = eventChannel s2).
Proof.
  split; [exact shuffle_permutes|]. split; [exact (polA_as_distinct_names "defV2")|].
  exact (UpdatePolicies_announces_cached_policies_only GetBusinessPolicy Validate
           GenPolicyFromBusinessPolicy MarshalPolicy Header_Name GetId sha3_Sum256
           time_Now_Unix shuffle shuffle_permutes "orgA" (polA_as "defV2") s2
           (polA_as_distinct_names "defV2")).
Defined.

Lemma SetCurrentBusinessPolicies_serves_what_it_tracks_witness :
  let after := (run_SetCurrentBusinessPolicies triplets_without_orgA emptied).2 in
  (∀ n (A : Type) (l : list A), shuffle n A l ≡ₚ l)
  ∧ is_reachable_shared emptied
  ∧ ServedPolicies after = triplets_without_orgA
  ∧ (¬ early_exit triplets_without_orgA emptied ∨ tracked_served emptied →
     ∀ org, hasOrg org after = serveOrg org after)
  ∧ (early_exit triplets_without_orgA emptied →
     run_SetCurrentBusinessPolicies triplets_without_orgA emptied = (None, emptied))
  ∧ heap emptied ⊆ heap after
  ∧ ∃ evs,
      eventChannel after = eventChannel emptied ++ evs
      ∧ Forall (λ m, hasOrg (msg_org m) emptied = true
                     ∧ (msg_org m ∉ served_orgs triplets_without_orgA)
                     ∧ is_deletion_in (msg_org m) emptied m) evs
      ∧ ((∀ org, hasOrg org emptied = true → org ∈ served_orgs triplets_without_orgA) →
         evs = []).
Proof.
  split; [exact shuffle_permutes|]. split; [exact emptied_reachable_shared|].
  exact (SetCurrentBusinessPolicies_serves_what_it_tracks GetBusinessPolicy Validate
           GenPolicyFromBusinessPolicy GenPolicyFromExternalPolicy MarshalPolicy
           Header_Name GetId sha3_Sum256 time_Now_Unix shuffle shuffle_permutes
           triplets_without_orgA emptied emptied_reachable_shared).
Defined.

Lemma UpdatePolicies_errors_witness :
  (∀ n (A : Type) (l : list A), shuffle n A l ≡ₚ l)
  ∧ ((run_UpdatePolicies "orgA" polA_and_invalid_polB s2).1 = Some (OrgNotFound "orgA") ↔
       hasOrg "orgA" s2 = false)
  ∧ (∀ e, (run_UpdatePolicies "orgA" polA_and_invalid_polB s2).1 = Some e →
       hasOrg "orgA" s2 = true →
       ∃ polId exPol err,
         polA_and_invalid_polB !! polId = Some exPol
         ∧ serveBusinessPolicy "orgA" (GetId polId) s2 = true
         ∧ is_unusable polId exPol
         ∧ (e = HashError "orgA" err ∨ e = UpdateEntryError polId "orgA" err
            ∨ e = CreateEntryError err))
  ∧ (hasOrg "orgA" s2 = true →
     (∀ polId exPol, polA_and_invalid_polB !! polId = Some exPol →
        serveBusinessPolicy "orgA" (GetId polId) s2 = true → ¬ is_unusable polId exPol) →
     (run_UpdatePolicies "orgA" polA_and_invalid_polB s2).1 = None).
Proof.
  split; [exact shuffle_permutes|].
  exact (UpdatePolicies_errors GetBusinessPolicy Validate GenPolicyFromBusinessPolicy
           MarshalPolicy Header_Name GetId sha3_Sum256 time_Now_Unix shuffle shuffle_permutes
           "orgA" polA_and_invalid_polB s2).
Defined.

(** The run of the scenario: the definition of [polB] is not valid. *)
Example invalid_definition_run :
  (run_UpdatePolicies "orgA" polA_and_invalid_polB s2).1
  = Some (CreateEntryError ValidateError).
Proof. vm_compute. reflexivity. Qed.

End Scenario.

(** * The post-installation script of the horizon-cli package
      (pkg/deb/horizon-cli/DEBIAN/postinst)

    The script is embedded over the machine it runs on.  The test
    [[[ -e path ]]], the command [ln -s] and the redirected [echo] belong to
    the shell and the system: they are parameters.  The script does not look
    at the status of [ln] and sets no [-e] option, so a failing [ln] does not
    stop it: [ln_s] gives the machine after the command, whatever its
    outcome. *)

Module Postinst.

Section Script.

Context {World : Type}.
(** [[[ -e path ]]]: the path exists, symbolic links followed. *)
Variable test_e : string → World → bool.
(** [ln -s target link] *)
Variable ln_s : string → string → World → World.
(** [echo message >&2] *)
Variable echo_stderr : string → World → World.

(** The three links of the script, each with its target. *)
Definition links : list (string * string) :=
  [ ("/usr/horizon/bin/hzn", "/usr/bin/hzn");
    ("/usr/horizon/bin/horizon-container", "/usr/bin/horizon-container");
    ("/usr/horizon/bin/edgeNodeFiles.sh", "/usr/bin/edgeNodeFiles.sh") ].

(** [if [[ ! -e link ]]; then ln -s target link; fi] *)
Definition link_unless_exists (target link : string) (w : World) : World :=
  if negb (test_e link w) then ln_s target link w else w.

(** The branch of [configure]: the three statements in their order. *)
Definition configure (w : World) : World :=
  foldl (λ w '(target, link), link_unless_exists target link w) w links.

(** The script, run with first argument [arg1]: its exit status and the
    machine it leaves. *)
Definition postinst (arg1 : string) (w : World) : nat * World :=
  if bool_decide (arg1 = "configure") then (0, configure w)
  else if bool_decide (arg1 ∈ ["abort-upgrade"; "abort-remove"; "abort-deconfigure"])
  then (0, w)
  else (1, echo_stderr ("postinst called with unknown argument `" +:+ arg1 +:+ "'") w).

(** The machines on which [ln -s] does its work for the three links: the
    package is unpacked and [/usr/bin] can be written. *)
Variable healthy : World → Prop.
Hypothesis ln_s_healthy : ∀ target link w,
  (target, link) ∈ links → healthy w → healthy (ln_s target link w).
Hypothesis ln_s_creates : ∀ target link w,
  (target, link) ∈ links → healthy w → test_e link w = false →
  test_e link (ln_s target link w) = true.
Hypothesis ln_s_keeps : ∀ target link path w,
  (target, link) ∈ links → healthy w → test_e path w = true →
  test_e path (ln_s target link w) = true.

Lemma link_unless_exists_spec target link w :
  (target, link) ∈ links → healthy w →
  healthy (link_unless_exists target link w)
  ∧ test_e link (link_unless_exists target link w) = true
  ∧ (∀ path, test_e path w = true → test_e path (link_unless_exists target link w) = true)
  ∧ (test_e link w = true → link_unless_exists target link w = w).
Proof.
  intros Hin Hw. unfold link_unless_exists.
  destruct (test_e link w) eqn:He; simpl; [done|]. split_and!; try done.
  - by apply ln_s_healthy.
  - by apply ln_s_creates.
  - intros path. by apply ln_s_keeps.
Qed.

(** X19. On a machine on which [ln -s] does its work, [postinst configure]
    returns status 0 and leaves a machine on which the three links exist; a
    path that existed before still exists; and the script is idempotent: a
    second run is a run on a machine where the three links exist, makes no
    link and leaves the machine as the first run left it.  The status is 0
    for [configure] and the three [abort-] arguments and 1 for every other
    argument; the [abort-] arguments leave the machine as it is. *)
Theorem postinst_configure_idempotent w :
  healthy w →
  (postinst "configure" w).1 = 0
  ∧ healthy (postinst "configure" w).2
  ∧ (∀ target link, (target, link) ∈ links → test_e link (postinst "configure" w).2 = true)
  ∧ (∀ path, test_e path w = true → test_e path (postinst "configure" w).2 = true)
  ∧ postinst "configure" (postinst "configure" w).2 = postinst "configure" w
  ∧ (∀ arg1, (postinst arg1 w).1 = 0 ↔
       arg1 ∈ ["configure"; "abort-upgrade"; "abort-remove"; "abort-deconfigure"])
  ∧ (∀ arg1, arg1 ∈ ["abort-upgrade"; "abort-remove"; "abort-deconfigure"] →
       postinst arg1 w = (0, w)).
Proof.
  intros Hw.
  assert (∀ w0, (∀ target link, (target, link) ∈ links → test_e link w0 = true) →
            configure w0 = w0) as Hfix.
  { intros w0 Hall. unfold configure, links in *. simpl. unfold link_unless_exists.
    rewrite (Hall "/usr/horizon/bin/hzn" "/usr/bin/hzn") by set_solver. simpl.
    rewrite (Hall "/usr/horizon/bin/horizon-container" "/usr/bin/horizon-container")
      by set_solver. simpl.
    by rewrite (Hall "/usr/horizon/bin/edgeNodeFiles.sh" "/usr/bin/edgeNodeFiles.sh")
      by set_solver. }
  assert (healthy (configure w)
          ∧ (∀ target link, (target, link) ∈ links → test_e link (configure w) = true)
          ∧ (∀ path, test_e path w = true → test_e path (configure w) = true))
    as (Hh & Hall & Hkeep).
  { unfold configure. simpl.
    destruct (link_unless_exists_spec "/usr/horizon/bin/hzn" "/usr/bin/hzn" w)
      as (Hh1 & He1 & Hk1 & _); [unfold links; set_solver|done|].
    set (w1 := link_unless_exists "/usr/horizon/bin/hzn" "/usr/bin/hzn" w) in *.
    destruct (link_unless_exists_spec "/usr/horizon/bin/horizon-container"
                "/usr/bin/horizon-container" w1)
      as (Hh2 & He2 & Hk2 & _); [unfold links; set_solver|done|].
    set (w2 := link_unless_exists "/usr/horizon/bin/horizon-container"
                 "/usr/bin/horizon-container" w1) in *.
    destruct (link_unless_exists_spec "/usr/horizon/bin/edgeNodeFiles.sh"
                "/usr/bin/edgeNodeFiles.sh" w2)
      as (Hh3 & He3 & Hk3 & _); [unfold links; set_solver|done|].
    split; [done|]. split.
    - intros target link Hin. unfold links in Hin.
      apply elem_of_cons in Hin as [[= -> ->]|Hin]; [by apply Hk3, Hk2|].
      apply elem_of_cons in Hin as [[= -> ->]|Hin]; [by apply Hk3|].
      apply list_elem_of_singleton in Hin as [= -> ->]. done.
    - intros path Hp. by apply Hk3, Hk2, Hk1. }
  unfold postinst. simpl. split_and!; try done.
  - by rewrite Hfix.
  - intros arg1. repeat case_bool_decide; simpl; set_solver.
  - intros arg1 Hin. rewrite bool_decide_eq_false_2 by set_solver.
    by rewrite bool_decide_eq_true_2.
Qed.

End Script.

(** A machine is the set of the paths that exist; [ln -s] adds its link. *)
Definition test_e (path : string) (w : gset string) : bool := bool_decide (path ∈ w).
Definition ln_s (target link : string) (w : gset string) : gset string := {[ link ]} ∪ w.
Definition echo_stderr (message : string) (w : gset string) : gset string := w.

(** The package is unpacked: the targets of the three links exist. *)
Definition is_unpacked (w : gset string) : Prop :=
  ∀ target link, (target, link) ∈ links → target ∈ w.

(** The package is unpacked and [hzn] is linked already. *)
Definition unpacked : gset string :=
  {[ "/usr/horizon/bin/hzn"; "/usr/horizon/bin/horizon-container";
     "/usr/horizon/bin/edgeNodeFiles.sh"; "/usr/bin/hzn" ]}.

Lemma ln_s_unpacked target link (w : gset string) :
  (target, link) ∈ links → is_unpacked w → is_unpacked (ln_s target link w).
Proof. intros _ Hw t l Hin. unfold ln_s. apply elem_of_union_r. by eapply Hw. Qed.

Lemma ln_s_creates target link (w : gset string) :
  (target, link) ∈ links → is_unpacked w → test_e link w = false →
  test_e link (ln_s target link w) = true.
Proof. intros _ _ _. unfold test_e, ln_s. apply bool_decide_eq_true. set_solver. Qed.

Lemma ln_s_keeps target link path (w : gset string) :
  (target, link) ∈ links → is_unpacked w → test_e path w = true →
  test_e path (ln_s target link w) = true.
Proof. intros _ _. unfold test_e, ln_s. rewrite !bool_decide_eq_true. set_solver. Qed.

Lemma unpacked_is_unpacked : is_unpacked unpacked.
Proof.
  intros target link Hin. unfold links in Hin.
  apply elem_of_cons in Hin as [[= -> ->]|Hin];
    [apply (bool_decide_unpack _); vm_compute; exact I|].
  apply elem_of_cons in Hin as [[= -> ->]|Hin];
    [apply (bool_decide_unpack _); vm_compute; exact I|].
  apply list_elem_of_singleton in Hin as [= -> ->].
  apply (bool_decide_unpack _). vm_compute. exact I.
Qed.

Lemma postinst_configure_idempotent_witness :
  let run := postinst test_e ln_s echo_stderr in
  (∀ target link (w : gset string),
     (target, link) ∈ links → is_unpacked w → is_unpacked (ln_s target link w))
  ∧ (∀ target link (w : gset string),
       (target, link) ∈ links → is_unpacked w → test_e link w = false →
       test_e link (ln_s target link w) = true)
  ∧ (∀ target link path (w : gset string),
       (target, link) ∈ links → is_unpacked w → test_e path w = true →
       test_e path (ln_s target link w) = true)
  ∧ is_unpacked unpacked
  ∧ (run "configure" unpacked).1 = 0
  ∧ is_unpacked (run "configure" unpacked).2
  ∧ (∀ target link, (target, link) ∈ links → test_e link (run "configure" unpacked).2 = true)
  ∧ (∀ path, test_e path unpacked = true → test_e path (run "configure" unpacked).2 = true)
  ∧ run "configure" (run "configure" unpacked).2 = run "configure" unpacked
  ∧ (∀ arg1, (run arg1 unpacked).1 = 0 ↔
       arg1 ∈ ["configure"; "abort-upgrade"; "abort-remove"; "abort-deconfigure"])
  ∧ (∀ arg1, arg1 ∈ ["abort-upgrade"; "abort-remove"; "abort-deconfigure"] →
       run arg1 unpacked = (0, unpacked)).
Proof.
  split; [exact ln_s_unpacked|]. split; [exact ln_s_creates|]. split; [exact ln_s_keeps|].
  split; [exact unpacked_is_unpacked|].
  exact (postinst_configure_idempotent test_e ln_s echo_stderr is_unpacked
           ln_s_unpacked ln_s_creates ln_s_keeps unpacked unpacked_is_unpacked).
Defined.

(** The run on the unpacked machine: the two missing links are made. *)
Example configure_run :
  (postinst test_e ln_s echo_stderr "configure" unpacked).2
  = unpacked ∪ {[ "/usr/bin/horizon-container"; "/usr/bin/edgeNodeFiles.sh" ]}
  ∧ (postinst test_e ln_s echo_stderr "purge" unpacked).1 = 1.
Proof. split; [|reflexivity]. apply set_eq. intros x. vm_compute postinst. set_solver. Qed.

End Postinst.
